(** * A tracing collector over manual allocation: model of [Source/main.cpp]

    The development embeds the memory manager of the repository — the
    object table, the handle classes [IPtr]/[Ptr<T>]/[RootPtr<T>], the
    replaced allocation functions and the mark-and-sweep collector — as
    executable functions over an explicit state, and proves the properties
    listed for it. *)

From Stdlib Require Import ZArith String.
From stdpp Require Import gmap strings list fin_maps sorting relations.

Local Open Scope Z_scope.

(** ** Outcomes

    The C++ code has two ways of not producing a next state: calling the
    null [destroy] function pointer in the sweep ([Fatal]), and reading
    or writing through a pointer to an object that is not there, which
    C++ leaves undefined ([Undefined]).  The recursive marking is given a
    recursion-depth budget in the model; [OutOfFuel] is the outcome of
    exhausting it. *)

Inductive outcome (A : Type) : Type :=
  | Done (a : A)
  | Fatal
  | Undefined
  | OutOfFuel.
Arguments Done {A} a.
Arguments Fatal {A}.
Arguments Undefined {A}.
Arguments OutOfFuel {A}.

Global Instance outcome_bind : MBind outcome := λ A B f m,
  match m with
  | Done a => f a
  | Fatal => Fatal
  | Undefined => Undefined
  | OutOfFuel => OutOfFuel
  end.

(** A [for] loop over a vector whose body may fail. *)
Fixpoint for_each {A S : Type} (body : A → S → outcome S) (l : list A) (s : S)
  : outcome S :=
  match l with
  | [] => Done s
  | x :: l' => s' ← body x s; for_each body l' s'
  end.

(** [std::find] followed by [erase] of the iterator found: the first
    occurrence goes, the rest of the vector keeps its order. *)
Fixpoint erase_first (x : Z) (l : list Z) : list Z :=
  match l with
  | [] => []
  | y :: l' => if decide (y = x) then l' else y :: erase_first x l'
  end.

(** [size_t] arithmetic of the byte counter. *)
Definition size_t_wrap (n : Z) : Z := n mod 2 ^ 64.

(** ** Data *)

(** [MemoryManager::ObjectInfo].  Addresses are integers, [0] is
    [nullptr]; [destroy] is [None] for the null function pointer and
    [Some T] for [&Destroyer<T>::Destroy]. *)
Module ObjectInfo.
Record t : Type := mk {
  object : Z;
  size : Z;
  mark : bool;
  source : string;
  line : Z;
  pointers : list Z;
  destroy : option nat
}.

Definition set_mark (b : bool) (i : t) : t :=
  mk (object i) (size i) b (source i) (line i) (pointers i) (destroy i).
Definition set_pointers (l : list Z) (i : t) : t :=
  mk (object i) (size i) (mark i) (source i) (line i) l (destroy i).
Definition set_destroy (d : option nat) (i : t) : t :=
  mk (object i) (size i) (mark i) (source i) (line i) (pointers i) d.
End ObjectInfo.

(** [IPtr] with the two things its dynamic type fixes: what [IsRoot()]
    answers ([Ptr<T>]: false, [RootPtr<T>]: true) and the parameter [T].
    [info] is the [ObjectInfo*]; a record is owned by the table entry of
    its address, so the pointer is modelled by that address. *)
Module IPtr.
Record t : Type := mk {
  object : Z;
  info : option Z;
  IsRoot : bool;
  pointee : nat
}.

Definition MarkInvalid (p : t) : t := mk 0 None (IsRoot p) (pointee p).
Definition IsValid (p : t) : bool := negb (object p =? 0).
Definition Get (p : t) : Z := object p.
End IPtr.

(** What the program does to the outside: the finalizer calls
    ([destroy(obj)]) and the calls of [free]. *)
Inductive event : Type :=
  | Finalize (T : nat) (obj : Z)
  | Release (obj : Z).

Global Instance event_eq_dec : EqDecision event.
Proof. solve_decision. Defined.

(** The state: the four fields of [MemoryManager::instance], the handle
    objects that are alive (constructed and not destroyed), keyed by their
    own storage address [this], and the events so far. *)
Record Heap : Type := mkHeap {
  objects : gmap Z ObjectInfo.t;
  pointers : list Z;
  allocatedBytes : Z;
  currentMark : bool;
  handles : gmap Z IPtr.t;
  trace : list event
}.

Definition set_objects (o : gmap Z ObjectInfo.t) (s : Heap) : Heap :=
  mkHeap o (pointers s) (allocatedBytes s) (currentMark s) (handles s) (trace s).
Definition set_pointers (l : list Z) (s : Heap) : Heap :=
  mkHeap (objects s) l (allocatedBytes s) (currentMark s) (handles s) (trace s).
Definition set_allocatedBytes (n : Z) (s : Heap) : Heap :=
  mkHeap (objects s) (pointers s) n (currentMark s) (handles s) (trace s).
Definition set_currentMark (b : bool) (s : Heap) : Heap :=
  mkHeap (objects s) (pointers s) (allocatedBytes s) b (handles s) (trace s).
Definition set_handles (h : gmap Z IPtr.t) (s : Heap) : Heap :=
  mkHeap (objects s) (pointers s) (allocatedBytes s) (currentMark s) h (trace s).
Definition emit (e : event) (s : Heap) : Heap :=
  mkHeap (objects s) (pointers s) (allocatedBytes s) (currentMark s) (handles s)
         (trace s ++ [e]).

(** The state before [main]: [allocatedBytes = 0], [currentMark = true]. *)
Definition initial : Heap := mkHeap ∅ [] 0 true ∅ [].

(** ** Handles: [Ptr<T>] and [RootPtr<T>] *)

(** [info->pointers.push_back(this)] and, where the code has it, the lazy
    binding [if (!info->destroy) info->destroy = &Destroyer<T>::Destroy]. *)
Definition attach (this : Z) (i : ObjectInfo.t) : ObjectInfo.t :=
  ObjectInfo.set_pointers (ObjectInfo.pointers i ++ [this]) i.

Definition bind_destroy (T : nat) (i : ObjectInfo.t) : ObjectInfo.t :=
  match ObjectInfo.destroy i with
  | None => ObjectInfo.set_destroy (Some T) i
  | Some _ => i
  end.

(** The opening of both assignment operators and of the destructor:
    [if (info) { find this in info->pointers; erase it if found }]. *)
Definition detach (this : Z) (s : Heap) : outcome Heap :=
  match handles s !! this with
  | None => Undefined
  | Some p =>
      match IPtr.info p with
      | None => Done s
      | Some a =>
          match objects s !! a with
          | None => Undefined
          | Some i =>
              Done (set_objects
                      (<[a := ObjectInfo.set_pointers
                                (erase_first this (ObjectInfo.pointers i)) i]>
                         (objects s)) s)
          end
      end
  end.

(** [MemoryManager::instance.pointers.push_back(this)]. *)
Definition register (this : Z) (s : Heap) : Heap :=
  set_pointers (pointers s ++ [this]) s.

(** [Ptr()] and [RootPtr()]. *)
Definition Ptr_default (root : bool) (T : nat) (this : Z) (s : Heap) : Heap :=
  register this (set_handles (<[this := IPtr.mk 0 None root T]> (handles s)) s).

(** [Ptr(T* object)] and [RootPtr(T* object)].  When [object] is not in
    the table the constructor never writes [info]: the member keeps what
    the storage held before, which the model takes as [stale]. *)
Definition Ptr_raw (root : bool) (T : nat) (this : Z) (object : Z)
    (stale : option Z) (s : Heap) : Heap :=
  match objects s !! object with
  | Some i =>
      register this
        (set_handles (<[this := IPtr.mk object (Some object) root T]> (handles s))
           (set_objects (<[object := bind_destroy T (attach this i)]> (objects s)) s))
  | None =>
      register this
        (set_handles (<[this := IPtr.mk object stale root T]> (handles s)) s)
  end.

(** [Ptr(const Ptr<T>& other)] and [RootPtr(const Ptr<T>& other)]. *)
Definition Ptr_copy (root : bool) (this : Z) (other : Z) (s : Heap) : outcome Heap :=
  match handles s !! other with
  | None => Undefined
  | Some o =>
      let p := IPtr.mk (IPtr.object o) (IPtr.info o) root (IPtr.pointee o) in
      match IPtr.info o with
      | None => Done (register this (set_handles (<[this := p]> (handles s)) s))
      | Some a =>
          match objects s !! a with
          | None => Undefined
          | Some i =>
              Done (register this
                      (set_handles (<[this := p]> (handles s))
                         (set_objects (<[a := attach this i]> (objects s)) s)))
          end
      end
  end.

(** [~Ptr()]. *)
Definition Ptr_destroy (this : Z) (s : Heap) : outcome Heap :=
  s1 ← detach this s;
  Done (set_handles (delete this (handles s1))
          (set_pointers (erase_first this (pointers s1)) s1)).

(** [operator=(const Ptr<T>& other)]. *)
Definition Ptr_assign (this : Z) (other : Z) (s : Heap) : outcome Heap :=
  s1 ← detach this s;
  match handles s1 !! this, handles s1 !! other with
  | Some p, Some o =>
      let p' := IPtr.mk (IPtr.object o) (IPtr.info o) (IPtr.IsRoot p) (IPtr.pointee p) in
      let s2 := set_handles (<[this := p']> (handles s1)) s1 in
      match IPtr.info o with
      | None => Done s2
      | Some a =>
          match objects s2 !! a with
          | None => Undefined
          | Some i => Done (set_objects (<[a := attach this i]> (objects s2)) s2)
          end
      end
  | _, _ => Undefined
  end.

(** [operator=(T* other)]. *)
Definition Ptr_assign_raw (this : Z) (other : Z) (s : Heap) : outcome Heap :=
  s1 ← detach this s;
  match handles s1 !! this with
  | None => Undefined
  | Some p =>
      match objects s1 !! other with
      | Some i =>
          Done (set_handles
                  (<[this := IPtr.mk other (Some other) (IPtr.IsRoot p) (IPtr.pointee p)]>
                     (handles s1))
                  (set_objects
                     (<[other := bind_destroy (IPtr.pointee p) (attach this i)]>
                        (objects s1)) s1))
      | None =>
          Done (set_handles
                  (<[this := IPtr.mk other None (IPtr.IsRoot p) (IPtr.pointee p)]>
                     (handles s1)) s1)
      end
  end.

(** ** Allocation functions *)

(** [operator new(size, source, line)]; [res] is what [malloc] returned. *)
Definition operator_new (res : Z) (size : Z) (source : string) (line : Z)
    (s : Heap) : Heap :=
  set_allocatedBytes (size_t_wrap (allocatedBytes s + size))
    (set_objects
       (<[res := ObjectInfo.mk res size (currentMark s) source line [] None]>
          (objects s)) s).

(** [ptr->MarkInvalid()] on a handle address. *)
Definition invalidate (ptr : Z) (s : Heap) : outcome Heap :=
  match handles s !! ptr with
  | None => Undefined
  | Some p => Done (set_handles (<[ptr := IPtr.MarkInvalid p]> (handles s)) s)
  end.

(** [operator delete(void* data)].  [free(data)] is the event
    [Release data]: the function takes whatever address it is given and
    runs no destructor, so the handles stored in the block stay in the
    registry and in [handles]; what a call may assume of them is the
    business of the properties ([handle_free] below). *)
Definition operator_delete (data : Z) (s : Heap) : outcome Heap :=
  match objects s !! data with
  | Some i =>
      let s1 := set_allocatedBytes
                  (size_t_wrap (allocatedBytes s - ObjectInfo.size i)) s in
      s2 ← for_each invalidate (ObjectInfo.pointers i) s1;
      Done (emit (Release data) (set_objects (delete data (objects s2)) s2))
  | None => Done (emit (Release data) s)
  end.

(** [operator delete(void* data, const char* source, int line)]: its body
    is [delete data]. *)
Definition operator_delete_tagged (data : Z) (source : string) (line : Z)
    (s : Heap) : outcome Heap :=
  operator_delete data s.

(** ** The collector *)

(** The keys of a [std::map<void*, _>] in iteration order. *)
Definition keys {V : Type} (m : gmap Z V) : list Z :=
  merge_sort Z.le (map_to_list m).*1.

Definition in_range (left right cptr : Z) : bool :=
  (left <=? cptr) && (cptr <? right).

(** The body of the loop of [MarkObject], [self] being the recursive
    call. *)
Definition scan (self : Z → Heap → outcome Heap) (left right : Z)
    (ptr : Z) (st : Heap) : outcome Heap :=
  if in_range left right ptr then
    match handles st !! ptr with
    | None => Undefined
    | Some p =>
        match IPtr.info p with
        | None => Done st
        | Some a =>
            match objects st !! a with
            | None => Undefined
            | Some j =>
                if negb (eqb (ObjectInfo.mark j) (currentMark st))
                then self a st
                else Done st
            end
        end
    end
  else Done st.

(** [MemoryManager::MarkObject].  [fuel] bounds the depth of the
    recursion. *)
Fixpoint MarkObject (fuel : nat) (info : Z) (s : Heap) : outcome Heap :=
  match fuel with
  | O => OutOfFuel
  | S fuel' =>
      match objects s !! info with
      | None => Undefined
      | Some i =>
          let s1 := set_objects
                      (<[info := ObjectInfo.set_mark (currentMark s) i]> (objects s)) s in
          let left := ObjectInfo.object i in
          let right := left + ObjectInfo.size i in
          for_each (scan (MarkObject fuel') left right) (pointers s) s1
      end
  end.

(** The first loop of [CollectGarbage] and its body. *)
Definition mark_root (fuel : nat) (ptr : Z) (st : Heap) : outcome Heap :=
  match handles st !! ptr with
  | None => Undefined
  | Some p =>
      if IPtr.IsRoot p then
        match IPtr.info p with
        | Some a => MarkObject fuel a st
        | None => Done st
        end
      else Done st
  end.

Definition mark_roots (fuel : nat) (s : Heap) : outcome Heap :=
  for_each (mark_root fuel) (pointers s) s.

(** The second loop: the table entries whose mark is not the current one,
    in table order. *)
Definition unmarked (s : Heap) (a : Z) : bool :=
  match objects s !! a with
  | Some i => negb (eqb (ObjectInfo.mark i) (currentMark s))
  | None => false
  end.

Definition freeObjects (s : Heap) : list Z :=
  filter (fun a => unmarked s a = true) (keys (objects s)).

(** [Destroyer<T>::Destroy(obj)] runs [~T()] on the object.  What [~T()]
    does to the state of the collector is the destruction of the handle
    members of the object, last declared first.  The object was made by
    [new T], so the [size] of its record is [sizeof(T)], and its members
    are the live handles stored in those [extent] bytes.  This is the
    destructor of a type whose handles are all direct members and whose
    destructor does nothing else to the collector, as [A] to [D] of the
    repository; [T] is kept as the label of the event. *)
Definition members (obj extent : Z) (s : Heap) : list Z :=
  reverse (filter (fun h => in_range obj (obj + extent) h = true) (keys (handles s))).

Definition Destroy (T : nat) (obj extent : Z) (s : Heap) : outcome Heap :=
  for_each Ptr_destroy (members obj extent s) (emit (Finalize T obj) s).

(** The body of the third loop, for the table entry at [obj]. *)
Definition sweep_one (obj : Z) (s : Heap) : outcome Heap :=
  match objects s !! obj with
  | None => Undefined
  | Some i =>
      let s1 := set_allocatedBytes
                  (size_t_wrap (allocatedBytes s - ObjectInfo.size i)) s in
      match ObjectInfo.destroy i with
      | None => Fatal
      | Some T =>
          s2 ← Destroy T obj (ObjectInfo.size i) s1;
          let s3 := emit (Release obj) s2 in
          match objects s3 !! obj with
          | None => Undefined
          | Some i' =>
              s4 ← for_each invalidate (ObjectInfo.pointers i') s3;
              Done (set_objects (delete obj (objects s4)) s4)
          end
      end
  end.

Definition sweep (s : Heap) : outcome Heap :=
  for_each sweep_one (freeObjects s) s.

(** The recursion of [MarkObject] only enters records whose mark is not
    the current one and marks them first, so its depth stays below the
    number of records plus one. *)
Definition mark_fuel (s : Heap) : nat := S (size (objects s)).

(** [MemoryManager::CollectGarbage]. *)
Definition CollectGarbage (s : Heap) : outcome Heap :=
  let s0 := set_currentMark (negb (currentMark s)) s in
  s1 ← mark_roots (mark_fuel s0) s0;
  sweep s1.

(** * Vocabulary of the properties *)

(** ** Well-formed states

    [consistent] collects what the operations maintain between the table,
    the back-reference vectors, the handles and the handle registry:
    a record sits at its own address; a handle whose [info] points to a
    record is on that record's vector, and the vector holds nothing else
    and nothing twice; the registry lists the live handles, each once;
    the blocks of two records share no byte.  [wf] adds that every record
    carries the current mark, which holds outside [CollectGarbage]. *)

Record consistent (s : Heap) : Prop := {
  c_key : ∀ a i, objects s !! a = Some i → ObjectInfo.object i = a;
  c_bound : ∀ h p a,
    handles s !! h = Some p → IPtr.info p = Some a →
    ∃ i, objects s !! a = Some i ∧ h ∈ ObjectInfo.pointers i;
  c_back : ∀ a i h,
    objects s !! a = Some i → h ∈ ObjectInfo.pointers i →
    ∃ p, handles s !! h = Some p ∧ IPtr.info p = Some a;
  c_back_nodup : ∀ a i, objects s !! a = Some i → NoDup (ObjectInfo.pointers i);
  c_registry : ∀ h, h ∈ pointers s ↔ is_Some (handles s !! h);
  c_registry_nodup : NoDup (pointers s);
  c_disjoint : ∀ a b i j h,
    objects s !! a = Some i → objects s !! b = Some j →
    a ≤ h < a + ObjectInfo.size i → b ≤ h < b + ObjectInfo.size j → a = b
}.

Definition wf (s : Heap) : Prop :=
  consistent s ∧
  ∀ a i, objects s !! a = Some i → ObjectInfo.mark i = currentMark s.

(** The block [res, res + size) that [malloc] hands out is not in the
    table and shares no byte with a block that is. *)
Definition fresh_block (res size : Z) (s : Heap) : Prop :=
  objects s !! res = None ∧
  map_Forall (λ b j, res + size ≤ b ∨ b + ObjectInfo.size j ≤ res) (objects s).

(** ** The object graph *)

(** A handle is embedded in a record when its own storage address lies in
    the record's bytes.  There is an edge from a record to the record a
    live handle embedded in it is bound to; a root handle leads to the
    record it is bound to. *)
Definition embedded (s : Heap) (a h : Z) : Prop :=
  ∃ i, objects s !! a = Some i ∧ a ≤ h < a + ObjectInfo.size i.

Definition edge (s : Heap) (a b : Z) : Prop :=
  ∃ h p, handles s !! h = Some p ∧ embedded s a h ∧ IPtr.info p = Some b.

Definition root_of (s : Heap) (a : Z) : Prop :=
  ∃ h p, handles s !! h = Some p ∧ IPtr.IsRoot p = true ∧ IPtr.info p = Some a.

Definition reachable (s : Heap) (a : Z) : Prop :=
  ∃ r, root_of s r ∧ rtc (edge s) r a.

(** [linked s a l z]: edges lead from [a] through the records of [l], in
    order, to [z]; a cycle is a list of records with edges from each to
    the next and from the last to the first. *)
Fixpoint linked (s : Heap) (a : Z) (l : list Z) (z : Z) : Prop :=
  match l with
  | [] => edge s a z
  | b :: l' => edge s a b ∧ linked s b l' z
  end.

Definition cycle (s : Heap) (l : list Z) : Prop :=
  match l with
  | [] => False
  | a :: l' => linked s a l' a
  end.

(** No bound root handle is stored inside a record that no root
    reaches. *)
Definition roots_outside_garbage (s : Heap) : Prop :=
  ∀ h p a, handles s !! h = Some p → IPtr.IsRoot p = true →
           is_Some (IPtr.info p) → embedded s a h → reachable s a.

(** ** The phases of a collection *)

(** The state after the epoch flip that opens [CollectGarbage]. *)
Definition flipped (s : Heap) : Heap := set_currentMark (negb (currentMark s)) s.

Definition marked (s : Heap) (a : Z) : Prop :=
  ∃ i, objects s !! a = Some i ∧ ObjectInfo.mark i = currentMark s.

(** What marking may change: the [mark] of records, to the current one. *)
Definition remark (s s' : Heap) : Prop :=
  pointers s' = pointers s ∧ allocatedBytes s' = allocatedBytes s ∧
  currentMark s' = currentMark s ∧ handles s' = handles s ∧ trace s' = trace s ∧
  ∀ a, objects s' !! a = objects s !! a ∨
       ∃ i, objects s !! a = Some i ∧
            objects s' !! a = Some (ObjectInfo.set_mark (currentMark s) i).

(** Every marked record outside [G] has all its successors in the graph
    of [s0] marked. *)
Definition closed_except (s0 : Heap) (G : Z → Prop) (t : Heap) : Prop :=
  ∀ x y, marked t x → ¬ G x → edge s0 x y → marked t y.

(** A record without its back-reference vector: what no handle operation
    and no sweep of another record changes. *)
Definition shape (i : ObjectInfo.t) : ObjectInfo.t := ObjectInfo.set_pointers [] i.

(** The finalizer bound to a record and the events of sweeping a list of
    records. *)
Definition finalizer (s : Heap) (a : Z) : nat :=
  default 0%nat (objects s !! a ≫= ObjectInfo.destroy).

Definition sweep_events (s : Heap) (l : list Z) : list event :=
  l ≫= (λ a, [Finalize (finalizer s a) a; Release a]).

(** The state [u] of a sweep that started in [sm] and has so far removed
    the records [done]: these are out of the table and the others are as
    they were, up to their vectors; a handle is alive unless it was stored
    in a record of [done], and it is as it was unless it was bound to
    one, in which case it is invalid. *)
Record swept (sm : Heap) (done : list Z) (u : Heap) : Prop := {
  sw_consistent : consistent u;
  sw_mark : currentMark u = currentMark sm;
  sw_trace : trace u = trace sm ++ sweep_events sm done;
  sw_gone : ∀ a, a ∈ done → objects u !! a = None;
  sw_kept : ∀ a, a ∉ done → shape <$> objects u !! a = shape <$> objects sm !! a;
  sw_handle : ∀ h p', handles u !! h = Some p' →
    ∃ p, handles sm !! h = Some p ∧
         (((∃ a, a ∈ done ∧ IPtr.info p = Some a) ∧ p' = IPtr.MarkInvalid p) ∨
          ((∀ a, a ∈ done → IPtr.info p ≠ Some a) ∧ p' = p));
  sw_alive : ∀ h p, handles sm !! h = Some p →
    (∀ a i, a ∈ done → objects sm !! a = Some i →
            ¬ (a ≤ h < a + ObjectInfo.size i)) →
    is_Some (handles u !! h);
  sw_dead : ∀ h a i, a ∈ done → objects sm !! a = Some i →
    a ≤ h < a + ObjectInfo.size i → handles u !! h = None
}.

(** Counting the releases and the finalizer calls of a record in a
    stretch of the trace. *)
Definition releases (a : Z) (e : event) : bool :=
  match e with Release b => bool_decide (a = b) | Finalize _ _ => false end.

Definition finalizes (a : Z) (e : event) : bool :=
  match e with Finalize _ b => bool_decide (a = b) | Release _ => false end.

Fixpoint tally (f : event → bool) (l : list event) : nat :=
  match l with
  | [] => 0
  | e :: l' => (if f e then 1 else 0) + tally f l'
  end.

(** ** Programs over the interface

    The calls a client can make.  The constructors take the address
    [this] of the handle under construction; [Call_Ptr_raw] also takes
    what the storage of the [info] member held before construction. *)
Inductive call : Type :=
  | Call_new (res size : Z) (source : string) (line : Z)
  | Call_delete (data : Z)
  | Call_Ptr (root : bool) (T : nat) (this : Z)
  | Call_Ptr_raw (root : bool) (T : nat) (this object : Z) (stale : option Z)
  | Call_Ptr_copy (root : bool) (this other : Z)
  | Call_Ptr_destroy (this : Z)
  | Call_assign (this other : Z)
  | Call_assign_raw (this other : Z)
  | Call_collect.

Definition run (c : call) (s : Heap) : outcome Heap :=
  match c with
  | Call_new res size source line => Done (operator_new res size source line s)
  | Call_delete data => operator_delete data s
  | Call_Ptr root T this => Done (Ptr_default root T this s)
  | Call_Ptr_raw root T this object stale => Done (Ptr_raw root T this object stale s)
  | Call_Ptr_copy root this other => Ptr_copy root this other s
  | Call_Ptr_destroy this => Ptr_destroy this s
  | Call_assign this other => Ptr_assign this other s
  | Call_assign_raw this other => Ptr_assign_raw this other s
  | Call_collect => CollectGarbage s
  end.

(** The handle a call constructs. *)
Definition constructs (c : call) : option Z :=
  match c with
  | Call_Ptr _ _ this | Call_Ptr_raw _ _ this _ _ | Call_Ptr_copy _ this _ => Some this
  | _ => None
  end.

(** What the language and the allocator guarantee of a call: a handle is
    constructed in storage that holds no live handle, and [malloc] returns
    a fresh block. *)
Definition possible (c : call) (s : Heap) : Prop :=
  match c with
  | Call_new res size _ _ => fresh_block res size s
  | _ => from_option (λ this, handles s !! this = None) True (constructs c)
  end.

(** A call that stays clear of the [info] member left unwritten by
    [Ptr(T* object)]: the address is in the table or the storage held null. *)
Definition initialised (c : call) (s : Heap) : Prop :=
  match c with
  | Call_Ptr_raw _ _ _ object stale => objects s !! object = None → stale = None
  | _ => True
  end.

Global Instance possible_dec c s : Decision (possible c s).
Proof. destruct c; simpl; unfold fresh_block; apply _. Defined.

Global Instance initialised_dec c s : Decision (initialised c s).
Proof. destruct c; simpl; apply _. Defined.

Inductive step (s : Heap) : Heap → Prop :=
  | step_call c s' : possible c s → run c s = Done s' → step s s'.

(** A program: a sequence of calls, each checked against [possible] and
    [initialised] before it runs. *)
Fixpoint exec (cs : list call) (s : Heap) : outcome Heap :=
  match cs with
  | [] => Done s
  | c :: cs' =>
      if decide (possible c s ∧ initialised c s)
      then s' ← run c s; exec cs' s'
      else Undefined
  end.

Definition result (o : outcome Heap) : Heap :=
  match o with Done s => s | _ => initial end.

(** ** The properties *)

(** Every live handle is in the registry, once, and nothing else is. *)
Definition registered_once (s : Heap) : Prop :=
  NoDup (pointers s) ∧ ∀ h, h ∈ pointers s ↔ is_Some (handles s !! h).

(** The outcome the reachability property asks of one collection from
    [s]: it completes; a registered record that is reachable is still in
    the table; one that is not is out of the table, and the collection
    released its storage once and called its finalizer once. *)
Definition collects_exactly_the_unreachable (s : Heap) : Prop :=
  ∃ s' new,
    CollectGarbage s = Done s' ∧ trace s' = trace s ++ new ∧
    ∀ a, is_Some (objects s !! a) →
      (reachable s a → is_Some (objects s' !! a)) ∧
      (¬ reachable s a →
         objects s' !! a = None ∧
         tally (releases a) new = 1%nat ∧ tally (finalizes a) new = 1%nat).

(** One collection frees every cycle that no root reaches: it completes,
    and each member of such a cycle is out of the table, released once and
    finalized once. *)
Definition cycles_reclaimed (s : Heap) : Prop :=
  ∀ l, cycle s l → (∀ a, a ∈ l → ¬ reachable s a) →
       ∃ s' new, CollectGarbage s = Done s' ∧ trace s' = trace s ++ new ∧
                 ∀ a, a ∈ l →
                      objects s' !! a = None ∧
                      tally (releases a) new = 1%nat ∧
                      tally (finalizes a) new = 1%nat.

(** The second of two collections in a row, when the first completes:
    it completes, the table has the same records, nothing is released or
    finalized. *)
Definition second_collection_idle (s : Heap) : Prop :=
  ∀ s1, CollectGarbage s = Done s1 →
        ∃ s2, CollectGarbage s1 = Done s2 ∧
              dom (objects s2) = dom (objects s1) ∧ trace s2 = trace s1.


(** ** The scenario of [main] and its variations *)

Definition tA : nat := 0%nat.
Definition tB : nat := 1%nat.
Definition tC : nat := 2%nat.
Definition tD : nat := 3%nat.

(** Addresses: the root handle [pa] on the stack at 8; the objects on the
    heap, a handle being 24 bytes (vtable pointer, [object], [info]). *)
Definition pa : Z := 8.
Definition objA : Z := 1000.
Definition objB : Z := 2000.
Definition objC : Z := 3000.
Definition objD : Z := 4000.

(** [main] up to the call of [CollectGarbage].  [mnew T] is
    [operator new] followed by the constructor of [T], which constructs
    the handle members. *)
Definition main_calls : list call :=
  [ (* RootPtr<A> pa = mnew A; *)
    Call_new objA 48 "main.cpp" 400;
    Call_Ptr false tB objA;
    Call_Ptr false tC (objA + 24);
    Call_Ptr_raw true tA pa objA None;
    (* pa->pb = mnew B; *)
    Call_new objB 24 "main.cpp" 402;
    Call_Ptr false tC objB;
    Call_assign_raw objA objB;
    (* pa->pc = mnew C; *)
    Call_new objC 24 "main.cpp" 403;
    Call_Ptr false tD objC;
    Call_assign_raw (objA + 24) objC;
    (* pa->pc->pd = mnew D; *)
    Call_new objD 24 "main.cpp" 405;
    Call_Ptr false tC objD;
    Call_assign_raw objC objD;
    (* pa->pc->pd->pc = pa->pc; *)
    Call_assign objD (objA + 24);
    (* pa->pc = nullptr; *)
    Call_assign_raw (objA + 24) 0 ].

Definition main_before_collect : outcome Heap := exec main_calls initial.

(** The state in which [main] calls [CollectGarbage], and the state its
    mark phase ends in. *)
Definition main_heap : Heap := Eval vm_compute in result main_before_collect.

Definition main_heap_marked : Heap :=
  Eval vm_compute in
    result (mark_roots (mark_fuel (flipped main_heap)) (flipped main_heap)).

(** The scenario: [main_calls] leave [A] held by the root [pa], [A]
    referring to [B], [C] and [D] referring to each other, and the member
    [pc] of [A] cleared; the collection removes [C] and [D], finalizing
    and releasing each, and leaves [A] and [B]. *)
Definition scenario_outcome : Prop :=
  exec main_calls initial = Done main_heap ∧
  dom (objects main_heap) = {[objA; objB; objC; objD]} ∧
  root_of main_heap objA ∧ edge main_heap objA objB ∧
  cycle main_heap [objC; objD] ∧
  handles main_heap !! (objA + 24) = Some (IPtr.mk 0 None false tC) ∧
  ∃ s', CollectGarbage main_heap = Done s' ∧
        dom (objects s') = {[objA; objB]} ∧
        trace s' = [Finalize tC objC; Release objC; Finalize tD objD; Release objD].

(** The handle [D::pc] of the scenario is bound to [C]; [C] is deleted
    by hand. *)
Definition main_heap_C_deleted : Heap :=
  Eval vm_compute in result (operator_delete objC main_heap).

(** The scenario before [pa->pc] is cleared: [A] refers to [C], and [C]
    and [D] to each other, a cycle among reachable records. *)
Definition cyclic_heap : Heap :=
  Eval vm_compute in result (exec (take 14 main_calls) initial).

(** The scenario with one more allocation before the collection,
    [mnew E;] at 500, its result never given to a handle. *)
Definition cluttered_calls : list call :=
  main_calls ++ [Call_new 500 16 "main.cpp" 409].

Definition cluttered_heap : Heap :=
  Eval vm_compute in result (exec cluttered_calls initial).

Definition cluttered_heap_marked : Heap :=
  Eval vm_compute in
    result (mark_roots (mark_fuel (flipped cluttered_heap)) (flipped cluttered_heap)).

(** A record allocated and never given to a typed handle: the table
    holds it, no root reaches it, its [destroy] is null. *)
Definition orphan_heap : Heap := operator_new 1000 16 "main.cpp" 1 initial.

(** [Ptr<A> p = mnew A;] with [p] on the stack: a record with a bound
    handle and a finalizer, and no root. *)
Definition lone_handle_heap : Heap :=
  Eval vm_compute in
    result (exec [Call_Ptr_raw false tA 8 1000 None]
              (operator_new 1000 16 "main.cpp" 1 initial)).

(** A root handle stored in garbage: [struct X { RootPtr<Y> r; }],
    [Ptr<X> px = mnew X; px->r = mnew Y;] with [px] on the stack.  The
    first collection sweeps [X], whose finalizer destroys [r]; [Y], held
    by [r] alone, goes in the second. *)
Definition tX : nat := 4%nat.
Definition tY : nat := 5%nat.

Definition embedded_root_calls : list call :=
  [ Call_new 1000 24 "main.cpp" 1;
    Call_Ptr true tY 1000;
    Call_Ptr_raw false tX 8 1000 None;
    Call_new 2000 8 "main.cpp" 2;
    Call_assign_raw 1000 2000 ].

Definition embedded_root_heap : Heap :=
  Eval vm_compute in result (exec embedded_root_calls initial).

Definition embedded_root_heap_1 : Heap :=
  Eval vm_compute in result (CollectGarbage embedded_root_heap).

Definition embedded_root_heap_2 : Heap :=
  Eval vm_compute in result (CollectGarbage embedded_root_heap_1).

(** ** Further invariants of the operations *)

(** The bytes of the records in the table, and the byte counter agreeing
    with them in [size_t] arithmetic. *)
Definition total_size (m : gmap Z ObjectInfo.t) : Z :=
  map_fold (λ _ i acc, ObjectInfo.size i + acc) 0 m.

Definition accounted (s : Heap) : Prop :=
  allocatedBytes s = size_t_wrap (total_size (objects s)).

(** The target of a bound handle is the address of its record. *)
Definition targets_agree (s : Heap) : Prop :=
  ∀ h p a, handles s !! h = Some p → IPtr.info p = Some a → IPtr.object p = a.

(** No registered handle is stored in the bytes [left, right). *)
Definition handle_free (left right : Z) (s : Heap) : Prop :=
  map_Forall (λ h _, ¬ (left ≤ h < right)) (handles s).

(** The arguments of a call are in order: the handles it reads or writes
    through are registered, and [operator delete] gets the address of a
    record in whose block no registered handle is stored, the handle
    members of the object having been destroyed before, as by the
    destructor that a delete expression runs first. *)
Definition live_args (c : call) (s : Heap) : Prop :=
  match c with
  | Call_delete data =>
      match objects s !! data with
      | Some i => handle_free data (data + ObjectInfo.size i) s
      | None => False
      end
  | Call_Ptr_copy _ _ other => is_Some (handles s !! other)
  | Call_Ptr_destroy this => is_Some (handles s !! this)
  | Call_assign this other =>
      is_Some (handles s !! this) ∧ is_Some (handles s !! other)
  | Call_assign_raw this _ => is_Some (handles s !! this)
  | _ => True
  end.

Global Instance live_args_dec c s : Decision (live_args c s).
Proof.
  destruct c; simpl; try apply _.
  destruct (objects s !! data); unfold handle_free; apply _.
Defined.

(** A program keeps to the guards of the interface as far as it runs:
    before each call, [possible], [initialised] and [live_args] hold. *)
Fixpoint respects (cs : list call) (s : Heap) : bool :=
  match cs with
  | [] => true
  | c :: cs' =>
      bool_decide (possible c s ∧ initialised c s ∧ live_args c s) &&
      match run c s with
      | Done s' => respects cs' s'
      | _ => true
      end
  end.

(** The record a handle is bound to has a finalizer. *)
Definition handles_finalized (s : Heap) : Prop :=
  ∀ h p a i, handles s !! h = Some p → IPtr.info p = Some a →
             objects s !! a = Some i → is_Some (ObjectInfo.destroy i).

(** Traces in which every call of a finalizer is directly followed by
    the release of the same address. *)
Inductive finalize_then_release : list event → Prop :=
  | ftr_nil : finalize_then_release []
  | ftr_release a l :
      finalize_then_release l → finalize_then_release (Release a :: l)
  | ftr_finalize T a l :
      finalize_then_release l →
      finalize_then_release (Finalize T a :: Release a :: l).

(** The calls on handles, as opposed to allocation, deallocation and
    collection. *)
Definition handle_call (c : call) : bool :=
  match c with
  | Call_Ptr _ _ _ | Call_Ptr_raw _ _ _ _ _ | Call_Ptr_copy _ _ _
  | Call_Ptr_destroy _ | Call_assign _ _ | Call_assign_raw _ _ => true
  | _ => false
  end.

(** What a record keeps under the calls on handles: address, size, mark,
    source tag, and its finalizer once it has one. *)
Definition extends (i i' : ObjectInfo.t) : Prop :=
  ObjectInfo.object i' = ObjectInfo.object i ∧
  ObjectInfo.size i' = ObjectInfo.size i ∧
  ObjectInfo.mark i' = ObjectInfo.mark i ∧
  ObjectInfo.source i' = ObjectInfo.source i ∧
  ObjectInfo.line i' = ObjectInfo.line i ∧
  ∀ T, ObjectInfo.destroy i = Some T → ObjectInfo.destroy i' = Some T.

Definition grows (m m' : gmap Z ObjectInfo.t) : Prop :=
  ∀ b, match m !! b, m' !! b with
       | Some i, Some i' => extends i i'
       | None, None => True
       | _, _ => False
       end.

(** What deallocation and collection may do to the handles: destroy
    them or invalidate them. *)
Definition fades (hs hs' : gmap Z IPtr.t) : Prop :=
  ∀ h p', hs' !! h = Some p' →
          ∃ p, hs !! h = Some p ∧ (p' = p ∨ p' = IPtr.MarkInvalid p).

(** What the loops of invalidation and destruction leave untouched. *)
Definition same_records (s s' : Heap) : Prop :=
  allocatedBytes s' = allocatedBytes s ∧ currentMark s' = currentMark s ∧
  trace s' = trace s.

(** A handle of type [D] is constructed on [A], whose finalizer is that
    of type [A]. *)
Definition main_heap_second_type : Heap :=
  Eval vm_compute in result (run (Call_Ptr_raw false tD 16 objA None) main_heap).

(** * Facts about the model *)

(** ** Vectors and loops *)

Section lists.
Implicit Types (x y : Z) (l : list Z).

Lemma erase_first_sublist x l : erase_first x l `sublist_of` l.
Proof.
  induction l as [|y l IH]; simpl; [done|].
  case_decide; [by apply sublist_cons | by apply sublist_skip].
Qed.

Lemma erase_first_elem x y l : y ∈ erase_first x l → y ∈ l.
Proof. intros H. eapply elem_of_sublist; [done|apply erase_first_sublist]. Qed.

Lemma erase_first_other x y l : y ≠ x → y ∈ l → y ∈ erase_first x l.
Proof.
  intros Hne. induction l as [|z l IH]; simpl; [done|].
  rewrite elem_of_cons. intros [->|Hin].
  - rewrite decide_False by done. left.
  - case_decide; [done|]. right. auto.
Qed.

Lemma erase_first_NoDup x l : NoDup l → NoDup (erase_first x l).
Proof. intros. by apply (sublist_NoDup _ l), erase_first_sublist. Qed.

Lemma erase_first_gone x l : NoDup l → x ∉ erase_first x l.
Proof.
  induction 1 as [|y l Hy Hl IH]; simpl; [apply not_elem_of_nil|].
  case_decide; subst; [done|].
  rewrite not_elem_of_cons. auto.
Qed.

Lemma elem_of_erase_first x y l :
  NoDup l → y ∈ erase_first x l ↔ y ∈ l ∧ y ≠ x.
Proof.
  intros Hl. split.
  - intros Hy. split; [by eapply erase_first_elem|].
    intros ->. by eapply erase_first_gone.
  - intros [? ?]. by apply erase_first_other.
Qed.

Lemma erase_first_length x l :
  x ∈ l → S (length (erase_first x l)) = length l.
Proof.
  induction l as [|y l IH]; simpl.
  - intros H. by apply elem_of_nil in H.
  - rewrite elem_of_cons. case_decide; [done|].
    intros [->|?]; [done|]. simpl. f_equal. auto.
Qed.
End lists.

Section keys.
Context {V : Type}.
Implicit Types (m : gmap Z V).

Lemma keys_perm m : keys m ≡ₚ (map_to_list m).*1.
Proof. apply merge_sort_Permutation. Qed.

Lemma elem_of_keys m a : a ∈ keys m ↔ is_Some (m !! a).
Proof.
  rewrite keys_perm, list_elem_of_fmap. split.
  - intros [[k v] [-> Hin]]. apply elem_of_map_to_list in Hin. eauto.
  - intros [v Hv]. exists (a, v). split; [done|]. by apply elem_of_map_to_list.
Qed.

Lemma keys_NoDup m : NoDup (keys m).
Proof. rewrite keys_perm. apply NoDup_fst_map_to_list. Qed.

Lemma keys_length m : length (keys m) = size m.
Proof. rewrite keys_perm, length_fmap. apply length_map_to_list. Qed.

Lemma keys_sorted m : Sorted Z.le (keys m).
Proof. apply (Sorted_merge_sort Z.le). Qed.
End keys.

Section loops.
Context {A S : Type}.
Implicit Types (body : A → S → outcome S) (l : list A).

Lemma bind_Done {B C} (m : outcome B) (f : B → outcome C) c :
  (m ≫= f) = Done c ↔ ∃ b, m = Done b ∧ f b = Done c.
Proof.
  destruct m; simpl; split; try (intros [? [? ?]]; congruence); try done.
  eauto.
Qed.

(** An invariant indexed by the part of the vector already visited. *)
Lemma for_each_ind_at (I : list A → S → Prop) body l s s' :
  I [] s →
  (∀ pre x suf t t', l = pre ++ x :: suf → I pre t →
                     body x t = Done t' → I (pre ++ [x]) t') →
  for_each body l s = Done s' → I l s'.
Proof.
  intros H0 Hstep.
  assert (∀ suf pre t, pre ++ suf = l → I pre t →
                       for_each body suf t = Done s' → I l s') as Hgen.
  { induction suf as [|x suf IH]; intros pre t Hl HI.
    - simpl. intros [= <-]. rewrite app_nil_r in Hl. by subst.
    - simpl. intros Hrun. apply bind_Done in Hrun as (t' & Hx & Hrest).
      apply (IH (pre ++ [x]) t'); [by rewrite <- app_assoc| |done].
      by eapply Hstep. }
  intros Hrun. by apply (Hgen l [] s).
Qed.

Lemma for_each_ind (I : list A → S → Prop) body l s s' :
  I [] s →
  (∀ pre x t t', I pre t → x ∈ l → body x t = Done t' → I (pre ++ [x]) t') →
  for_each body l s = Done s' → I l s'.
Proof.
  intros H0 Hstep. apply for_each_ind_at; [done|].
  intros pre x suf t t' -> ? ?. eapply Hstep; [done| |done].
  apply elem_of_app. right. apply elem_of_cons. by left.
Qed.

(** The same with progress: when every body run from a state of the
    invariant is [Done], so is the loop. *)
Lemma for_each_total_at (I : list A → S → Prop) body l s :
  I [] s →
  (∀ pre x suf t, l = pre ++ x :: suf → I pre t →
                  ∃ t', body x t = Done t' ∧ I (pre ++ [x]) t') →
  ∃ s', for_each body l s = Done s' ∧ I l s'.
Proof.
  intros H0 Hstep.
  assert (∀ suf pre t, pre ++ suf = l → I pre t →
                       ∃ s', for_each body suf t = Done s' ∧ I l s') as Hgen.
  { induction suf as [|x suf IH]; intros pre t Hl HI.
    - simpl. rewrite app_nil_r in Hl. subst. eauto.
    - simpl. destruct (Hstep pre x suf t) as (t' & Hx & HI'); [done..|].
      rewrite Hx. simpl. apply (IH (pre ++ [x])); [by rewrite <- app_assoc|done]. }
  by apply (Hgen l [] s).
Qed.

Lemma for_each_total (I : list A → S → Prop) body l s :
  I [] s →
  (∀ pre x t, I pre t → x ∈ l →
              ∃ t', body x t = Done t' ∧ I (pre ++ [x]) t') →
  ∃ s', for_each body l s = Done s' ∧ I l s'.
Proof.
  intros H0 Hstep. apply for_each_total_at; [done|].
  intros pre x suf t -> ?. apply Hstep; [done|].
  apply elem_of_app. right. apply elem_of_cons. by left.
Qed.

(** A loop whose bodies never give [o] (other than [Done]) does not
    give it either. *)
Lemma for_each_never (o : outcome S) (I : S → Prop) body l s :
  (∀ t, o ≠ Done t) →
  I s →
  (∀ x t, I t → x ∈ l → body x t ≠ o ∧ ∀ t', body x t = Done t' → I t') →
  for_each body l s ≠ o.
Proof.
  intros Ho. revert s. induction l as [|x l IH]; intros s HI Hstep; simpl.
  - intros <-. by eapply Ho.
  - assert (x ∈ x :: l) as Hx0 by (apply elem_of_cons; auto).
    pose proof (Hstep x s HI Hx0) as [Hne Hnext].
    destruct (body x s) as [t| | |] eqn:Hx; simpl; try done.
    apply IH; [auto|]. intros y t' ? ?. apply Hstep; [done|].
    apply elem_of_cons; auto.
Qed.
End loops.

(** ** The mark phase *)

Lemma remark_refl s : remark s s.
Proof. repeat split. by left. Qed.

Lemma remark_trans s1 s2 s3 : remark s1 s2 → remark s2 s3 → remark s1 s3.
Proof.
  intros (Hp & Ha & Hc & Hh & Ht & Ho) (Hp' & Ha' & Hc' & Hh' & Ht' & Ho').
  repeat split; try congruence. intros a.
  destruct (Ho' a) as [E'|(i' & E1 & E2)], (Ho a) as [E|(i & E3 & E4)].
  - left. congruence.
  - right. exists i. split; [done|]. congruence.
  - right. exists i'. split; congruence.
  - right. exists i. split; [done|]. rewrite E2. rewrite E4 in E1.
    injection E1 as <-. rewrite Hc. by destruct i.
Qed.

Lemma remark_lookup s s' a i' :
  remark s s' → objects s' !! a = Some i' →
  ∃ i, objects s !! a = Some i ∧
       (i' = i ∨ i' = ObjectInfo.set_mark (currentMark s) i).
Proof.
  intros (_ & _ & _ & _ & _ & Ho) Hl.
  destruct (Ho a) as [E|(i & E1 & E2)].
  - exists i'. split; [congruence|by left].
  - exists i. split; [done|]. right. congruence.
Qed.

Lemma remark_lookup_fwd s s' a i :
  remark s s' → objects s !! a = Some i →
  ∃ i', objects s' !! a = Some i' ∧
        (i' = i ∨ i' = ObjectInfo.set_mark (currentMark s) i).
Proof.
  intros (_ & _ & _ & _ & _ & Ho) Hl.
  destruct (Ho a) as [E|(j & E1 & E2)].
  - exists i. split; [congruence|by left].
  - exists (ObjectInfo.set_mark (currentMark s) i). split; [congruence|by right].
Qed.

Lemma remark_None s s' a :
  remark s s' → objects s' !! a = None ↔ objects s !! a = None.
Proof.
  intros (_ & _ & _ & _ & _ & Ho).
  destruct (Ho a) as [E|(i & E1 & E2)]; [by rewrite E|].
  rewrite E1, E2. done.
Qed.

Lemma remark_marked s s' a : remark s s' → marked s a → marked s' a.
Proof.
  intros Hr (i & Hi & Hm). pose proof Hr as (_ & _ & Hc & _).
  destruct (remark_lookup_fwd _ _ _ _ Hr Hi) as (i' & Hi' & [E|E]);
    exists i'; subst; (split; [done|]); rewrite Hc; done.
Qed.

Lemma remark_unmarked s s' a :
  remark s s' → unmarked s' a = true → unmarked s a = true.
Proof.
  intros Hr. pose proof Hr as (_ & _ & Hc & _). unfold unmarked.
  destruct (objects s' !! a) as [i'|] eqn:Hi'; [|done].
  destruct (remark_lookup _ _ _ _ Hr Hi') as (i & -> & [->| ->]); rewrite Hc; [done|].
  simpl. by rewrite eqb_reflx.
Qed.

Lemma unmarked_marked s a :
  is_Some (objects s !! a) → unmarked s a = false ↔ marked s a.
Proof.
  intros [i Hi]. unfold unmarked, marked. rewrite Hi. split.
  - intros H. exists i. split; [done|].
    apply eqb_prop. by destruct (eqb _ _).
  - intros (? & [= <-] & ->). by rewrite eqb_reflx.
Qed.

Lemma marked_not_unmarked s a : marked s a → unmarked s a = false.
Proof. intros H. apply unmarked_marked; [|done]. destruct H as (? & ? & _). eauto. Qed.

Lemma remark_set_mark s a i :
  objects s !! a = Some i →
  remark s (set_objects
              (<[a := ObjectInfo.set_mark (currentMark s) i]> (objects s)) s).
Proof.
  intros Hi. repeat split. intros b. simpl.
  destruct (decide (a = b)) as [<-|Hne].
  - right. exists i. by rewrite lookup_insert_eq.
  - left. by rewrite lookup_insert_ne.
Qed.

(** Marking, whatever the state: only marks change and the record
    asked for ends up marked. *)
Lemma MarkObject_remark n : ∀ a s s',
  MarkObject n a s = Done s' → remark s s' ∧ marked s' a.
Proof.
  induction n as [|n IH]; intros a s s'; simpl; [done|].
  destruct (objects s !! a) as [i|] eqn:Hi; [|done].
  set (s1 := set_objects _ s). intros Hrun.
  assert (remark s s1) as H1 by by apply remark_set_mark.
  assert (marked s1 a) as Ha.
  { exists (ObjectInfo.set_mark (currentMark s) i). simpl.
    by rewrite lookup_insert_eq. }
  assert (remark s1 s') as H2.
  { revert Hrun. apply (for_each_ind (λ _ t, remark s1 t)); [apply remark_refl|].
    intros pre h t t' Ht _. unfold scan.
    repeat case_match; try done; try (by intros [= <-]).
    intros Hrec. apply IH in Hrec as [? _]. by eapply remark_trans. }
  split; [by eapply remark_trans|by eapply remark_marked].
Qed.

Lemma in_range_spec left right cptr :
  in_range left right cptr = true ↔ left ≤ cptr < right.
Proof. unfold in_range. rewrite andb_true_iff, Z.leb_le, Z.ltb_lt. done. Qed.

Lemma remark_handles s s' : remark s s' → handles s' = handles s.
Proof. by intros (_ & _ & _ & ? & _). Qed.

Lemma remark_pointers s s' : remark s s' → pointers s' = pointers s.
Proof. by intros (? & _). Qed.


Lemma remark_shape s s' a i' :
  remark s s' → objects s' !! a = Some i' →
  ∃ i, objects s !! a = Some i ∧
       ObjectInfo.object i' = ObjectInfo.object i ∧
       ObjectInfo.size i' = ObjectInfo.size i ∧
       ObjectInfo.pointers i' = ObjectInfo.pointers i ∧
       ObjectInfo.destroy i' = ObjectInfo.destroy i.
Proof.
  intros Hr Hi'. destruct (remark_lookup _ _ _ _ Hr Hi') as (i & Hi & [->| ->]);
    exists i; by destruct i.
Qed.

Section marking.
Variable s0 : Heap.
Hypothesis Hs0 : consistent s0.

Lemma MarkObject_Done n : ∀ a t t',
  remark s0 t → MarkObject n a t = Done t' →
  (∀ b, marked t' b → marked t b ∨ rtc (edge s0) a b) ∧
  (∀ G, closed_except s0 G t → closed_except s0 G t').
Proof.
  induction n as [|n IH]; intros a t t' Hrt; simpl; [done|].
  destruct (objects t !! a) as [i|] eqn:Hi; [|done].
  set (s1 := set_objects _ t). intros Hrun.
  assert (remark t s1) as Hts1 by by apply remark_set_mark.
  assert (remark s0 s1) as H01 by by eapply remark_trans.
  destruct (remark_shape _ _ _ _ Hrt Hi) as (i0 & Hi0 & Hobj & Hsz & _).
  rewrite (c_key _ Hs0 _ _ Hi0) in Hobj. rewrite Hobj in Hrun.
  assert (marked s1 a) as Ha1.
  { exists (ObjectInfo.set_mark (currentMark t) i). simpl.
    by rewrite lookup_insert_eq. }
  set (I := λ (pre : list Z) (u : Heap),
       remark s1 u ∧
       (∀ b, marked u b → marked s1 b ∨ rtc (edge s0) a b) ∧
       (∀ G, closed_except s0 G s1 → closed_except s0 G u) ∧
       (∀ h p y, h ∈ pre → handles s0 !! h = Some p →
                 a ≤ h < a + ObjectInfo.size i →
                 IPtr.info p = Some y → marked u y)).
  assert (I [] s1) as H0.
  { split; [apply remark_refl|]. split; [by left|]. split; [done|].
    intros h p y Hin. by apply elem_of_nil in Hin. }
  assert (∀ pre h u u', I pre u → h ∈ pointers t →
            scan (MarkObject n) a (a + ObjectInfo.size i) h u = Done u' →
            I (pre ++ [h]) u') as Hstep.
  { intros pre h u u' (Hru & Hsnd & Hcl & Hsucc) _ Hbody.
    assert (remark s0 u) as H0u by by eapply remark_trans.
    assert (∀ u'', remark u u'' →
              (∀ h' p y, h' ∈ pre → handles s0 !! h' = Some p →
                         a ≤ h' < a + ObjectInfo.size i →
                         IPtr.info p = Some y → marked u'' y)) as Hkeep.
    { intros u'' Hr h' p y ? ? ? ?. eapply remark_marked; [done|]. eauto. }
    assert ((∀ p y, handles s0 !! h = Some p →
                    a ≤ h < a + ObjectInfo.size i →
                    IPtr.info p = Some y → marked u y) →
            I (pre ++ [h]) u) as Hsame.
    { intros Hh. split; [done|]. split; [done|]. split; [done|].
      intros h' p y Hin ? ? ?. apply elem_of_app in Hin as [Hin|Hin]; [eauto|].
      apply list_elem_of_singleton in Hin as ->. eauto. }
    unfold scan in Hbody.
    destruct (in_range a (a + ObjectInfo.size i) h) eqn:Hrange.
    2:{ injection Hbody as <-. apply Hsame.
        intros p y _ Hr _. apply in_range_spec in Hr. congruence. }
    rewrite (remark_handles _ _ H0u) in Hbody.
    destruct (handles s0 !! h) as [p|] eqn:Hp; [|done].
    destruct (IPtr.info p) as [y|] eqn:Hy.
    2:{ injection Hbody as <-. apply Hsame. intros ? ? [= <-] _ ?. congruence. }
    destruct (objects u !! y) as [j|] eqn:Hj; [|done].
    destruct (negb (eqb (ObjectInfo.mark j) (currentMark u))) eqn:Hm.
    2:{ injection Hbody as <-. apply Hsame. intros ? y0 [= <-] _ ?.
        assert (y0 = y) as -> by congruence. exists j. split; [done|].
        apply eqb_prop. by destruct (eqb _ _). }
    destruct (MarkObject_remark _ _ _ _ Hbody) as [Huu' Hy'].
    destruct (IH _ _ _ H0u Hbody) as [Hsnd' Hcl'].
    assert (edge s0 a y) as Hedge.
    { exists h, p. split; [done|]. split; [|done].
      exists i0. split; [done|]. rewrite <- Hsz. by apply in_range_spec. }
    split; [by eapply remark_trans|]. split; [|split].
    - intros b Hb. destruct (Hsnd' b Hb) as [Hb'|Hpath]; [auto|].
      right. by eapply rtc_l.
    - intros G HG. apply Hcl', Hcl, HG.
    - intros h' p' y' Hin ? ? ?. apply elem_of_app in Hin as [Hin|Hin].
      + by eapply Hkeep.
      + apply list_elem_of_singleton in Hin as ->.
        assert (y' = y) as -> by congruence. done. }
  destruct (for_each_ind I _ _ _ _ H0 Hstep Hrun) as (H1' & Hsnd & Hcl & Hsucc).
  clear H0 Hstep. split.
  - intros b Hb. destruct (Hsnd b Hb) as [Hb1|?]; [|by right].
    destruct (decide (b = a)) as [->|Hne]; [by right|]. left.
    destruct Hb1 as (j & Hj & Hm). simpl in Hj, Hm.
    rewrite lookup_insert_ne in Hj by done. by exists j.
  - intros G HG x y Hx HGx Hxy.
    assert (closed_except s0 (λ z, G z ∨ z = a) t') as Hcl'.
    { apply Hcl. intros x' y' Hx' HG' Hxy'.
      eapply remark_marked; [exact Hts1|].
      apply (HG x' y'); [|tauto|done].
      destruct Hx' as (j & Hj & Hm). simpl in Hj, Hm.
      rewrite lookup_insert_ne in Hj by (intros ->; tauto). by exists j. }
    destruct (decide (x = a)) as [->|Hne]; [|apply (Hcl' x y); tauto].
    destruct Hxy as (h & p & Hp & (i0' & Hi0' & Hr) & Hy).
    assert (i0' = i0) as -> by congruence.
    apply (Hsucc h p y); [|done| |done].
    + rewrite (remark_pointers _ _ Hrt). apply (c_registry _ Hs0). eauto.
    + by rewrite Hsz.
Qed.
End marking.

Lemma MarkObject_not_Fatal n : ∀ a s, MarkObject n a s ≠ Fatal.
Proof.
  induction n as [|n IH]; intros a s; simpl; [done|].
  destruct (objects s !! a) as [i|]; [|done].
  apply (for_each_never _ (λ _, True)); [done..|].
  intros h t _ _. split; [|done]. unfold scan. repeat case_match; done.
Qed.

(** What one turn of the loop of [MarkObject] does. *)
Lemma scan_cases self left right h u :
  scan self left right h u = Done u ∨
  scan self left right h u = Undefined ∨
  ∃ p y, in_range left right h = true ∧ handles u !! h = Some p ∧
         IPtr.info p = Some y ∧ unmarked u y = true ∧
         scan self left right h u = self y u.
Proof.
  unfold scan, unmarked.
  destruct (in_range left right h); [|by left].
  destruct (handles u !! h) as [p|]; [|by right; left].
  destruct (IPtr.info p) as [y|] eqn:Hy; [|by left].
  destruct (objects u !! y) as [j|] eqn:Hj; [|by right; left].
  destruct (negb _) eqn:Hm; [|by left].
  right; right. exists p, y. by rewrite Hj, Hm.
Qed.

(** The recursion of [MarkObject] is at most as deep as there are
    unmarked records: [l] lists the records other than [a] that still
    carry the old mark. *)
Lemma MarkObject_fuel n : ∀ a t (l : list Z),
  (length l ≤ n)%nat →
  (∀ b, b ≠ a → unmarked t b = true → b ∈ l) →
  MarkObject (S n) a t ≠ OutOfFuel.
Proof.
  induction n as [|n IH]; intros a t l Hlen Hl;
    (simpl; destruct (objects t !! a) as [i|] eqn:Hi; [|done]);
    set (s1 := set_objects _ t);
    (assert (remark t s1) as Hts1 by by apply remark_set_mark);
    (assert (marked s1 a) as Ha1 by
        (exists (ObjectInfo.set_mark (currentMark t) i); simpl;
         by rewrite lookup_insert_eq));
    (apply (for_each_never _ (λ u, remark s1 u)); [done|apply remark_refl|]);
    intros h u Hu _;
    (assert (∀ y, unmarked u y = true → y ≠ a ∧ y ∈ l) as Hy;
     [intros y Hy;
      assert (y ≠ a) by
        (intros ->; rewrite (marked_not_unmarked u a) in Hy;
         [done|by eapply remark_marked]);
      split; [done|]; apply Hl; [done|];
      eapply remark_unmarked; [|eapply remark_unmarked]; eauto|]);
    match goal with |- scan ?f ?x ?y h u ≠ _ ∧ _ =>
      destruct (scan_cases f x y h u)
        as [E|[E|(p & y0 & _ & _ & _ & Hm & E)]]; rewrite E end;
    try (split; [done|by intros ? [= <-]]);
    destruct (Hy y0 Hm) as [Hne Hin].
  - (* no record is left to enter *)
    destruct l; [by apply elem_of_nil in Hin|simpl in Hlen; lia].
  - split.
    + apply (IH _ _ (erase_first y0 l)).
      * pose proof (erase_first_length _ _ Hin). lia.
      * intros b Hb Hub. destruct (Hy b Hub). by apply erase_first_other.
    + intros u' Hrec. apply (MarkObject_remark (S n)) in Hrec as [? _].
      by eapply remark_trans.
Qed.

Lemma consistent_remark s s' : remark s s' → consistent s → consistent s'.
Proof.
  intros Hr Hs. pose proof Hr as (Hp & _ & _ & Hh & _).
  split.
  - intros a i' Hi'. destruct (remark_shape _ _ _ _ Hr Hi') as (i & Hi & -> & _).
    by eapply c_key.
  - intros h p a. rewrite Hh. intros Hp' Ha.
    destruct (c_bound _ Hs _ _ _ Hp' Ha) as (i & Hi & Hin).
    destruct (remark_lookup_fwd _ _ _ _ Hr Hi) as (i' & Hi' & [->| ->]); eauto.
  - intros a i' h Hi' Hin.
    destruct (remark_shape _ _ _ _ Hr Hi') as (i & Hi & _ & _ & Hpt & _).
    rewrite Hh. rewrite Hpt in Hin. by eapply c_back.
  - intros a i' Hi'.
    destruct (remark_shape _ _ _ _ Hr Hi') as (i & Hi & _ & _ & -> & _).
    by eapply c_back_nodup.
  - intros h. rewrite Hp, Hh. by apply c_registry.
  - rewrite Hp. by apply c_registry_nodup.
  - intros a b i' j' h Hi' Hj'.
    destruct (remark_shape _ _ _ _ Hr Hi') as (i & Hi & _ & -> & _).
    destruct (remark_shape _ _ _ _ Hr Hj') as (j & Hj & _ & -> & _).
    by eapply c_disjoint.
Qed.

Section mark_phase.
Variable s0 : Heap.
Hypothesis Hs0 : consistent s0.

Lemma MarkObject_defined n : ∀ a t,
  remark s0 t → is_Some (objects t !! a) → MarkObject n a t ≠ Undefined.
Proof.
  induction n as [|n IH]; intros a t Hrt [i Hi]; simpl; [done|].
  rewrite Hi. set (s1 := set_objects _ t).
  assert (remark t s1) as Hts1 by by apply remark_set_mark.
  apply (for_each_never _ (λ u, remark s0 u));
    [done|by eapply remark_trans|].
  intros h u Hu Hh. rewrite (remark_pointers _ _ Hrt) in Hh.
  apply (c_registry _ Hs0) in Hh as [p Hp].
  split.
  - unfold scan. rewrite (remark_handles _ _ Hu), Hp.
    destruct (in_range _ _ _); [|done].
    destruct (IPtr.info p) as [y|] eqn:Hy; [|done].
    destruct (c_bound _ Hs0 _ _ _ Hp Hy) as (j & Hj & _).
    destruct (remark_lookup_fwd _ _ _ _ Hu Hj) as (j' & Hj' & _).
    rewrite Hj'. case_match; [|done]. apply IH; eauto.
  - unfold scan. intros u'. repeat case_match; try done;
      try (intros [= <-]; done).
    intros Hrec. apply MarkObject_remark in Hrec as [? _].
    by eapply remark_trans.
Qed.

(** With the budget [CollectGarbage] gives it, marking a registered
    record from any state of the mark phase completes. *)
Lemma MarkObject_total a t :
  remark s0 t → is_Some (objects t !! a) →
  ∃ t', MarkObject (mark_fuel s0) a t = Done t'.
Proof.
  intros Hrt Ha.
  destruct (MarkObject (mark_fuel s0) a t) as [t'| | |] eqn:Hrun; [eauto|..].
  - by apply MarkObject_not_Fatal in Hrun.
  - by apply MarkObject_defined in Hrun.
  - exfalso. revert Hrun. unfold mark_fuel.
    apply (MarkObject_fuel _ _ _ (keys (objects s0))).
    + by rewrite keys_length.
    + intros b _ Hb. apply elem_of_keys. unfold unmarked in Hb.
      destruct (objects t !! b) as [j|] eqn:Hj; [|done].
      destruct (remark_lookup _ _ _ _ Hrt Hj) as (? & ? & _). eauto.
Qed.

Hypothesis Hfresh : ∀ a, ¬ marked s0 a.

(** The mark phase from a state in which no record carries the current
    mark: it completes, changes marks only, and marks exactly the
    records reachable from a root handle. *)
Lemma mark_roots_Done :
  ∃ sm, mark_roots (mark_fuel s0) s0 = Done sm ∧ remark s0 sm ∧
        ∀ a, marked sm a ↔ reachable s0 a.
Proof.
  set (I := λ (pre : list Z) (u : Heap),
       remark s0 u ∧
       (∀ b, marked u b → reachable s0 b) ∧
       closed_except s0 (λ _, False) u ∧
       (∀ h p r, h ∈ pre → handles s0 !! h = Some p →
                 IPtr.IsRoot p = true → IPtr.info p = Some r → marked u r)).
  destruct (for_each_total I (mark_root (mark_fuel s0)) (pointers s0) s0)
    as (sm & Hrun & Hrem & Hsnd & Hcl & Hroots).
  { split; [apply remark_refl|]. split; [intros b Hb; by apply Hfresh in Hb|].
    split; [intros x y Hx; by apply Hfresh in Hx|].
    intros h p r Hin. by apply elem_of_nil in Hin. }
  { intros pre h u (Hu & Hsnd & Hcl & Hroots) Hh.
    apply (c_registry _ Hs0) in Hh as [p Hp].
    assert ((∀ r, IPtr.IsRoot p = true → IPtr.info p = Some r → marked u r) →
            I (pre ++ [h]) u) as Hsame.
    { intros Hr. split; [done|]. split; [done|]. split; [done|].
      intros h' p' r Hin ? ? ?. apply elem_of_app in Hin as [Hin|Hin]; [eauto|].
      apply list_elem_of_singleton in Hin as ->.
      assert (p' = p) as -> by congruence. eauto. }
    unfold mark_root. rewrite (remark_handles _ _ Hu), Hp.
    destruct (IPtr.IsRoot p) eqn:Hroot; [|exists u; split; [done|by apply Hsame]].
    destruct (IPtr.info p) as [r|] eqn:Hr; [|exists u; split; [done|by apply Hsame]].
    destruct (c_bound _ Hs0 _ _ _ Hp Hr) as (j & Hj & _).
    destruct (remark_lookup_fwd _ _ _ _ Hu Hj) as (j' & Hj' & _).
    destruct (MarkObject_total r u Hu) as [u' Hrun]; [eauto|].
    exists u'. split; [done|].
    destruct (MarkObject_remark _ _ _ _ Hrun) as [Huu' Hr'].
    destruct (MarkObject_Done s0 Hs0 _ _ _ _ Hu Hrun) as [Hsnd' Hcl'].
    split; [by eapply remark_trans|]. split; [|split].
    - intros b Hb. destruct (Hsnd' b Hb) as [?|Hpath]; [auto|].
      exists r. split; [|done]. by exists h, p.
    - by apply Hcl'.
    - intros h' p' r' Hin ? ? ?. apply elem_of_app in Hin as [Hin|Hin].
      + eapply remark_marked; [done|]. eauto.
      + apply list_elem_of_singleton in Hin as ->.
        assert (p' = p) as -> by congruence.
        assert (r' = r) as -> by congruence. done. }
  exists sm. split; [done|]. split; [done|]. intros a. split; [apply Hsnd|].
  intros (r & (h & p & Hp & Hroot & Hr) & Hpath).
  assert (marked sm r) as Hmr.
  { apply (Hroots h p r); [|done..]. apply (c_registry _ Hs0). eauto. }
  clear Hp Hr. induction Hpath as [|x y z Hxy _ IH]; [done|].
  apply IH. apply (Hcl x y); [done|tauto|done].
Qed.
End mark_phase.

(** ** Consistency under the elementary updates

    Every operation on handles is a composition of four updates: a handle
    appears unbound, an unbound handle disappears, a bound handle is
    unbound, an unbound handle is bound. *)

Lemma consistent_ext s s' :
  objects s' = objects s → pointers s' = pointers s → handles s' = handles s →
  consistent s → consistent s'.
Proof.
  intros Ho Hp Hh [H1 H2 H3 H4 H5 H6 H7].
  split; rewrite ?Ho, ?Hp, ?Hh; done.
Qed.

Lemma consistent_add_handle s this p :
  consistent s → handles s !! this = None → IPtr.info p = None →
  consistent (register this (set_handles (<[this := p]> (handles s)) s)).
Proof.
  intros Hs Hthis Hp. split; simpl.
  - apply (c_key _ Hs).
  - intros h q a Hq Ha. destruct (decide (this = h)) as [<-|Hne].
    + rewrite lookup_insert_eq in Hq. congruence.
    + rewrite lookup_insert_ne in Hq by done. by eapply c_bound.
  - intros a i h Hi Hin. destruct (c_back _ Hs _ _ _ Hi Hin) as (q & Hq & Ha).
    exists q. split; [|done]. rewrite lookup_insert_ne; [done|congruence].
  - apply (c_back_nodup _ Hs).
  - intros h. rewrite elem_of_app, list_elem_of_singleton, (c_registry _ Hs).
    destruct (decide (this = h)) as [<-|Hne].
    + rewrite lookup_insert_eq. split; eauto.
    + rewrite lookup_insert_ne by done. split; [intros [?|?]; [done|congruence]|auto].
  - apply NoDup_app. split; [apply (c_registry_nodup _ Hs)|]. split.
    + intros h Hh. rewrite list_elem_of_singleton. intros ->.
      apply (c_registry _ Hs) in Hh as [? ?]. congruence.
    + apply NoDup_singleton.
  - apply (c_disjoint _ Hs).
Qed.

Lemma consistent_remove_handle s this p :
  consistent s → handles s !! this = Some p → IPtr.info p = None →
  consistent (set_handles (delete this (handles s))
                (set_pointers (erase_first this (pointers s)) s)).
Proof.
  intros Hs Hthis Hp. split; simpl.
  - apply (c_key _ Hs).
  - intros h q a Hq Ha. apply lookup_delete_Some in Hq as [Hne Hq].
    by eapply c_bound.
  - intros a i h Hi Hin. destruct (c_back _ Hs _ _ _ Hi Hin) as (q & Hq & Ha).
    exists q. split; [|done]. rewrite lookup_delete_ne; [done|]. congruence.
  - apply (c_back_nodup _ Hs).
  - intros h. rewrite elem_of_erase_first by apply (c_registry_nodup _ Hs).
    rewrite (c_registry _ Hs). destruct (decide (this = h)) as [<-|Hne].
    + rewrite lookup_delete_eq. split; [tauto|]. by intros [? ?].
    + rewrite lookup_delete_ne by done. split; [tauto|]. split; [done|congruence].
  - apply erase_first_NoDup, (c_registry_nodup _ Hs).
  - apply (c_disjoint _ Hs).
Qed.

Lemma consistent_unbind s this p a i p' :
  consistent s → handles s !! this = Some p → IPtr.info p = Some a →
  objects s !! a = Some i → IPtr.info p' = None →
  consistent
    (set_handles (<[this := p']> (handles s))
       (set_objects
          (<[a := ObjectInfo.set_pointers
                    (erase_first this (ObjectInfo.pointers i)) i]> (objects s)) s)).
Proof.
  intros Hs Hthis Hp Hi Hp'. pose proof (c_back_nodup _ Hs _ _ Hi) as Hnd.
  split; simpl.
  - intros b j Hj. destruct (decide (a = b)) as [<-|Hne].
    + rewrite lookup_insert_eq in Hj. injection Hj as <-. simpl. by eapply c_key.
    + rewrite lookup_insert_ne in Hj by done. by eapply c_key.
  - intros h q b Hq Hb. destruct (decide (this = h)) as [<-|Hne].
    { rewrite lookup_insert_eq in Hq. congruence. }
    rewrite lookup_insert_ne in Hq by done.
    destruct (c_bound _ Hs _ _ _ Hq Hb) as (j & Hj & Hin).
    destruct (decide (a = b)) as [<-|Hab].
    + rewrite lookup_insert_eq. eexists. split; [done|]. simpl.
      assert (j = i) as -> by congruence. apply erase_first_other; [congruence|done].
    + rewrite lookup_insert_ne by done. eauto.
  - intros b j h Hj Hin. destruct (decide (a = b)) as [<-|Hab].
    + rewrite lookup_insert_eq in Hj. injection Hj as <-. simpl in Hin.
      apply elem_of_erase_first in Hin as [Hin Hne]; [|done].
      destruct (c_back _ Hs _ _ _ Hi Hin) as (q & Hq & Hb).
      exists q. by rewrite lookup_insert_ne.
    + rewrite lookup_insert_ne in Hj by done.
      destruct (c_back _ Hs _ _ _ Hj Hin) as (q & Hq & Hb).
      exists q. split; [|done]. rewrite lookup_insert_ne; [done|].
      intros <-. congruence.
  - intros b j Hj. destruct (decide (a = b)) as [<-|Hab].
    + rewrite lookup_insert_eq in Hj. injection Hj as <-. simpl.
      by apply erase_first_NoDup.
    + rewrite lookup_insert_ne in Hj by done. by eapply c_back_nodup.
  - intros h. rewrite (c_registry _ Hs). destruct (decide (this = h)) as [<-|Hne].
    + rewrite lookup_insert_eq. split; eauto.
    + by rewrite lookup_insert_ne.
  - apply (c_registry_nodup _ Hs).
  - intros b c j k h Hj Hk.
    assert (∀ x y, <[a:=ObjectInfo.set_pointers
                         (erase_first this (ObjectInfo.pointers i)) i]> (objects s)
                     !! x = Some y →
                   ∃ y', objects s !! x = Some y' ∧
                         ObjectInfo.size y = ObjectInfo.size y') as Hsz.
    { intros x y. destruct (decide (a = x)) as [<-|?].
      - rewrite lookup_insert_eq. intros [= <-]. eauto.
      - rewrite lookup_insert_ne by done. eauto. }
    apply Hsz in Hj as (j' & Hj' & ->). apply Hsz in Hk as (k' & Hk' & ->).
    by eapply c_disjoint.
Qed.

Lemma consistent_bind s this p a i i' p' :
  consistent s → handles s !! this = Some p → IPtr.info p = None →
  objects s !! a = Some i → IPtr.info p' = Some a →
  ObjectInfo.object i' = ObjectInfo.object i →
  ObjectInfo.size i' = ObjectInfo.size i →
  ObjectInfo.pointers i' = ObjectInfo.pointers i ++ [this] →
  consistent
    (set_handles (<[this := p']> (handles s))
       (set_objects (<[a := i']> (objects s)) s)).
Proof.
  intros Hs Hthis Hp Hi Hp' Hobj Hsz Hptr.
  assert (this ∉ ObjectInfo.pointers i) as Hfresh.
  { intros Hin. destruct (c_back _ Hs _ _ _ Hi Hin) as (q & Hq & Ha). congruence. }
  split; simpl.
  - intros b j Hj. destruct (decide (a = b)) as [<-|Hne].
    + rewrite lookup_insert_eq in Hj. injection Hj as <-. rewrite Hobj.
      by eapply c_key.
    + rewrite lookup_insert_ne in Hj by done. by eapply c_key.
  - intros h q b Hq Hb. destruct (decide (this = h)) as [<-|Hne].
    { rewrite lookup_insert_eq in Hq. injection Hq as <-.
      assert (b = a) as -> by congruence. rewrite lookup_insert_eq.
      eexists. split; [done|]. rewrite Hptr. apply elem_of_app. right.
      by apply list_elem_of_singleton. }
    rewrite lookup_insert_ne in Hq by done.
    destruct (c_bound _ Hs _ _ _ Hq Hb) as (j & Hj & Hin).
    destruct (decide (a = b)) as [<-|Hab].
    + rewrite lookup_insert_eq. eexists. split; [done|]. rewrite Hptr.
      assert (j = i) as -> by congruence. apply elem_of_app. by left.
    + rewrite lookup_insert_ne by done. eauto.
  - intros b j h Hj Hin. destruct (decide (a = b)) as [<-|Hab].
    + rewrite lookup_insert_eq in Hj. injection Hj as <-. rewrite Hptr in Hin.
      apply elem_of_app in Hin as [Hin|Hin].
      * destruct (c_back _ Hs _ _ _ Hi Hin) as (q & Hq & Hb).
        exists q. split; [|done]. rewrite lookup_insert_ne; [done|].
        intros <-. congruence.
      * apply list_elem_of_singleton in Hin as ->. exists p'.
        by rewrite lookup_insert_eq.
    + rewrite lookup_insert_ne in Hj by done.
      destruct (c_back _ Hs _ _ _ Hj Hin) as (q & Hq & Hb).
      exists q. split; [|done]. rewrite lookup_insert_ne; [done|].
      intros <-. congruence.
  - intros b j Hj. destruct (decide (a = b)) as [<-|Hab].
    + rewrite lookup_insert_eq in Hj. injection Hj as <-. rewrite Hptr.
      apply NoDup_app. split; [by eapply c_back_nodup|]. split.
      * intros h Hh. rewrite list_elem_of_singleton. by intros ->.
      * apply NoDup_singleton.
    + rewrite lookup_insert_ne in Hj by done. by eapply c_back_nodup.
  - intros h. rewrite (c_registry _ Hs). destruct (decide (this = h)) as [<-|Hne].
    + rewrite lookup_insert_eq. split; eauto.
    + by rewrite lookup_insert_ne.
  - apply (c_registry_nodup _ Hs).
  - intros b c j k h Hj Hk.
    assert (∀ x y, <[a:=i']> (objects s) !! x = Some y →
                   ∃ y', objects s !! x = Some y' ∧
                         ObjectInfo.size y = ObjectInfo.size y') as Hsz'.
    { intros x y. destruct (decide (a = x)) as [<-|?].
      - rewrite lookup_insert_eq. intros [= <-]. eauto.
      - rewrite lookup_insert_ne by done. eauto. }
    apply Hsz' in Hj as (j' & Hj' & ->). apply Hsz' in Hk as (k' & Hk' & ->).
    by eapply c_disjoint.
Qed.

Lemma consistent_retag s this p p' :
  consistent s → handles s !! this = Some p → IPtr.info p' = IPtr.info p →
  consistent (set_handles (<[this := p']> (handles s)) s).
Proof.
  intros Hs Hthis Hp'. split; simpl.
  - apply (c_key _ Hs).
  - intros h q a Hq Ha. destruct (decide (this = h)) as [<-|Hne].
    + rewrite lookup_insert_eq in Hq. injection Hq as <-.
      eapply c_bound; [done..|congruence].
    + rewrite lookup_insert_ne in Hq by done. by eapply c_bound.
  - intros a i h Hi Hin. destruct (c_back _ Hs _ _ _ Hi Hin) as (q & Hq & Ha).
    destruct (decide (this = h)) as [<-|Hne].
    + exists p'. rewrite lookup_insert_eq. split; [done|]. congruence.
    + exists q. by rewrite lookup_insert_ne.
  - apply (c_back_nodup _ Hs).
  - intros h. rewrite (c_registry _ Hs). destruct (decide (this = h)) as [<-|Hne].
    + rewrite lookup_insert_eq. split; eauto.
    + by rewrite lookup_insert_ne.
  - apply (c_registry_nodup _ Hs).
  - apply (c_disjoint _ Hs).
Qed.

(** ** Handle destruction and record removal on consistent states *)

Lemma shape_fields i j :
  shape i = shape j →
  ObjectInfo.object i = ObjectInfo.object j ∧
  ObjectInfo.size i = ObjectInfo.size j ∧
  ObjectInfo.mark i = ObjectInfo.mark j ∧
  ObjectInfo.destroy i = ObjectInfo.destroy j.
Proof. destruct i, j. unfold shape. simpl. intros [= -> -> -> -> -> ->]. done. Qed.

Lemma shape_lookup (m m' : gmap Z ObjectInfo.t) a i' :
  shape <$> m' !! a = shape <$> m !! a → m' !! a = Some i' →
  ∃ i, m !! a = Some i ∧ shape i' = shape i.
Proof.
  intros H Hi'. rewrite Hi' in H.
  destruct (m !! a) as [i|]; [|done]. simpl in H. exists i. split; [done|].
  congruence.
Qed.

Lemma Ptr_destroy_spec s this p :
  consistent s → handles s !! this = Some p →
  ∃ s', Ptr_destroy this s = Done s' ∧ consistent s' ∧
        handles s' = delete this (handles s) ∧
        currentMark s' = currentMark s ∧
        allocatedBytes s' = allocatedBytes s ∧
        trace s' = trace s ∧
        ∀ b, shape <$> objects s' !! b = shape <$> objects s !! b.
Proof.
  intros Hs Hthis. unfold Ptr_destroy, detach. rewrite Hthis.
  destruct (IPtr.info p) as [a|] eqn:Ha.
  - destruct (c_bound _ Hs _ _ _ Hthis Ha) as (i & Hi & _). rewrite Hi. simpl.
    eexists. split; [done|]. split; [|split; [done|]]; simpl.
    + pose proof (consistent_unbind s this p a i (IPtr.MarkInvalid p)
                    Hs Hthis Ha Hi eq_refl) as H1.
      eapply consistent_ext; [..|eapply (consistent_remove_handle _ this);
                                 [exact H1|simpl; apply lookup_insert_eq|done]];
        simpl; try done.
      by rewrite delete_insert_eq.
    + repeat split. intros b. destruct (decide (a = b)) as [<-|Hne].
      * rewrite lookup_insert_eq, Hi. done.
      * by rewrite lookup_insert_ne.
  - simpl. eexists. split; [done|]. split; [|done].
    by eapply consistent_remove_handle.
Qed.

Lemma consistent_emit e s : consistent s → consistent (emit e s).
Proof. by apply consistent_ext. Qed.

Lemma elem_of_members obj extent s h :
  h ∈ members obj extent s ↔
  in_range obj (obj + extent) h = true ∧ is_Some (handles s !! h).
Proof.
  unfold members. by rewrite elem_of_reverse, list_elem_of_filter, elem_of_keys.
Qed.

Lemma members_NoDup obj extent s : NoDup (members obj extent s).
Proof.
  unfold members. rewrite reverse_Permutation. apply NoDup_filter, keys_NoDup.
Qed.

(** The finalizer of a record: every live handle stored in the object is
    destroyed; nothing else about handles or records changes. *)
Lemma Destroy_spec T obj extent s :
  consistent s →
  ∃ s', Destroy T obj extent s = Done s' ∧ consistent s' ∧
        (∀ h, handles s' !! h =
              if in_range obj (obj + extent) h then None else handles s !! h) ∧
        currentMark s' = currentMark s ∧
        allocatedBytes s' = allocatedBytes s ∧
        trace s' = trace s ++ [Finalize T obj] ∧
        ∀ b, shape <$> objects s' !! b = shape <$> objects s !! b.
Proof.
  intros Hs. unfold Destroy.
  set (I := λ (pre : list Z) (u : Heap),
       consistent u ∧
       (∀ h, handles u !! h = if decide (h ∈ pre) then None else handles s !! h) ∧
       currentMark u = currentMark s ∧
       allocatedBytes u = allocatedBytes s ∧
       trace u = trace s ++ [Finalize T obj] ∧
       ∀ b, shape <$> objects u !! b = shape <$> objects s !! b).
  destruct (for_each_total_at I Ptr_destroy (members obj extent s)
              (emit (Finalize T obj) s)) as (s' & Hrun & Hc & Hh & Hrest).
  { split; [by apply consistent_emit|]. split; [|done].
    intros h. rewrite decide_False; [done|apply not_elem_of_nil]. }
  { intros pre x suf u Hl (Hu & Hh & Hcur & Hal & Htr & Hsh).
    assert (x ∉ pre) as Hx.
    { pose proof (members_NoDup obj extent s) as Hnd. rewrite Hl in Hnd.
      apply NoDup_app in Hnd as (_ & Hnd & _). intros Hin.
      apply (Hnd x Hin). apply elem_of_cons. by left. }
    assert (is_Some (handles s !! x)) as [p Hp].
    { apply (elem_of_members obj extent s x). rewrite Hl.
      apply elem_of_app. right. apply elem_of_cons. by left. }
    destruct (Ptr_destroy_spec u x p Hu) as (u' & Hrun & Hu' & Hh' & Hcur' & Hal' & Htr' & Hsh').
    { rewrite Hh. by rewrite decide_False. }
    exists u'. split; [done|]. split; [done|]. split; [|repeat split; try congruence].
    - intros h. rewrite Hh'. destruct (decide (x = h)) as [<-|Hne].
      + rewrite lookup_delete_eq. rewrite decide_True; [done|].
        apply elem_of_app. right. by apply list_elem_of_singleton.
      + rewrite lookup_delete_ne by done. rewrite Hh.
        destruct (decide (h ∈ pre)).
        * rewrite decide_True; [done|]. apply elem_of_app. by left.
        * rewrite decide_False; [done|]. rewrite elem_of_app, list_elem_of_singleton.
          intros [?|?]; [done|congruence]. }
  exists s'. split; [done|]. split; [done|]. split; [|done].
  intros h. rewrite Hh. destruct (decide (h ∈ members obj extent s)) as [Hin|Hin].
  - apply elem_of_members in Hin as [-> _]. done.
  - destruct (in_range obj (obj + extent) h) eqn:Hr; [|done].
    destruct (handles s !! h) eqn:Hp; [|done].
    exfalso. apply Hin. apply elem_of_members. eauto.
Qed.

(** The close of [operator delete] and of a sweep turn: every handle in
    the back-reference vector is invalidated and the table entry goes. *)
Lemma drop_record_spec s a i :
  consistent s → objects s !! a = Some i →
  ∃ s', for_each invalidate (ObjectInfo.pointers i) s = Done s' ∧
        objects s' = objects s ∧ pointers s' = pointers s ∧
        currentMark s' = currentMark s ∧
        allocatedBytes s' = allocatedBytes s ∧
        trace s' = trace s ∧
        (∀ h, handles s' !! h =
              (λ p, if decide (IPtr.info p = Some a)
                    then IPtr.MarkInvalid p else p) <$> handles s !! h) ∧
        consistent (set_objects (delete a (objects s')) s').
Proof.
  intros Hs Hi.
  set (I := λ (pre : list Z) (u : Heap),
       objects u = objects s ∧ pointers u = pointers s ∧
       currentMark u = currentMark s ∧ allocatedBytes u = allocatedBytes s ∧
       trace u = trace s ∧
       ∀ h, handles u !! h =
            if decide (h ∈ pre) then IPtr.MarkInvalid <$> handles s !! h
            else handles s !! h).
  destruct (for_each_total I invalidate (ObjectInfo.pointers i) s)
    as (s' & Hrun & Ho & Hp & Hcur & Hal & Htr & Hh).
  { by repeat split. }
  { intros pre x u (Ho & Hp & Hcur & Hal & Htr & Hh) Hx.
    destruct (c_back _ Hs _ _ _ Hi Hx) as (p & Hpx & _).
    unfold invalidate.
    assert (∃ q, handles u !! x = Some q ∧
                 IPtr.MarkInvalid q = IPtr.MarkInvalid p) as (q & -> & Hq).
    { rewrite Hh, Hpx. destruct (decide (x ∈ pre)); simpl; eauto. }
    eexists. split; [done|]. repeat split; try done. simpl. intros h.
    destruct (decide (x = h)) as [<-|Hne].
    - rewrite lookup_insert_eq, Hq, Hpx. rewrite decide_True; [done|].
      apply elem_of_app. right. by apply list_elem_of_singleton.
    - rewrite lookup_insert_ne by done. rewrite Hh.
      destruct (decide (h ∈ pre)).
      + rewrite decide_True; [done|]. apply elem_of_app. by left.
      + rewrite decide_False; [done|]. rewrite elem_of_app, list_elem_of_singleton.
        intros [?|?]; [done|congruence]. }
  assert (∀ h, handles s' !! h =
               (λ p, if decide (IPtr.info p = Some a)
                     then IPtr.MarkInvalid p else p) <$> handles s !! h) as Hh'.
  { intros h. rewrite Hh. destruct (handles s !! h) as [p|] eqn:Hp';
      [|by destruct (decide _)]. simpl.
    destruct (decide (IPtr.info p = Some a)) as [Ha|Ha].
    - destruct (c_bound _ Hs _ _ _ Hp' Ha) as (j & Hj & Hin).
      assert (j = i) as -> by congruence. by rewrite decide_True.
    - rewrite decide_False; [done|]. intros Hin.
      destruct (c_back _ Hs _ _ _ Hi Hin) as (q & Hq & Hqa). congruence. }
  exists s'. repeat (split; [done|]).
  split; simpl; rewrite ?Ho, ?Hp.
  - intros b j Hj. apply lookup_delete_Some in Hj as [_ Hj]. by eapply c_key.
  - intros h q b Hq Hb. rewrite Hh' in Hq.
    destruct (handles s !! h) as [p|] eqn:Hp'; [|done]. simpl in Hq.
    destruct (decide (IPtr.info p = Some a)); injection Hq as <-; [done|].
    destruct (c_bound _ Hs _ _ _ Hp' Hb) as (j & Hj & Hin).
    exists j. split; [|done]. rewrite lookup_delete_ne; [done|congruence].
  - intros b j h Hj Hin. apply lookup_delete_Some in Hj as [Hne Hj].
    destruct (c_back _ Hs _ _ _ Hj Hin) as (p & Hp' & Hb).
    exists p. split; [|done]. rewrite Hh', Hp'. simpl.
    rewrite decide_False; [done|congruence].
  - intros b j Hj. apply lookup_delete_Some in Hj as [_ Hj]. by eapply c_back_nodup.
  - intros h. rewrite (c_registry _ Hs), Hh'.
    destruct (handles s !! h); simpl; split; intros [? ?]; eauto; done.
  - apply (c_registry_nodup _ Hs).
  - intros b c j k h Hj Hk. apply lookup_delete_Some in Hj as [_ Hj].
    apply lookup_delete_Some in Hk as [_ Hk]. by eapply c_disjoint.
Qed.

(** ** The sweep *)

Lemma sweep_one_Fatal s a i :
  objects s !! a = Some i → ObjectInfo.destroy i = None → sweep_one a s = Fatal.
Proof. intros Hi Hd. unfold sweep_one. by rewrite Hi, Hd. Qed.

Lemma sweep_one_spec s a i T :
  consistent s → objects s !! a = Some i → ObjectInfo.destroy i = Some T →
  ∃ s', sweep_one a s = Done s' ∧ consistent s' ∧
        currentMark s' = currentMark s ∧
        allocatedBytes s' = size_t_wrap (allocatedBytes s - ObjectInfo.size i) ∧
        trace s' = trace s ++ [Finalize T a; Release a] ∧
        objects s' !! a = None ∧
        (∀ b, b ≠ a → shape <$> objects s' !! b = shape <$> objects s !! b) ∧
        (∀ h, handles s' !! h =
              if in_range a (a + ObjectInfo.size i) h then None
              else (λ p, if decide (IPtr.info p = Some a)
                         then IPtr.MarkInvalid p else p) <$> handles s !! h).
Proof.
  intros Hs Hi Hd. unfold sweep_one. rewrite Hi, Hd.
  set (s1 := set_allocatedBytes _ s).
  assert (consistent s1) as Hs1 by by apply (consistent_ext s).
  destruct (Destroy_spec T a (ObjectInfo.size i) s1 Hs1)
    as (s2 & -> & Hs2 & Hh2 & Hc2 & Ha2 & Ht2 & Hsh2). simpl.
  destruct (objects s2 !! a) as [i'|] eqn:Hi'.
  2:{ specialize (Hsh2 a). simpl in Hsh2. by rewrite Hi', Hi in Hsh2. }
  destruct (drop_record_spec (emit (Release a) s2) a i')
    as (s3 & -> & Ho3 & Hp3 & Hc3 & Ha3 & Ht3 & Hh3 & Hs3);
    [by apply consistent_emit|done|]. simpl.
  eexists. split; [done|]. split; [done|]. simpl in *.
  split; [congruence|]. split; [by rewrite Ha3, Ha2|].
  split; [by rewrite Ht3, Ht2, <- app_assoc|].
  split; [apply lookup_delete_eq|]. split.
  - intros b Hb. rewrite lookup_delete_ne by done. rewrite Ho3. simpl. apply Hsh2.
  - intros h. rewrite Hh3. simpl. rewrite Hh2. simpl. by destruct (in_range _ _ _).
Qed.

Lemma swept_nil sm : consistent sm → swept sm [] sm.
Proof.
  intros Hsm. split; try done.
  - unfold sweep_events. simpl. by rewrite app_nil_r.
  - intros a Ha. by apply elem_of_nil in Ha.
  - intros h p' Hp'. exists p'. split; [done|]. right. split; [|done].
    intros a Ha. by apply elem_of_nil in Ha.
  - intros h a i Ha. by apply elem_of_nil in Ha.
Qed.

Lemma swept_step sm done u a i T :
  swept sm done u → a ∉ done →
  objects sm !! a = Some i → ObjectInfo.destroy i = Some T →
  ∃ u', sweep_one a u = Done u' ∧ swept sm (done ++ [a]) u'.
Proof.
  intros Hu Ha Hi Hd.
  pose proof (sw_kept _ _ _ Hu a Ha) as Hk. rewrite Hi in Hk.
  destruct (objects u !! a) as [iu|] eqn:Hiu; [|done].
  simpl in Hk. apply (inj Some) in Hk.
  apply shape_fields in Hk as (_ & Hsz & _ & Hdu). rewrite <- Hdu in Hd.
  destruct (sweep_one_spec u a iu T (sw_consistent _ _ _ Hu) Hiu Hd)
    as (u' & Hrun & Hc & Hcur & _ & Htr & Hgone & Hkept & Hh).
  exists u'. split; [done|]. split.
  - done.
  - rewrite Hcur. apply (sw_mark _ _ _ Hu).
  - rewrite Htr, (sw_trace _ _ _ Hu). unfold sweep_events.
    rewrite bind_app, <- app_assoc. simpl. unfold finalizer at 3.
    rewrite Hi. simpl. by rewrite <- Hdu, Hd.
  - intros b Hb. apply elem_of_app in Hb as [Hb|Hb].
    + destruct (decide (b = a)) as [->|Hne]; [done|].
      pose proof (Hkept b Hne) as Hkb. rewrite (sw_gone _ _ _ Hu b Hb) in Hkb.
      by destruct (objects u' !! b).
    + by apply list_elem_of_singleton in Hb as ->.
  - intros b Hb. rewrite Hkept.
    + apply (sw_kept _ _ _ Hu). intros ?. apply Hb, elem_of_app. by left.
    + intros ->. apply Hb, elem_of_app. right. by apply list_elem_of_singleton.
  - intros h p'' Hp''. rewrite Hh in Hp''.
    destruct (in_range a (a + ObjectInfo.size iu) h); [done|].
    destruct (handles u !! h) as [p'|] eqn:Hp'; [|done]. simpl in Hp''.
    destruct (sw_handle _ _ _ Hu h p' Hp') as (p & Hp & Hcase).
    exists p. split; [done|].
    destruct Hcase as [[(b & Hb & Hpb) ->]|[Hnone ->]].
    + left. split.
      * exists b. split; [|done]. apply elem_of_app. by left.
      * simpl in Hp''. repeat case_decide; congruence.
    + destruct (decide (IPtr.info p = Some a)) as [Hpa|Hpa].
      * left. split; [|congruence]. exists a. split; [|done].
        apply elem_of_app. right. by apply list_elem_of_singleton.
      * right. split; [|congruence]. intros b Hb.
        apply elem_of_app in Hb as [Hb|Hb]; [by apply Hnone|].
        by apply list_elem_of_singleton in Hb as ->.
  - intros h p Hp Hout. rewrite Hh.
    destruct (in_range a (a + ObjectInfo.size iu) h) eqn:Hr.
    + exfalso. apply in_range_spec in Hr. rewrite Hsz in Hr.
      apply (Hout a i); [|done..]. apply elem_of_app. right.
      by apply list_elem_of_singleton.
    + destruct (sw_alive _ _ _ Hu h p Hp) as [p' ->]; [|by eexists].
      intros b j Hb. apply Hout. apply elem_of_app. by left.
  - intros h b j Hb Hj Hr. rewrite Hh. apply elem_of_app in Hb as [Hb|Hb].
    + rewrite (sw_dead _ _ _ Hu h b j Hb Hj Hr). by destruct (in_range _ _ _).
    + apply list_elem_of_singleton in Hb as ->.
      assert (j = i) as -> by congruence. rewrite <- Hsz in Hr.
      apply in_range_spec in Hr. by rewrite Hr.
Qed.

(** The third loop of [CollectGarbage] from a state of the sweep: it
    completes when every record it visits has a finalizer, and stops at
    the null call otherwise. *)
Lemma sweep_loop sm : ∀ l done u,
  swept sm done u → NoDup (done ++ l) →
  (∀ a, a ∈ l → is_Some (objects sm !! a)) →
  ((∀ a i, a ∈ l → objects sm !! a = Some i → is_Some (ObjectInfo.destroy i)) →
   ∃ u', for_each sweep_one l u = Done u' ∧ swept sm (done ++ l) u') ∧
  ((∃ a i, a ∈ l ∧ objects sm !! a = Some i ∧ ObjectInfo.destroy i = None) →
   for_each sweep_one l u = Fatal).
Proof.
  induction l as [|x l IH]; intros done u Hu Hnd Hreg.
  { split.
    - intros _. exists u. rewrite app_nil_r. done.
    - intros (a & i & Ha & _). by apply elem_of_nil in Ha. }
  destruct (Hreg x) as [i Hi]; [apply elem_of_cons; by left|].
  assert (x ∉ done) as Hx.
  { apply NoDup_app in Hnd as (_ & Hnd & _). intros Hin.
    apply (Hnd x Hin). apply elem_of_cons. by left. }
  assert (done ++ x :: l = (done ++ [x]) ++ l) as Happ by by rewrite <- app_assoc.
  destruct (ObjectInfo.destroy i) as [T|] eqn:Hd.
  - destruct (swept_step sm done u x i T Hu Hx Hi Hd) as (u' & Hrun & Hu').
    destruct (IH (done ++ [x]) u' Hu') as [IHdone IHfatal].
    { by rewrite <- Happ. }
    { intros a Ha. apply Hreg, elem_of_cons. by right. }
    simpl. rewrite Hrun. simpl. rewrite Happ. split.
    + intros Hall. apply IHdone. intros a j Ha. apply Hall, elem_of_cons. by right.
    + intros (a & j & Ha & Hj & Hdj). apply IHfatal.
      apply elem_of_cons in Ha as [->|Ha]; [congruence|]. eauto.
  - pose proof (sw_kept _ _ _ Hu x Hx) as Hk. rewrite Hi in Hk.
    destruct (objects u !! x) as [iu|] eqn:Hiu; [|done].
    simpl in Hk. apply (inj Some) in Hk. apply shape_fields in Hk as (_ & _ & _ & Hdu).
    simpl. rewrite (sweep_one_Fatal u x iu Hiu) by congruence. simpl. split; [|done].
    intros Hall. destruct (Hall x i) as [? ?]; [apply elem_of_cons; by left|done|].
    congruence.
Qed.

(** ** One collection *)

Lemma elem_of_freeObjects s a : a ∈ freeObjects s ↔ unmarked s a = true.
Proof.
  unfold freeObjects. rewrite list_elem_of_filter, elem_of_keys.
  split; [tauto|]. intros H. split; [done|].
  unfold unmarked in H. by destruct (objects s !! a).
Qed.

Lemma freeObjects_NoDup s : NoDup (freeObjects s).
Proof. apply NoDup_filter, keys_NoDup. Qed.

Lemma CollectGarbage_unfold s :
  CollectGarbage s = (mark_roots (mark_fuel (flipped s)) (flipped s) ≫= sweep).
Proof. done. Qed.

(** What a collection does from a well-formed state: the mark phase
    completes in a state [sm] that differs from the flipped one in marks
    only and in which the marked records are the reachable ones; the
    sweep then visits the registered unreachable records, and completes
    or stops at a null finalizer. *)
Lemma CollectGarbage_spec s :
  wf s →
  ∃ sm, mark_roots (mark_fuel (flipped s)) (flipped s) = Done sm ∧
        remark (flipped s) sm ∧
        (∀ a, marked sm a ↔ reachable s a) ∧
        (∀ a, a ∈ freeObjects sm ↔ is_Some (objects s !! a) ∧ ¬ reachable s a) ∧
        ((∀ a i, objects s !! a = Some i → ¬ reachable s a →
                 is_Some (ObjectInfo.destroy i)) →
         ∃ s', CollectGarbage s = Done s' ∧ swept sm (freeObjects sm) s') ∧
        ((∃ a i, objects s !! a = Some i ∧ ¬ reachable s a ∧
                 ObjectInfo.destroy i = None) →
         CollectGarbage s = Fatal).
Proof.
  intros [Hs Hm].
  assert (consistent (flipped s)) as Hs0 by by apply (consistent_ext s).
  destruct (mark_roots_Done (flipped s) Hs0) as (sm & Hrun & Hrem & Hmarked).
  { intros a (i & Hi & Hmi). simpl in Hi, Hmi. rewrite (Hm _ _ Hi) in Hmi.
    by destruct (currentMark s). }
  change (∀ a, marked sm a ↔ reachable s a) in Hmarked.
  assert (∀ a, a ∈ freeObjects sm ↔ is_Some (objects s !! a) ∧ ¬ reachable s a)
    as Hfree.
  { intros a. rewrite elem_of_freeObjects, <- Hmarked. split.
    - intros Hu. assert (is_Some (objects sm !! a)) as Hsome.
      { unfold unmarked in Hu. destruct (objects sm !! a); [eauto|done]. }
      split.
      + destruct Hsome as [i' Hi'].
        destruct (remark_lookup _ _ _ _ Hrem Hi') as (i & Hi & _). eauto.
      + intros Hma. apply unmarked_marked in Hma; [congruence|done].
    - intros [[i Hi] Hnm].
      destruct (remark_lookup_fwd (flipped s) sm a i Hrem Hi) as (i' & Hi' & _).
      destruct (unmarked sm a) eqn:Hu; [done|]. exfalso. apply Hnm.
      apply unmarked_marked; eauto. }
  exists sm. repeat (split; [done|]).
  pose proof (consistent_remark _ _ Hrem Hs0) as Hsm.
  destruct (sweep_loop sm (freeObjects sm) [] sm (swept_nil sm Hsm))
    as [Hdone Hfatal].
  { apply freeObjects_NoDup. }
  { intros a Ha. apply elem_of_freeObjects in Ha. unfold unmarked in Ha.
    destruct (objects sm !! a); [eauto|done]. }
  rewrite CollectGarbage_unfold, Hrun. simpl. split.
  - intros Hall. apply Hdone. intros a i' Ha Hi'.
    destruct (remark_shape _ _ _ _ Hrem Hi') as (i & Hi & _ & _ & _ & ->).
    apply Hfree in Ha as [_ Ha]. eauto.
  - intros (a & i & Hi & Ha & Hd). apply Hfatal.
    destruct (remark_lookup_fwd (flipped s) sm a i Hrem Hi) as (i' & Hi' & Hcase).
    exists a, i'. split; [apply Hfree; eauto|]. split; [done|].
    by destruct Hcase as [->| ->].
Qed.

(** ** Well-formedness is an invariant of the operations *)

Lemma wf_initial : wf initial.
Proof.
  split; [split|]; simpl; try (intros *; rewrite lookup_empty; done).
  - intros h. rewrite lookup_empty. split; [intros H; by apply elem_of_nil in H|].
    by intros [? ?].
  - apply NoDup_nil_2.
Qed.

Lemma wf_operator_new res size source line s :
  wf s → fresh_block res size s → wf (operator_new res size source line s).
Proof.
  intros [Hs Hm] [Hres Hdis]. unfold operator_new.
  assert (∀ h, h ∉ ObjectInfo.pointers
                     (ObjectInfo.mk res size (currentMark s) source line [] None))
    as Hempty by (intros h; apply not_elem_of_nil).
  split; [split|]; simpl.
  - intros a i Hi. destruct (decide (res = a)) as [<-|Hne].
    + rewrite lookup_insert_eq in Hi. by injection Hi as <-.
    + rewrite lookup_insert_ne in Hi by done. by eapply c_key.
  - intros h p a Hp Ha. destruct (c_bound _ Hs _ _ _ Hp Ha) as (i & Hi & Hin).
    exists i. split; [|done]. rewrite lookup_insert_ne; [done|congruence].
  - intros a i h Hi Hin. destruct (decide (res = a)) as [<-|Hne].
    + rewrite lookup_insert_eq in Hi. injection Hi as <-. by apply Hempty in Hin.
    + rewrite lookup_insert_ne in Hi by done. by eapply c_back.
  - intros a i Hi. destruct (decide (res = a)) as [<-|Hne].
    + rewrite lookup_insert_eq in Hi. injection Hi as <-. apply NoDup_nil_2.
    + rewrite lookup_insert_ne in Hi by done. by eapply c_back_nodup.
  - apply (c_registry _ Hs).
  - apply (c_registry_nodup _ Hs).
  - intros a b i j h Hi Hj Ha Hb.
    destruct (decide (res = a)) as [<-|Hna], (decide (res = b)) as [<-|Hnb];
      [done|..].
    + rewrite lookup_insert_eq in Hi. rewrite lookup_insert_ne in Hj by done.
      injection Hi as <-. simpl in Ha. destruct (Hdis _ _ Hj); lia.
    + rewrite lookup_insert_eq in Hj. rewrite lookup_insert_ne in Hi by done.
      injection Hj as <-. simpl in Hb. destruct (Hdis _ _ Hi); lia.
    + rewrite lookup_insert_ne in Hi, Hj by done. by eapply c_disjoint.
  - intros a i Hi. destruct (decide (res = a)) as [<-|Hne].
    + rewrite lookup_insert_eq in Hi. by injection Hi as <-.
    + rewrite lookup_insert_ne in Hi by done. by eapply Hm.
Qed.

Lemma wf_Ptr_default root T this s :
  wf s → handles s !! this = None → wf (Ptr_default root T this s).
Proof.
  intros [Hs Hm] Hthis. split; [by apply consistent_add_handle|done].
Qed.

Lemma attach_fields T this i :
  ObjectInfo.object (bind_destroy T (attach this i)) = ObjectInfo.object i ∧
  ObjectInfo.size (bind_destroy T (attach this i)) = ObjectInfo.size i ∧
  ObjectInfo.mark (bind_destroy T (attach this i)) = ObjectInfo.mark i ∧
  ObjectInfo.pointers (bind_destroy T (attach this i)) =
    ObjectInfo.pointers i ++ [this].
Proof. unfold bind_destroy, attach. by destruct i as [? ? ? ? ? ? []]. Qed.

Lemma marks_insert (m : gmap Z ObjectInfo.t) (b : bool) a i i' :
  (∀ x y, m !! x = Some y → ObjectInfo.mark y = b) →
  m !! a = Some i → ObjectInfo.mark i' = ObjectInfo.mark i →
  ∀ x y, <[a := i']> m !! x = Some y → ObjectInfo.mark y = b.
Proof.
  intros Hm Hi Hi' x y. destruct (decide (a = x)) as [<-|Hne].
  - rewrite lookup_insert_eq. intros [= <-]. rewrite Hi'. eauto.
  - rewrite lookup_insert_ne by done. eauto.
Qed.

Lemma wf_Ptr_raw root T this object stale s :
  wf s → handles s !! this = None →
  (objects s !! object = None → stale = None) →
  wf (Ptr_raw root T this object stale s).
Proof.
  intros [Hs Hm] Hthis Hstale. unfold Ptr_raw.
  destruct (objects s !! object) as [i|] eqn:Hi.
  - destruct (attach_fields T this i) as (Ho & Hsz & Hmk & Hpt). split.
    + pose proof (consistent_add_handle s this (IPtr.mk object None root T)
                    Hs Hthis eq_refl) as H1.
      eapply consistent_ext;
        [..|eapply (consistent_bind _ this (IPtr.mk object None root T) object i
                      (bind_destroy T (attach this i))
                      (IPtr.mk object (Some object) root T) H1)];
        simpl; try done; try apply lookup_insert_eq.
      by rewrite insert_insert_eq.
    + simpl. by eapply marks_insert.
  - rewrite Hstale by done. split; [by apply consistent_add_handle|done].
Qed.

Lemma wf_Ptr_copy root this other s s' :
  wf s → handles s !! this = None →
  Ptr_copy root this other s = Done s' → wf s'.
Proof.
  intros [Hs Hm] Hthis. unfold Ptr_copy.
  destruct (handles s !! other) as [o|] eqn:Ho; [|done].
  destruct (IPtr.info o) as [a|] eqn:Ha.
  - destruct (objects s !! a) as [i|] eqn:Hi; [|done]. intros [= <-]. split.
    + pose proof (consistent_add_handle s this (IPtr.mk 0 None root 0%nat)
                    Hs Hthis eq_refl) as H1.
      eapply consistent_ext;
        [..|eapply (consistent_bind _ this (IPtr.mk 0 None root 0%nat) a i
                      (attach this i)
                      (IPtr.mk (IPtr.object o) (Some a) root (IPtr.pointee o)) H1)];
        simpl; try done; try apply lookup_insert_eq.
      by rewrite insert_insert_eq.
    + simpl. by eapply marks_insert.
  - intros [= <-]. split; [by apply consistent_add_handle|done].
Qed.

Lemma wf_Ptr_destroy this s s' : wf s → Ptr_destroy this s = Done s' → wf s'.
Proof.
  intros [Hs Hm] Hrun.
  destruct (handles s !! this) as [p|] eqn:Hp.
  2:{ unfold Ptr_destroy, detach in Hrun. by rewrite Hp in Hrun. }
  destruct (Ptr_destroy_spec s this p Hs Hp) as (s'' & Hrun' & Hc & _ & Hcur & _ & _ & Hsh).
  assert (s'' = s') as -> by congruence. split; [done|].
  intros a i' Hi'. destruct (shape_lookup _ _ _ _ (Hsh a) Hi') as (i & Hi & Hshape).
  apply shape_fields in Hshape as (_ & _ & -> & _). rewrite Hcur. eauto.
Qed.

(** After the opening of an assignment the handle is off the vector of
    its old record; written as unbound, the state is consistent. *)
Lemma detach_unbound this s s1 p0 :
  wf s → detach this s = Done s1 → IPtr.info p0 = None →
  wf (set_handles (<[this := p0]> (handles s1)) s1) ∧
  handles s1 = handles s ∧ pointers s1 = pointers s.
Proof.
  intros [Hs Hm] Hrun Hp0. unfold detach in Hrun.
  destruct (handles s !! this) as [p|] eqn:Hp; [|done].
  destruct (IPtr.info p) as [a|] eqn:Ha.
  - destruct (objects s !! a) as [i|] eqn:Hi; [|done]. injection Hrun as <-.
    split; [|done]. split; [by apply (consistent_unbind s this p a i p0)|].
    simpl. by eapply marks_insert.
  - injection Hrun as <-. split; [|done]. split; [|done].
    eapply consistent_retag; [done..|congruence].
Qed.

Lemma wf_Ptr_assign this other s s' :
  wf s → Ptr_assign this other s = Done s' → wf s'.
Proof.
  intros Hwf Hrun. unfold Ptr_assign in Hrun.
  apply bind_Done in Hrun as (s1 & Hdet & Hrun).
  destruct (handles s1 !! this) as [p|] eqn:Hp; [|done].
  destruct (handles s1 !! other) as [o|] eqn:Ho; [|done].
  destruct (IPtr.info o) as [a|] eqn:Ha.
  - simpl in Hrun. destruct (objects s1 !! a) as [i|] eqn:Hi; [|done].
    injection Hrun as <-.
    destruct (detach_unbound this s s1 (IPtr.MarkInvalid p) Hwf Hdet eq_refl)
      as ([H1 Hm1] & _).
    split.
    + eapply consistent_ext;
        [..|eapply (consistent_bind _ this (IPtr.MarkInvalid p) a i (attach this i)
                      (IPtr.mk (IPtr.object o) (Some a) (IPtr.IsRoot p)
                         (IPtr.pointee p)) H1)];
        simpl; try done; try apply lookup_insert_eq.
      by rewrite insert_insert_eq.
    + simpl. eapply marks_insert; [apply Hm1|done..].
  - injection Hrun as <-.
    by destruct (detach_unbound this s s1
                   (IPtr.mk (IPtr.object o) None (IPtr.IsRoot p) (IPtr.pointee p))
                   Hwf Hdet eq_refl) as [? _].
Qed.

Lemma wf_Ptr_assign_raw this other s s' :
  wf s → Ptr_assign_raw this other s = Done s' → wf s'.
Proof.
  intros Hwf Hrun. unfold Ptr_assign_raw in Hrun.
  apply bind_Done in Hrun as (s1 & Hdet & Hrun).
  destruct (handles s1 !! this) as [p|] eqn:Hp; [|done].
  destruct (objects s1 !! other) as [i|] eqn:Hi.
  - injection Hrun as <-.
    destruct (detach_unbound this s s1 (IPtr.MarkInvalid p) Hwf Hdet eq_refl)
      as ([H1 Hm1] & _).
    destruct (attach_fields (IPtr.pointee p) this i) as (Hob & Hsz & Hmk & Hpt).
    split.
    + eapply consistent_ext;
        [..|eapply (consistent_bind _ this (IPtr.MarkInvalid p) other i
                      (bind_destroy (IPtr.pointee p) (attach this i))
                      (IPtr.mk other (Some other) (IPtr.IsRoot p)
                         (IPtr.pointee p)) H1)];
        simpl; try done; try apply lookup_insert_eq.
      by rewrite insert_insert_eq.
    + simpl. eapply marks_insert; [apply Hm1|done..].
  - injection Hrun as <-.
    by destruct (detach_unbound this s s1
                   (IPtr.mk other None (IPtr.IsRoot p) (IPtr.pointee p))
                   Hwf Hdet eq_refl) as [? _].
Qed.

Lemma wf_operator_delete data s s' :
  wf s → operator_delete data s = Done s' → wf s'.
Proof.
  intros [Hs Hm] Hrun. unfold operator_delete in Hrun.
  destruct (objects s !! data) as [i|] eqn:Hi.
  - set (s1 := set_allocatedBytes _ s) in Hrun.
    destruct (drop_record_spec s1 data i) as (s2 & Hloop & Ho & Hp & Hc & _ & _ & _ & Hs2);
      [by apply (consistent_ext s)|done|].
    rewrite Hloop in Hrun. injection Hrun as <-.
    split; [by apply consistent_emit|]. simpl. rewrite Ho, Hc. simpl.
    intros a j Hj. apply lookup_delete_Some in Hj as [_ Hj]. eauto.
  - injection Hrun as <-. split; [by apply consistent_emit|done].
Qed.

(** A completed collection, seen from its result. *)
Lemma CollectGarbage_Done s s' :
  wf s → CollectGarbage s = Done s' →
  ∃ sm, remark (flipped s) sm ∧
        (∀ a, marked sm a ↔ reachable s a) ∧
        (∀ a, a ∈ freeObjects sm ↔ is_Some (objects s !! a) ∧ ¬ reachable s a) ∧
        (∀ a i, objects s !! a = Some i → ¬ reachable s a →
                is_Some (ObjectInfo.destroy i)) ∧
        swept sm (freeObjects sm) s'.
Proof.
  intros Hwf Hrun.
  destruct (CollectGarbage_spec s Hwf) as (sm & _ & Hrem & Hmk & Hfree & Hdone & Hfatal).
  assert (∀ a i, objects s !! a = Some i → ¬ reachable s a →
                 is_Some (ObjectInfo.destroy i)) as Hall.
  { intros a i Hi Ha. destruct (ObjectInfo.destroy i) eqn:Hd; [eauto|].
    rewrite Hfatal in Hrun; [done|eauto]. }
  destruct (Hdone Hall) as (s'' & Hrun' & Hsw).
  assert (s'' = s') as -> by congruence. eauto 10.
Qed.

Lemma swept_marks sm l s' a i' :
  (∀ b, b ∈ l ↔ unmarked sm b = true) →
  swept sm l s' → objects s' !! a = Some i' →
  ObjectInfo.mark i' = currentMark s'.
Proof.
  intros Hl Hsw Hi'.
  assert (a ∉ l) as Ha.
  { intros Ha. rewrite (sw_gone _ _ _ Hsw a Ha) in Hi'. done. }
  destruct (shape_lookup _ _ _ _ (sw_kept _ _ _ Hsw a Ha) Hi') as (i & Hi & Hsh).
  apply shape_fields in Hsh as (_ & _ & -> & _).
  rewrite (sw_mark _ _ _ Hsw).
  destruct (unmarked sm a) eqn:Hu; [by apply Hl in Hu|].
  apply unmarked_marked in Hu as (j & Hj & Hmj); [|eauto]. congruence.
Qed.

Lemma wf_CollectGarbage s s' : wf s → CollectGarbage s = Done s' → wf s'.
Proof.
  intros Hwf Hrun.
  destruct (CollectGarbage_Done s s' Hwf Hrun) as (sm & _ & _ & _ & _ & Hsw).
  split; [apply (sw_consistent _ _ _ Hsw)|].
  intros a i'. eapply swept_marks; [|done]. apply elem_of_freeObjects.
Qed.

Lemma wf_run c s s' :
  wf s → possible c s → initialised c s → run c s = Done s' → wf s'.
Proof.
  intros Hwf Hpos Hinit Hrun. destruct c; simpl in *.
  - injection Hrun as <-. by apply wf_operator_new.
  - by eapply wf_operator_delete.
  - injection Hrun as <-. by apply wf_Ptr_default.
  - injection Hrun as <-. by apply wf_Ptr_raw.
  - by eapply wf_Ptr_copy.
  - by eapply wf_Ptr_destroy.
  - by eapply wf_Ptr_assign.
  - by eapply wf_Ptr_assign_raw.
  - by eapply wf_CollectGarbage.
Qed.

Lemma wf_exec cs : ∀ s s', wf s → exec cs s = Done s' → wf s'.
Proof.
  induction cs as [|c cs IH]; intros s s' Hwf; simpl.
  - by intros [= <-].
  - case_decide as Hc; [|done]. destruct Hc as [Hpos Hinit].
    intros Hrun. apply bind_Done in Hrun as (s1 & Hc & Hrest).
    eapply IH; [|done]. by eapply wf_run.
Qed.

(** Every state a program reaches from the initial one is well-formed. *)
Lemma wf_reachable cs s : exec cs initial = Done s → wf s.
Proof. apply wf_exec, wf_initial. Qed.

(** A program's states are reached by steps. *)
Lemma exec_steps cs : ∀ s s', exec cs s = Done s' → rtc step s s'.
Proof.
  induction cs as [|c cs IH]; intros s s'; simpl.
  - by intros [= <-].
  - case_decide as Hc; [|done]. destruct Hc as [Hpos _].
    intros Hrun. apply bind_Done in Hrun as (s1 & Hc & Hrest).
    eapply rtc_l; [|by apply IH]. by econstructor.
Qed.

Lemma main_heap_reached : exec main_calls initial = Done main_heap.
Proof. vm_compute. reflexivity. Qed.

(** * The properties of the collector *)

(** ** Reachability and the sweep *)

Lemma tally_sweep_events sm a l :
  NoDup l →
  tally (releases a) (sweep_events sm l) = (if decide (a ∈ l) then 1 else 0)%nat ∧
  tally (finalizes a) (sweep_events sm l) = (if decide (a ∈ l) then 1 else 0)%nat.
Proof.
  induction 1 as [|x l Hx Hl [IHr IHf]]; [done|].
  change (sweep_events sm (x :: l))
    with (Finalize (finalizer sm x) x :: Release x :: sweep_events sm l).
  cbn [tally releases finalizes]. rewrite IHr, IHf.
  destruct (decide (a = x)) as [->|Hne].
  - rewrite !bool_decide_eq_true_2 by done.
    rewrite (decide_True (P := x ∈ x :: l)) by (apply elem_of_cons; auto).
    by rewrite (decide_False (P := x ∈ l)).
  - rewrite !bool_decide_eq_false_2 by done. simpl.
    destruct (decide (a ∈ l)).
    + by rewrite decide_True by (apply elem_of_cons; auto).
    + rewrite decide_False; [done|]. rewrite elem_of_cons. tauto.
Qed.

(** The core of the property: what a completed collection leaves. *)
Lemma CollectGarbage_reachability s s' :
  wf s → CollectGarbage s = Done s' →
  ∃ new, trace s' = trace s ++ new ∧
    ∀ a, is_Some (objects s !! a) →
      (reachable s a →
         is_Some (objects s' !! a) ∧
         tally (releases a) new = 0%nat ∧ tally (finalizes a) new = 0%nat) ∧
      (¬ reachable s a →
         objects s' !! a = None ∧
         tally (releases a) new = 1%nat ∧ tally (finalizes a) new = 1%nat).
Proof.
  intros Hwf Hrun.
  destruct (CollectGarbage_Done s s' Hwf Hrun) as (sm & Hrem & Hmk & Hfree & _ & Hsw).
  exists (sweep_events sm (freeObjects sm)). split.
  { rewrite (sw_trace _ _ _ Hsw). by destruct Hrem as (_ & _ & _ & _ & -> & _). }
  intros a [i Hi].
  destruct (tally_sweep_events sm a (freeObjects sm) (freeObjects_NoDup sm))
    as [Hr Hf].
  rewrite Hr, Hf. split.
  - intros Hreach.
    assert (a ∉ freeObjects sm) as Hnot by (rewrite Hfree; tauto).
    rewrite decide_False by done. split; [|done].
    pose proof (sw_kept _ _ _ Hsw a Hnot) as Hk.
    destruct (remark_lookup_fwd (flipped s) sm a i Hrem Hi) as (i' & Hi' & _).
    rewrite Hi' in Hk. destruct (objects s' !! a); [eauto|done].
  - intros Hunreach.
    assert (a ∈ freeObjects sm) as Hin by (rewrite Hfree; eauto).
    rewrite decide_True by done. split; [|done].
    by apply (sw_gone _ _ _ Hsw).
Qed.

(** C1, as amended.  From a well-formed state in which every registered
    record that no root handle reaches has a finalizer bound, one
    collection completes; every registered record reachable from a root
    handle through handles embedded in records stays in the table, and
    every other registered record is removed, released once and finalized
    once. *)
Theorem reachability_correctness s :
  wf s →
  (∀ a i, objects s !! a = Some i → ¬ reachable s a →
          is_Some (ObjectInfo.destroy i)) →
  collects_exactly_the_unreachable s.
Proof.
  intros Hwf Hfin.
  destruct (CollectGarbage_spec s Hwf) as (sm & _ & _ & _ & _ & Hdone & _).
  destruct (Hdone Hfin) as (s' & Hrun & _).
  destruct (CollectGarbage_reachability s s' Hwf Hrun) as (new & Htr & Hall).
  exists s', new. split; [done|]. split; [done|].
  intros a Ha. destruct (Hall a Ha) as [Hr Hu]. split; [|done].
  intros Hreach. by destruct (Hr Hreach).
Qed.

Lemma wf_orphan_heap : wf orphan_heap.
Proof. apply wf_operator_new; [apply wf_initial|]. split; [done|]. apply map_Forall_empty. Qed.

(** C1 as stated, for every object graph, fails: in [orphan_heap] the
    collection stops at the null finalizer of the unreachable record. *)
Lemma reachability_correctness_counterexample :
  wf orphan_heap ∧ is_Some (objects orphan_heap !! 1000) ∧
  CollectGarbage orphan_heap = Fatal ∧
  ¬ collects_exactly_the_unreachable orphan_heap.
Proof.
  split; [apply wf_orphan_heap|]. split; [by eexists|].
  assert (CollectGarbage orphan_heap = Fatal) as Hrun by (vm_compute; reflexivity).
  split; [done|]. intros (s' & new & Hdone & _). congruence.
Qed.

Lemma wf_main_heap : wf main_heap.
Proof. exact (wf_reachable main_calls main_heap main_heap_reached). Qed.

Lemma main_heap_finalizers :
  ∀ a i, objects main_heap !! a = Some i → is_Some (ObjectInfo.destroy i).
Proof.
  assert (map_Forall (λ _ i, is_Some (ObjectInfo.destroy i)) (objects main_heap))
    as H by (apply (bool_decide_unpack _); vm_compute; exact I).
  exact H.
Qed.

Lemma reachability_correctness_witness :
  wf main_heap ∧
  (∀ a i, objects main_heap !! a = Some i → ¬ reachable main_heap a →
          is_Some (ObjectInfo.destroy i)) ∧
  collects_exactly_the_unreachable main_heap.
Proof.
  assert (∀ a i, objects main_heap !! a = Some i → ¬ reachable main_heap a →
                 is_Some (ObjectInfo.destroy i)) as Hfin
    by (intros a i Hi _; exact (main_heap_finalizers a i Hi)).
  split; [exact wf_main_heap|]. split; [exact Hfin|].
  exact (reachability_correctness main_heap wf_main_heap Hfin).
Defined.

(** Unreachability read off the state the mark phase ends in. *)
Lemma unreachable_by_marking s sm a :
  wf s → mark_roots (mark_fuel (flipped s)) (flipped s) = Done sm →
  unmarked sm a = true → ¬ reachable s a.
Proof.
  intros Hwf Hrun Hu.
  destruct (CollectGarbage_spec s Hwf) as (sm' & Hrun' & _ & _ & Hfree & _).
  assert (sm' = sm) as -> by congruence.
  apply elem_of_freeObjects in Hu. by apply Hfree in Hu as [_ ?].
Qed.

(** ** Cycles *)

Lemma linked_registered s : ∀ l a z b,
  linked s a l z → b ∈ a :: l → is_Some (objects s !! b).
Proof.
  assert (∀ x y, edge s x y → is_Some (objects s !! x)) as Hedge.
  { intros x y (h & p & _ & (i & Hi & _) & _). eauto. }
  induction l as [|c l IH]; intros a z b; simpl.
  - intros He Hb. apply list_elem_of_singleton in Hb as ->. eauto.
  - intros [He Hl] Hb. apply elem_of_cons in Hb as [->|Hb]; [eauto|].
    by eapply IH.
Qed.

Ltac concrete_edge h :=
  exists h; eexists; split; [vm_compute; reflexivity|];
  split; [eexists; split; [vm_compute; reflexivity|simpl; lia]|reflexivity].

Lemma main_heap_cycle : cycle main_heap [objC; objD].
Proof. split; [concrete_edge objC|concrete_edge objD]. Qed.

Lemma main_heap_scenario : scenario_outcome.
Proof.
  split; [apply main_heap_reached|].
  split; [by vm_compute|].
  split; [exists pa; eexists; by vm_compute|].
  split; [concrete_edge objA|].
  split; [apply main_heap_cycle|].
  split; [by vm_compute|].
  eexists. split; [vm_compute; reflexivity|]. split; by vm_compute.
Qed.

(** C2, as amended.  From a well-formed state in which every registered
    record that no root reaches has a finalizer bound, one collection
    frees every cycle of records that no root reaches; and the scenario of
    [main] ends with [C] and [D] freed and [A] and [B] registered. *)
Theorem cycle_reclamation :
  (∀ s, wf s →
        (∀ a i, objects s !! a = Some i → ¬ reachable s a →
                is_Some (ObjectInfo.destroy i)) →
        cycles_reclaimed s) ∧
  scenario_outcome.
Proof.
  split; [|apply main_heap_scenario].
  intros s Hwf Hfin l Hcycle Hunreach.
  destruct (CollectGarbage_spec s Hwf) as (sm & _ & _ & _ & _ & Hdone & _).
  destruct (Hdone Hfin) as (s' & Hrun & _).
  destruct (CollectGarbage_reachability s s' Hwf Hrun) as (new & Htr & Hall).
  exists s', new. split; [done|]. split; [done|].
  intros a Ha. apply Hall; [|by apply Hunreach].
  destruct l as [|b l]; [done|]. by eapply linked_registered.
Qed.

Lemma main_heap_cycle_unreachable :
  ∀ a, a ∈ [objC; objD] → ¬ reachable main_heap a.
Proof.
  assert (mark_roots (mark_fuel (flipped main_heap)) (flipped main_heap)
          = Done main_heap_marked) as Hmark by (vm_compute; reflexivity).
  intros a Ha. apply (unreachable_by_marking _ _ a wf_main_heap Hmark).
  apply elem_of_cons in Ha as [->|Ha]; [by vm_compute|].
  apply list_elem_of_singleton in Ha as ->. by vm_compute.
Qed.

Lemma cycle_reclamation_witness :
  wf main_heap ∧
  (∀ a i, objects main_heap !! a = Some i → ¬ reachable main_heap a →
          is_Some (ObjectInfo.destroy i)) ∧
  cycle main_heap [objC; objD] ∧
  (∀ a, a ∈ [objC; objD] → ¬ reachable main_heap a) ∧
  ∃ s' new, CollectGarbage main_heap = Done s' ∧
            trace s' = trace main_heap ++ new ∧
            ∀ a, a ∈ [objC; objD] →
                 objects s' !! a = None ∧
                 tally (releases a) new = 1%nat ∧
                 tally (finalizes a) new = 1%nat.
Proof.
  assert (∀ a i, objects main_heap !! a = Some i → ¬ reachable main_heap a →
                 is_Some (ObjectInfo.destroy i)) as Hfin
    by (intros a i Hi _; exact (main_heap_finalizers a i Hi)).
  split; [exact wf_main_heap|]. split; [exact Hfin|].
  split; [exact main_heap_cycle|]. split; [exact main_heap_cycle_unreachable|].
  exact (proj1 cycle_reclamation main_heap wf_main_heap Hfin [objC; objD]
           main_heap_cycle main_heap_cycle_unreachable).
Defined.

(** C2 as stated, for every cycle that no root reaches, fails: in
    [cluttered_heap] the cycle of [C] and [D] is unreachable, and the
    collection stops at the null finalizer of the record at 500, the first
    the sweep visits, with [C] and [D] still in the table. *)
Lemma cycle_reclamation_counterexample :
  wf cluttered_heap ∧ cycle cluttered_heap [objC; objD] ∧
  (∀ a, a ∈ [objC; objD] → ¬ reachable cluttered_heap a) ∧
  CollectGarbage cluttered_heap = Fatal ∧
  ¬ cycles_reclaimed cluttered_heap.
Proof.
  assert (wf cluttered_heap) as Hwf.
  { apply (wf_reachable cluttered_calls). vm_compute. reflexivity. }
  assert (cycle cluttered_heap [objC; objD]) as Hcycle
    by (split; [concrete_edge objC|concrete_edge objD]).
  assert (∀ a, a ∈ [objC; objD] → ¬ reachable cluttered_heap a) as Hun.
  { assert (mark_roots (mark_fuel (flipped cluttered_heap)) (flipped cluttered_heap)
            = Done cluttered_heap_marked) as Hmark by (vm_compute; reflexivity).
    intros a Ha. apply (unreachable_by_marking _ _ a Hwf Hmark).
    apply elem_of_cons in Ha as [->|Ha]; [by vm_compute|].
    apply list_elem_of_singleton in Ha as ->. by vm_compute. }
  assert (CollectGarbage cluttered_heap = Fatal) as Hrun by (vm_compute; reflexivity).
  repeat (split; [done|]).
  intros Hrec. destruct (Hrec _ Hcycle Hun) as (s' & new & Hdone & _). congruence.
Qed.

(** ** The fatal path *)

(** C3.  From a well-formed state the mark phase completes, in a state
    [sm]; the records the sweep visits are those of [freeObjects sm], the
    registered records no root reaches.  The collection ends in the fatal
    call of a null finalizer exactly when one of them has no finalizer
    bound — such a record is never passed over — and completes when all
    of them have one. *)
Theorem fatal_iff_unbound_finalizer s :
  wf s →
  ∃ sm, mark_roots (mark_fuel (flipped s)) (flipped s) = Done sm ∧
        (∀ a, a ∈ freeObjects sm ↔ is_Some (objects s !! a) ∧ ¬ reachable s a) ∧
        (CollectGarbage s = Fatal ↔
         ∃ a i, a ∈ freeObjects sm ∧ objects sm !! a = Some i ∧
                ObjectInfo.destroy i = None) ∧
        ((∀ a i, a ∈ freeObjects sm → objects sm !! a = Some i →
                 is_Some (ObjectInfo.destroy i)) →
         ∃ s', CollectGarbage s = Done s').
Proof.
  intros Hwf.
  destruct (CollectGarbage_spec s Hwf) as (sm & Hrun & Hrem & _ & Hfree & Hdone & Hfatal).
  exists sm. split; [done|]. split; [done|].
  assert (∀ a i, objects sm !! a = Some i →
                 ∃ i0, objects s !! a = Some i0 ∧
                       ObjectInfo.destroy i = ObjectInfo.destroy i0) as Hback.
  { intros a i Hi. destruct (remark_shape _ _ _ _ Hrem Hi) as (i0 & Hi0 & _ & _ & _ & Hd).
    eauto. }
  assert (∀ a i0, objects s !! a = Some i0 →
                  ∃ i, objects sm !! a = Some i ∧
                       ObjectInfo.destroy i = ObjectInfo.destroy i0) as Hfwd.
  { intros a i0 Hi0.
    destruct (remark_lookup_fwd (flipped s) sm a i0 Hrem Hi0) as (i & Hi & [->| ->]); eauto. }
  assert ((∀ a i, a ∈ freeObjects sm → objects sm !! a = Some i →
                  is_Some (ObjectInfo.destroy i)) →
          ∃ s', CollectGarbage s = Done s') as Hcomplete.
  { intros Hall. destruct Hdone as (s' & Hs' & _); [|eauto].
    intros a i0 Hi0 Ha. destruct (Hfwd a i0 Hi0) as (i & Hi & <-).
    apply (Hall a i); [|done]. apply Hfree. eauto. }
  split; [|done]. split.
  - intros Hf.
    destruct (decide (Exists (λ a, objects sm !! a ≫= ObjectInfo.destroy = None)
                        (freeObjects sm))) as [Hex|Hno].
    + apply Exists_exists in Hex as (a & Ha & Hd).
      pose proof Ha as Hreg. apply Hfree in Hreg as [[i0 Hi0] _].
      destruct (Hfwd a i0 Hi0) as (i & Hi & _). rewrite Hi in Hd. eauto.
    + destruct Hcomplete as [s' Hs']; [|congruence].
      intros a i Ha Hi. destruct (ObjectInfo.destroy i) eqn:Hd; [eauto|].
      exfalso. apply Hno, Exists_exists. exists a. split; [done|].
      by rewrite Hi.
  - intros (a & i & Ha & Hi & Hd). apply Hfatal.
    destruct (Hback a i Hi) as (i0 & Hi0 & Hd0). exists a, i0.
    split; [done|]. split; [by apply Hfree|congruence].
Qed.

Lemma fatal_iff_unbound_finalizer_witness :
  wf orphan_heap ∧
  ∃ sm, mark_roots (mark_fuel (flipped orphan_heap)) (flipped orphan_heap) = Done sm ∧
        (∀ a, a ∈ freeObjects sm ↔
              is_Some (objects orphan_heap !! a) ∧ ¬ reachable orphan_heap a) ∧
        (CollectGarbage orphan_heap = Fatal ↔
         ∃ a i, a ∈ freeObjects sm ∧ objects sm !! a = Some i ∧
                ObjectInfo.destroy i = None) ∧
        ((∀ a i, a ∈ freeObjects sm → objects sm !! a = Some i →
                 is_Some (ObjectInfo.destroy i)) →
         ∃ s', CollectGarbage orphan_heap = Done s').
Proof.
  split; [exact wf_orphan_heap|].
  exact (fatal_iff_unbound_finalizer orphan_heap wf_orphan_heap).
Defined.

(** ** Handle invalidation *)

(** C4.  Let [h] be a live handle bound to the record at [a] in a
    consistent state.  After [operator delete] of [a], after the sweep
    turn that removes [a], and after a completed collection that removed
    [a], the record is out of the table and [h], if it is still alive,
    answers [IsValid() = false] and has a null target and a null record
    pointer. *)
Theorem handle_invalidation s a h p :
  consistent s → handles s !! h = Some p → IPtr.info p = Some a →
  ∀ s', operator_delete a s = Done s' ∨ sweep_one a s = Done s' ∨
        (wf s ∧ CollectGarbage s = Done s' ∧ objects s' !! a = None) →
        objects s' !! a = None ∧
        ∀ p', handles s' !! h = Some p' →
              IPtr.IsValid p' = false ∧ IPtr.object p' = 0 ∧ IPtr.info p' = None.
Proof.
  intros Hs Hp Ha s' Hcase.
  destruct (c_bound _ Hs _ _ _ Hp Ha) as (i & Hi & Hin).
  assert (∀ p', p' = IPtr.MarkInvalid p →
                IPtr.IsValid p' = false ∧ IPtr.object p' = 0 ∧ IPtr.info p' = None)
    as Hinvalid by (by intros p' ->).
  destruct Hcase as [Hrun|[Hrun|(Hwf & Hrun & Hgone)]].
  - unfold operator_delete in Hrun. rewrite Hi in Hrun.
    set (s1 := set_allocatedBytes _ s) in Hrun.
    destruct (drop_record_spec s1 a i) as (s2 & Hloop & Ho & _ & _ & _ & _ & Hh & _);
      [by apply (consistent_ext s)|done|].
    rewrite Hloop in Hrun. injection Hrun as <-. simpl. split.
    + apply lookup_delete_eq.
    + intros p'. rewrite Hh. simpl. rewrite Hp. simpl.
      rewrite decide_True by done. intros [= <-]. by apply Hinvalid.
  - destruct (ObjectInfo.destroy i) as [T|] eqn:Hd.
    2:{ by rewrite (sweep_one_Fatal s a i) in Hrun. }
    destruct (sweep_one_spec s a i T Hs Hi Hd)
      as (s'' & Hrun' & _ & _ & _ & _ & Hgone & _ & Hh).
    assert (s'' = s') as -> by congruence. split; [done|].
    intros p'. rewrite Hh, Hp. simpl. rewrite decide_True by done.
    destruct (in_range _ _ _); [done|]. intros [= <-]. by apply Hinvalid.
  - split; [done|]. intros p' Hp'.
    destruct (CollectGarbage_Done s s' Hwf Hrun) as (sm & Hrem & _ & _ & _ & Hsw).
    destruct (sw_handle _ _ _ Hsw h p' Hp') as (q & Hq & Hcase).
    rewrite (remark_handles _ _ Hrem) in Hq. simpl in Hq.
    assert (q = p) as -> by congruence.
    destruct Hcase as [[_ ->]|[Hnone ->]]; [by apply Hinvalid|].
    exfalso. destruct (decide (a ∈ freeObjects sm)) as [Hfree|Hfree].
    + by apply (Hnone a).
    + pose proof (sw_kept _ _ _ Hsw a Hfree) as Hk. rewrite Hgone in Hk.
      destruct (remark_lookup_fwd (flipped s) sm a i Hrem Hi) as (i' & Hi' & _).
      by rewrite Hi' in Hk.
Qed.

Lemma handle_invalidation_witness :
  consistent main_heap ∧
  handles main_heap !! objD = Some (IPtr.mk objC (Some objC) false tC) ∧
  objects main_heap_C_deleted !! objC = None ∧
  ∀ p', handles main_heap_C_deleted !! objD = Some p' →
        IPtr.IsValid p' = false ∧ IPtr.object p' = 0 ∧ IPtr.info p' = None.
Proof.
  assert (consistent main_heap) as Hc by exact (proj1 wf_main_heap).
  assert (handles main_heap !! objD = Some (IPtr.mk objC (Some objC) false tC))
    as Hp by (vm_compute; reflexivity).
  assert (operator_delete objC main_heap = Done main_heap_C_deleted)
    as Hrun by (vm_compute; reflexivity).
  split; [exact Hc|]. split; [exact Hp|].
  exact (handle_invalidation main_heap objC objD _ Hc Hp eq_refl
           main_heap_C_deleted (or_introl Hrun)).
Defined.

(** ** Two collections in a row *)

(** What survives a collection was reachable, and stays reachable when
    the sweep destroyed no root handle. *)
Lemma survivors_reachable s s1 :
  wf s → roots_outside_garbage s → CollectGarbage s = Done s1 →
  ∀ b, is_Some (objects s1 !! b) → reachable s1 b.
Proof.
  intros Hwf Hroots Hrun b [i1 Hi1].
  pose proof Hwf as [Hs _].
  destruct (CollectGarbage_Done s s1 Hwf Hrun) as (sm & Hrem & Hmk & Hfree & _ & Hsw).
  assert (∀ x, reachable s x → x ∉ freeObjects sm) as Hsurv.
  { intros x Hx Hin. apply Hfree in Hin as [_ Hin]. done. }
  assert (∀ x, reachable s x →
               ∃ i j, objects s !! x = Some i ∧ objects s1 !! x = Some j ∧
                      ObjectInfo.size j = ObjectInfo.size i) as Hkept.
  { intros x Hx. apply Hmk in Hx as Hm. destruct Hm as (im & Him & _).
    destruct (remark_shape _ _ _ _ Hrem Him) as (i & Hi & _ & Hsz & _).
    pose proof (sw_kept _ _ _ Hsw x (Hsurv x Hx)) as Hk. rewrite Him in Hk.
    destruct (objects s1 !! x) as [j|] eqn:Hj; [|done]. simpl in Hk.
    apply (inj Some), shape_fields in Hk as (_ & Hsz' & _).
    exists i, j. simpl in Hi. split; [done|]. split; [done|]. congruence. }
  assert (∀ h p y, handles s !! h = Some p → IPtr.info p = Some y →
                   reachable s y →
                   (∀ a i, a ∈ freeObjects sm → objects s !! a = Some i →
                           ¬ (a ≤ h < a + ObjectInfo.size i)) →
                   handles s1 !! h = Some p) as Halive.
  { intros h p y Hp Hy Hry Hout.
    assert (handles sm !! h = Some p) as Hpm
      by (by rewrite (remark_handles _ _ Hrem)).
    destruct (sw_alive _ _ _ Hsw h p Hpm) as [p' Hp'].
    { intros a im Ha Him.
      destruct (remark_shape _ _ _ _ Hrem Him) as (i & Hi & _ & -> & _). eauto. }
    destruct (sw_handle _ _ _ Hsw h p' Hp') as (q & Hq & Hcase).
    assert (q = p) as -> by congruence.
    destruct Hcase as [[(a & Ha & Hpa) _]|[_ ->]]; [|done].
    exfalso. apply (Hsurv y Hry). congruence. }
  assert (marked sm b) as Hb.
  { destruct (unmarked sm b) eqn:Hu.
    - apply elem_of_freeObjects in Hu.
      by rewrite (sw_gone _ _ _ Hsw b Hu) in Hi1.
    - apply unmarked_marked; [|done].
      destruct (decide (b ∈ freeObjects sm)) as [Hin|Hin].
      + by rewrite (sw_gone _ _ _ Hsw b Hin) in Hi1.
      + pose proof (sw_kept _ _ _ Hsw b Hin) as Hk. rewrite Hi1 in Hk.
        destruct (objects sm !! b); [eauto|done]. }
  apply Hmk in Hb as (r & Hroot & Hpath).
  exists r. split.
  - destruct Hroot as (h & p & Hp & Hr & Hpr). exists h, p.
    split; [|done]. apply (Halive h p r Hp Hpr).
    + exists r. split; [by exists h, p|done].
    + intros a i Ha Hi Hin. apply Hfree in Ha as [_ Ha]. apply Ha.
      apply (Hroots h p a); [done..|by rewrite Hpr|by exists i].
  - assert (reachable s r) as Hr.
    { exists r. split; [done|]. done. }
    clear Hroot. induction Hpath as [x|x y z Hxy Hyz IH]; [done|].
    assert (reachable s y) as Hy.
    { destruct Hr as (r0 & Hr0 & Hp0). exists r0. split; [done|].
      eapply rtc_r; done. }
    eapply rtc_l; [|by apply IH].
    destruct Hxy as (h & p & Hp & (i & Hi & Hin) & Hpy).
    destruct (Hkept x Hr) as (i' & j & Hi' & Hj & Hsz).
    assert (i' = i) as -> by congruence.
    exists h, p. split; [|split; [|done]].
    + apply (Halive h p y Hp Hpy Hy). intros a ia Ha Hia Hina.
      assert (a = x) as -> by (by eapply (c_disjoint _ Hs a x ia i h)).
      by apply (Hsurv x Hr).
    + exists j. split; [done|]. by rewrite Hsz.
Qed.

(** A collection from a state whose records are all reachable: it is the
    mark phase, and the sweep has nothing to visit. *)
Lemma CollectGarbage_all_reachable s :
  wf s → (∀ a, is_Some (objects s !! a) → reachable s a) →
  ∃ s', CollectGarbage s = Done s' ∧ remark (flipped s) s'.
Proof.
  intros Hwf Hall.
  destruct (CollectGarbage_spec s Hwf) as (sm & Hrun & Hrem & _ & Hfree & _).
  assert (freeObjects sm = []) as Hnil.
  { destruct (freeObjects sm) as [|a l]; [done|]. exfalso.
    assert (a ∈ a :: l) as Ha by (apply elem_of_cons; auto).
    apply Hfree in Ha as [Hreg Hun]. auto. }
  exists sm. split; [|done].
  rewrite CollectGarbage_unfold, Hrun. simpl. unfold sweep. by rewrite Hnil.
Qed.

Lemma remark_dom s s' : remark s s' → dom (objects s') = dom (objects s).
Proof.
  intros Hr. apply set_eq. intros a. rewrite !elem_of_dom, <- !not_eq_None_Some.
  by rewrite (remark_None _ _ a Hr).
Qed.

(** C5, as amended.  From a well-formed state in which no bound root
    handle is stored inside a record that no root reaches, when a
    collection has completed, a second one right after it completes,
    leaves the same records in the table and releases and finalizes
    nothing. *)
Theorem collect_idempotent s :
  wf s → roots_outside_garbage s → second_collection_idle s.
Proof.
  intros Hwf Hroots s1 Hrun.
  pose proof (wf_CollectGarbage s s1 Hwf Hrun) as Hwf1.
  destruct (CollectGarbage_all_reachable s1 Hwf1) as (s2 & Hrun2 & Hrem).
  { by apply (survivors_reachable s). }
  exists s2. split; [done|]. split.
  - by rewrite (remark_dom _ _ Hrem).
  - by destruct Hrem as (_ & _ & _ & _ & -> & _).
Qed.

(** Deciding the hypotheses on a given state. *)
Lemma roots_outside_records s :
  map_Forall (λ h p, IPtr.IsRoot p = true →
                map_Forall (λ a i, ¬ (a ≤ h < a + ObjectInfo.size i)) (objects s))
             (handles s) →
  roots_outside_garbage s.
Proof.
  intros Hall h p a Hp Hroot _ (i & Hi & Hin).
  exfalso. by apply (Hall h p Hp Hroot a i Hi).
Qed.

Lemma collect_idempotent_witness :
  wf main_heap ∧ roots_outside_garbage main_heap ∧
  second_collection_idle main_heap.
Proof.
  assert (roots_outside_garbage main_heap) as Hroots
    by (apply roots_outside_records, (bool_decide_unpack _); vm_compute; exact I).
  split; [exact wf_main_heap|]. split; [exact Hroots|].
  exact (collect_idempotent main_heap wf_main_heap Hroots).
Defined.

(** C5 as stated, for every heap state, fails: from [embedded_root_heap]
    both collections complete and the second removes and releases the
    record at 2000. *)
Lemma collect_idempotent_counterexample :
  wf embedded_root_heap ∧
  CollectGarbage embedded_root_heap = Done embedded_root_heap_1 ∧
  CollectGarbage embedded_root_heap_1 = Done embedded_root_heap_2 ∧
  is_Some (objects embedded_root_heap_1 !! 2000) ∧
  objects embedded_root_heap_2 !! 2000 = None ∧
  trace embedded_root_heap_2 =
    trace embedded_root_heap_1 ++ [Finalize tY 2000; Release 2000] ∧
  ¬ second_collection_idle embedded_root_heap.
Proof.
  assert (CollectGarbage embedded_root_heap = Done embedded_root_heap_1) as H1
    by (vm_compute; reflexivity).
  assert (CollectGarbage embedded_root_heap_1 = Done embedded_root_heap_2) as H2
    by (vm_compute; reflexivity).
  split.
  { apply (wf_reachable embedded_root_calls). vm_compute. reflexivity. }
  split; [done|]. split; [done|]. split; [by eexists|].
  split; [by vm_compute|]. split; [by vm_compute|].
  intros Hidle. destruct (Hidle _ H1) as (s2 & Hs2 & _ & Htr).
  assert (s2 = embedded_root_heap_2) as -> by congruence.
  vm_compute in Htr. discriminate.
Qed.

(** ** The handle registry *)

Lemma registered_once_same s s' :
  pointers s' = pointers s →
  (∀ h, is_Some (handles s' !! h) ↔ is_Some (handles s !! h)) →
  registered_once s → registered_once s'.
Proof.
  intros Hp Hh [Hnd Hreg]. split; rewrite Hp; [done|].
  intros h. by rewrite Hh.
Qed.

Lemma registered_once_push this p s :
  handles s !! this = None → registered_once s →
  ∀ s', pointers s' = pointers s ++ [this] →
        handles s' = <[this := p]> (handles s) → registered_once s'.
Proof.
  intros Hthis [Hnd Hreg] s' Hp Hh. split; rewrite Hp.
  - apply NoDup_app. split; [done|]. split; [|apply NoDup_singleton].
    intros h Hin. rewrite list_elem_of_singleton. intros ->.
    apply Hreg in Hin as [? ?]. congruence.
  - intros h. rewrite Hh, elem_of_app, list_elem_of_singleton, Hreg.
    destruct (decide (this = h)) as [<-|Hne].
    + rewrite lookup_insert_eq. split; eauto.
    + rewrite lookup_insert_ne by done. split; [intros [?|?]; [done|congruence]|auto].
Qed.

Lemma detach_frame this s s1 :
  detach this s = Done s1 →
  pointers s1 = pointers s ∧ handles s1 = handles s ∧ is_Some (handles s !! this).
Proof.
  unfold detach. destruct (handles s !! this) as [p|]; [|done].
  destruct (IPtr.info p) as [a|]; [|intros [= <-]; eauto].
  destruct (objects s !! a); [|done]. intros [= <-]. eauto.
Qed.

Lemma Ptr_destroy_frame this s s' :
  Ptr_destroy this s = Done s' →
  pointers s' = erase_first this (pointers s) ∧
  handles s' = delete this (handles s) ∧ is_Some (handles s !! this).
Proof.
  unfold Ptr_destroy. intros Hrun. apply bind_Done in Hrun as (s1 & Hdet & Hrun).
  apply detach_frame in Hdet as (Hp & Hh & Hthis). injection Hrun as <-.
  simpl. by rewrite Hp, Hh.
Qed.

Lemma registered_once_Ptr_destroy this s s' :
  Ptr_destroy this s = Done s' → registered_once s → registered_once s'.
Proof.
  intros Hrun [Hnd Hreg]. apply Ptr_destroy_frame in Hrun as (Hp & Hh & _).
  split; rewrite Hp; [by apply erase_first_NoDup|].
  intros h. rewrite Hh, elem_of_erase_first, Hreg by done.
  destruct (decide (this = h)) as [<-|Hne].
  - rewrite lookup_delete_eq. split; [tauto|]. by intros [? ?].
  - rewrite lookup_delete_ne by done. split; [tauto|]. split; [done|congruence].
Qed.

Lemma registered_once_invalidate ptr s s' :
  invalidate ptr s = Done s' → registered_once s → registered_once s'.
Proof.
  unfold invalidate. destruct (handles s !! ptr) as [p|] eqn:Hp; [|done].
  intros [= <-]. apply registered_once_same; [done|]. intros h. simpl.
  destruct (decide (ptr = h)) as [<-|Hne].
  - rewrite lookup_insert_eq, Hp. split; eauto.
  - by rewrite lookup_insert_ne.
Qed.

Lemma registered_once_for_each {A} (body : A → Heap → outcome Heap) l s s' :
  (∀ x t t', body x t = Done t' → registered_once t → registered_once t') →
  for_each body l s = Done s' → registered_once s → registered_once s'.
Proof.
  intros Hbody Hrun Hs. revert Hrun.
  apply (for_each_ind (λ _ t, registered_once t)); [done|]. eauto.
Qed.

Lemma registered_once_sweep_one obj s s' :
  sweep_one obj s = Done s' → registered_once s → registered_once s'.
Proof.
  unfold sweep_one. destruct (objects s !! obj) as [i|]; [|done].
  destruct (ObjectInfo.destroy i) as [T|]; [|done]. intros Hrun Hs.
  apply bind_Done in Hrun as (s2 & Hd & Hrun). simpl in Hrun.
  destruct (objects s2 !! obj) as [i'|]; [|done].
  apply bind_Done in Hrun as (s4 & Hinv & Hrun). injection Hrun as <-.
  apply (registered_once_same s4); [done..|].
  eapply registered_once_for_each; [apply registered_once_invalidate|exact Hinv|].
  apply (registered_once_same s2); [done..|].
  eapply registered_once_for_each; [apply registered_once_Ptr_destroy|exact Hd|].
  by apply (registered_once_same s).
Qed.

Lemma mark_roots_remark n s s' : mark_roots n s = Done s' → remark s s'.
Proof.
  unfold mark_roots. apply (for_each_ind (λ _ t, remark s t)); [apply remark_refl|].
  intros pre h t t' Ht _. unfold mark_root.
  repeat case_match; try done; try (by intros [= <-]).
  intros Hrun. apply MarkObject_remark in Hrun as [? _]. by eapply remark_trans.
Qed.

Lemma registered_once_CollectGarbage s s' :
  CollectGarbage s = Done s' → registered_once s → registered_once s'.
Proof.
  rewrite CollectGarbage_unfold. intros Hrun Hs.
  apply bind_Done in Hrun as (sm & Hmark & Hsweep).
  apply mark_roots_remark in Hmark as (Hp & _ & _ & Hh & _).
  eapply registered_once_for_each; [apply registered_once_sweep_one|exact Hsweep|].
  apply (registered_once_same s); [done| |done]. intros h. by rewrite Hh.
Qed.

Lemma registered_once_assign s s1 s' this p :
  detach this s = Done s1 → pointers s' = pointers s1 →
  handles s' = <[this := p]> (handles s1) →
  registered_once s → registered_once s'.
Proof.
  intros Hdet Hp Hh. apply detach_frame in Hdet as (Hp1 & Hh1 & [q Hq]).
  apply registered_once_same; [congruence|]. intros h. rewrite Hh, Hh1.
  destruct (decide (this = h)) as [<-|Hne].
  - rewrite lookup_insert_eq, Hq. split; eauto.
  - by rewrite lookup_insert_ne.
Qed.

Lemma registered_once_run c s s' :
  possible c s → run c s = Done s' → registered_once s → registered_once s'.
Proof.
  intros Hpos Hrun Hs. destruct c; simpl in *.
  - injection Hrun as <-. by apply (registered_once_same s).
  - unfold operator_delete in Hrun. destruct (objects s !! data) as [i|].
    + apply bind_Done in Hrun as (s2 & Hinv & Hrun). injection Hrun as <-.
      apply (registered_once_same s2); [done..|].
      eapply registered_once_for_each; [apply registered_once_invalidate|exact Hinv|].
      by apply (registered_once_same s).
    + injection Hrun as <-. by apply (registered_once_same s).
  - injection Hrun as <-. by eapply registered_once_push.
  - injection Hrun as <-. unfold Ptr_raw.
    destruct (objects s !! object); by eapply registered_once_push.
  - unfold Ptr_copy in Hrun. destruct (handles s !! other) as [o|]; [|done].
    destruct (IPtr.info o) as [a|].
    + destruct (objects s !! a); [|done]. injection Hrun as <-.
      by eapply registered_once_push.
    + injection Hrun as <-. by eapply registered_once_push.
  - by eapply registered_once_Ptr_destroy.
  - unfold Ptr_assign in Hrun. apply bind_Done in Hrun as (s1 & Hdet & Hrun).
    destruct (handles s1 !! this) as [p|]; [|done].
    destruct (handles s1 !! other) as [o|]; [|done].
    destruct (IPtr.info o) as [a|].
    + simpl in Hrun. destruct (objects s1 !! a); [|done]. injection Hrun as <-.
      by eapply registered_once_assign.
    + injection Hrun as <-. by eapply registered_once_assign.
  - unfold Ptr_assign_raw in Hrun. apply bind_Done in Hrun as (s1 & Hdet & Hrun).
    destruct (handles s1 !! this) as [p|]; [|done].
    destruct (objects s1 !! other); injection Hrun as <-;
      by eapply registered_once_assign.
  - by eapply registered_once_CollectGarbage.
Qed.

Lemma registered_once_count s :
  registered_once s → length (pointers s) = size (handles s).
Proof.
  intros [Hnd Hreg]. rewrite <- keys_length. apply Permutation_length.
  apply NoDup_Permutation; [done|apply keys_NoDup|].
  intros h. by rewrite Hreg, elem_of_keys.
Qed.

Lemma constructs_push c this s s' :
  constructs c = Some this → run c s = Done s' →
  pointers s' = pointers s ++ [this] ∧
  ∃ p, handles s' = <[this := p]> (handles s).
Proof.
  destruct c; simpl; try done; intros [= ->].
  - intros [= <-]. eauto.
  - intros [= <-]. unfold Ptr_raw. destruct (objects s !! object); simpl; eauto.
  - unfold Ptr_copy. destruct (handles s !! other) as [o|]; [|done].
    destruct (IPtr.info o) as [a|].
    + destruct (objects s !! a); [|done]. intros [= <-]. simpl. eauto.
    + intros [= <-]. simpl. eauto.
Qed.

(** C6.  In every state a program can reach from the initial one, the
    registry lists exactly the handles that have been constructed and not
    destroyed, each once, bound or not, so its length is their number;
    each of the three constructors appends the new handle and nothing
    else, and the destructor takes out that handle's entry and nothing
    else. *)
Theorem registration_symmetry s :
  rtc step initial s →
  NoDup (pointers s) ∧
  (∀ h, h ∈ pointers s ↔ is_Some (handles s !! h)) ∧
  length (pointers s) = size (handles s) ∧
  (∀ c this s', constructs c = Some this → possible c s → run c s = Done s' →
     pointers s' = pointers s ++ [this] ∧
     dom (handles s') = {[this]} ∪ dom (handles s) ∧
     length (pointers s') = S (length (pointers s))) ∧
  (∀ this s', Ptr_destroy this s = Done s' →
     this ∈ pointers s ∧ (this ∉ pointers s') ∧
     pointers s' = erase_first this (pointers s) ∧
     dom (handles s') = dom (handles s) ∖ {[this]} ∧
     S (length (pointers s')) = length (pointers s) ∧
     ∀ h, h ≠ this → (h ∈ pointers s' ↔ h ∈ pointers s)).
Proof.
  intros Hreach.
  assert (registered_once s) as Hs.
  { revert s Hreach. apply (rtc_ind_r registered_once).
    - split; [apply NoDup_nil_2|]. intros h. simpl. rewrite lookup_empty.
      split; [intros H; by apply elem_of_nil in H|by intros [? ?]].
    - intros s2 s3 _ [c s3' Hpos Hrun] IH. by eapply registered_once_run. }
  pose proof Hs as [Hnd Hreg].
  split; [done|]. split; [done|]. split; [by apply registered_once_count|]. split.
  - intros c this s' Hc Hpos Hrun.
    destruct (constructs_push c this s s' Hc Hrun) as (Hp & p & Hh).
    split; [done|]. split; [by rewrite Hh, dom_insert_L|].
    rewrite Hp, length_app. simpl. lia.
  - intros this s' Hrun. apply Ptr_destroy_frame in Hrun as (Hp & Hh & Hthis).
    apply Hreg in Hthis. rewrite Hp.
    split; [done|]. split; [by apply erase_first_gone|]. split; [done|].
    split; [by rewrite Hh, dom_delete_L|]. split; [by apply erase_first_length|].
    intros h Hne. rewrite elem_of_erase_first by done. tauto.
Qed.

Lemma registration_symmetry_witness :
  rtc step initial main_heap ∧
  length (pointers main_heap) = size (handles main_heap).
Proof.
  assert (rtc step initial main_heap) as Hreach
    by (apply (exec_steps main_calls); vm_compute; reflexivity).
  split; [exact Hreach|].
  destruct (registration_symmetry main_heap Hreach) as (_ & _ & Hlen & _).
  exact Hlen.
Defined.

(** ** Records are born unmarked *)





(** ** Handles to addresses that are not in the table *)

(** Assignment of an unknown raw address: the target is the address, the
    record pointer is null. *)
Lemma Ptr_assign_raw_unknown this other s s' :
  objects s !! other = None → Ptr_assign_raw this other s = Done s' →
  ∃ p', handles s' !! this = Some p' ∧ IPtr.object p' = other ∧
        IPtr.info p' = None ∧ IPtr.IsValid p' = negb (other =? 0).
Proof.
  intros Hother Hrun. unfold Ptr_assign_raw in Hrun.
  apply bind_Done in Hrun as (s1 & Hdet & Hrun).
  assert (objects s1 !! other = None) as Hother1.
  { unfold detach in Hdet. destruct (handles s !! this) as [p|]; [|done].
    destruct (IPtr.info p) as [a|]; [|by injection Hdet as <-].
    destruct (objects s !! a) eqn:Ha; [|done]. injection Hdet as <-. simpl.
    rewrite lookup_insert_ne; [done|congruence]. }
  destruct (handles s1 !! this) as [p|]; [|done]. rewrite Hother1 in Hrun.
  injection Hrun as <-. eexists. simpl. by rewrite lookup_insert_eq.
Qed.

(** Construction from an unknown raw address: the target is the
    address, the record pointer is whatever the storage held. *)
Lemma Ptr_raw_unknown root T this object stale s :
  objects s !! object = None →
  handles (Ptr_raw root T this object stale s) !! this =
    Some (IPtr.mk object stale root T).
Proof. intros Hobj. unfold Ptr_raw. rewrite Hobj. simpl. apply lookup_insert_eq. Qed.

(** C8.  [Ptr(T* object)] with an address that is not in the table
    writes [object] and leaves [info] as the storage had it: a handle
    built at address 8 over storage whose [info] bytes held 4096 has that
    value as its record pointer, and its destructor then reads through
    it.  The assignment [operator=(T* other)] on a default-constructed
    handle does write null. *)
Theorem Ptr_raw_leaves_info_unwritten :
  let s := Ptr_raw false tA 8 objA (Some 4096) initial in
  objects initial !! objA = None ∧
  handles s !! 8 = Some (IPtr.mk objA (Some 4096) false tA) ∧
  Ptr_destroy 8 s = Undefined ∧
  ∃ s', Ptr_assign_raw 8 objA (Ptr_default false tA 8 initial) = Done s' ∧
        handles s' !! 8 = Some (IPtr.mk objA None false tA).
Proof.
  repeat split. eexists. split; reflexivity.
Qed.

(** ** Explicit deallocation of an unknown address *)

(** C9.  [operator delete] on an address that is not in the table
    completes as a plain [free]: the table, the handle registry, the byte
    counter and every live handle are as before, and the only thing that
    happened is the release of the address. *)
Theorem operator_delete_unknown data s :
  objects s !! data = None →
  ∃ s', operator_delete data s = Done s' ∧
        objects s' = objects s ∧ pointers s' = pointers s ∧
        allocatedBytes s' = allocatedBytes s ∧ handles s' = handles s ∧
        currentMark s' = currentMark s ∧
        trace s' = trace s ++ [Release data].
Proof.
  intros Hdata. unfold operator_delete. rewrite Hdata. by eexists.
Qed.

Lemma operator_delete_unknown_witness :
  objects (Ptr_default false tA 8 initial) !! 4096 = None ∧
  ∃ s', operator_delete 4096 (Ptr_default false tA 8 initial) = Done s' ∧
        objects s' = objects (Ptr_default false tA 8 initial) ∧
        pointers s' = [8] ∧ allocatedBytes s' = 0 ∧
        handles s' = handles (Ptr_default false tA 8 initial) ∧
        currentMark s' = true ∧ trace s' = [Release 4096].
Proof.
  split; [reflexivity|].
  apply (operator_delete_unknown 4096 (Ptr_default false tA 8 initial)).
  reflexivity.
Defined.

(** ** Termination of a collection *)

Lemma for_each_fuel {A S} (body : A → S → outcome S) l s :
  (∀ x t, body x t ≠ OutOfFuel) → for_each body l s ≠ OutOfFuel.
Proof.
  intros Hbody. apply (for_each_never _ (λ _, True)); [done..|].
  intros x t _ _. split; [apply Hbody|done].
Qed.

Lemma Ptr_destroy_fuel this s : Ptr_destroy this s ≠ OutOfFuel.
Proof. unfold Ptr_destroy, detach. repeat case_match; done. Qed.

Lemma invalidate_fuel ptr s : invalidate ptr s ≠ OutOfFuel.
Proof. unfold invalidate. by case_match. Qed.

Lemma sweep_one_fuel obj s : sweep_one obj s ≠ OutOfFuel.
Proof.
  unfold sweep_one. destruct (objects s !! obj) as [i|]; [|done].
  destruct (ObjectInfo.destroy i) as [T|]; [|done].
  unfold Destroy.
  destruct (for_each Ptr_destroy _ _) as [s2| | |] eqn:Hd; simpl; try done.
  - destruct (objects s2 !! obj) as [i'|]; [|done].
    destruct (for_each invalidate _ _) eqn:Hi; simpl; try done.
    by apply for_each_fuel in Hi; [|apply invalidate_fuel].
  - by apply for_each_fuel in Hd; [|apply Ptr_destroy_fuel].
Qed.

(** Marking with a larger budget gives what marking with a sufficient
    one gave. *)
Lemma for_each_agree {A S} (body body' : A → S → outcome S) l : ∀ s,
  (∀ x t, body x t ≠ OutOfFuel → body' x t = body x t) →
  for_each body l s ≠ OutOfFuel → for_each body' l s = for_each body l s.
Proof.
  induction l as [|x l IH]; intros s Hagree; simpl; [done|].
  destruct (body x s) as [t| | |] eqn:Hx; simpl; intros Hrun;
    rewrite Hagree by congruence; rewrite Hx; simpl; auto.
Qed.

Lemma MarkObject_budget n : ∀ m a s,
  (n ≤ m)%nat → MarkObject n a s ≠ OutOfFuel → MarkObject m a s = MarkObject n a s.
Proof.
  induction n as [|n IH]; intros m a s Hle; simpl; [done|].
  destruct m as [|m]; [lia|]. simpl.
  destruct (objects s !! a) as [i|]; [|done].
  apply for_each_agree. intros h t. unfold scan.
  repeat case_match; try done. apply IH. lia.
Qed.

(** From a well-formed state a collection ends in one of two ways. *)
Lemma CollectGarbage_outcome s :
  wf s → CollectGarbage s = Fatal ∨ ∃ s', CollectGarbage s = Done s'.
Proof.
  intros Hwf.
  destruct (CollectGarbage_spec s Hwf) as (sm & _ & Hrem & _ & Hfree & Hdone & Hfatal).
  destruct (decide (Exists (λ a, objects s !! a ≫= ObjectInfo.destroy = None)
                      (freeObjects sm))) as [Hex|Hno].
  - left. apply Hfatal. apply Exists_exists in Hex as (a & Ha & Hd).
    apply Hfree in Ha as [[i Hi] Hun]. rewrite Hi in Hd. eauto.
  - right. destruct Hdone as (s' & Hs' & _); [|eauto].
    intros a i Hi Hun. destruct (ObjectInfo.destroy i) eqn:Hd; [eauto|].
    exfalso. apply Hno, Exists_exists. exists a. split; [apply Hfree; eauto|].
    by rewrite Hi.
Qed.

(** C10.  A collection terminates from every state: within the budget
    [mark_fuel], one more than the number of records, neither a run of
    [MarkObject] in the mark phase nor the collection as a whole runs out,
    and a larger budget changes nothing; the recursion only enters
    records that do not carry the current mark and marks them on entry.
    From a well-formed state, whatever the shape of the graph, the mark
    phase runs to completion and the collection ends, completed or at
    the null finalizer. *)
Theorem CollectGarbage_terminates s :
  CollectGarbage s ≠ OutOfFuel ∧
  (∀ a t, remark (flipped s) t → MarkObject (mark_fuel (flipped s)) a t ≠ OutOfFuel) ∧
  (∀ n a t, remark (flipped s) t → (mark_fuel (flipped s) ≤ n)%nat →
            MarkObject n a t = MarkObject (mark_fuel (flipped s)) a t) ∧
  (wf s →
   (∃ sm, mark_roots (mark_fuel (flipped s)) (flipped s) = Done sm) ∧
   (CollectGarbage s = Fatal ∨ ∃ s', CollectGarbage s = Done s')).
Proof.
  assert (∀ a t, remark (flipped s) t →
                 MarkObject (mark_fuel (flipped s)) a t ≠ OutOfFuel) as Hmark.
  { intros a t Hrt. unfold mark_fuel.
    apply (MarkObject_fuel _ _ _ (keys (objects (flipped s)))).
    - by rewrite keys_length.
    - intros b _ Hb. apply elem_of_keys. unfold unmarked in Hb.
      destruct (objects t !! b) as [j|] eqn:Hj; [|done].
      destruct (remark_lookup _ _ _ _ Hrt Hj) as (? & ? & _). eauto. }
  split; [|split; [done|split]].
  - rewrite CollectGarbage_unfold.
    destruct (mark_roots _ _) as [sm| | |] eqn:Hroots; simpl; try done.
    + apply for_each_fuel, sweep_one_fuel.
    + unfold mark_roots in Hroots. intros _.
      refine (for_each_never OutOfFuel (λ u, remark (flipped s) u)
                _ _ _ _ _ _ Hroots); [done|apply remark_refl|].
      intros h u Hu _. unfold mark_root. split.
      * repeat case_match; try done. by apply Hmark.
      * intros u'. repeat case_match; try done; try (by intros [= <-]).
        intros Hrun. apply MarkObject_remark in Hrun as [? _].
        by eapply remark_trans.
  - intros n a t Hrt Hle. apply MarkObject_budget; [done|by apply Hmark].
  - intros Hwf. split; [|by apply CollectGarbage_outcome].
    destruct (CollectGarbage_spec s Hwf) as (sm & Hrun & _). eauto.
Qed.

Lemma CollectGarbage_terminates_witness :
  wf cyclic_heap ∧ cycle cyclic_heap [objC; objD] ∧
  (∃ sm, mark_roots (mark_fuel (flipped cyclic_heap)) (flipped cyclic_heap) = Done sm) ∧
  (CollectGarbage cyclic_heap = Fatal ∨ ∃ s', CollectGarbage cyclic_heap = Done s').
Proof.
  assert (wf cyclic_heap) as Hwf
    by (apply (wf_reachable (take 14 main_calls)); vm_compute; reflexivity).
  split; [exact Hwf|].
  split; [split; [concrete_edge objC|concrete_edge objD]|].
  destruct (CollectGarbage_terminates cyclic_heap) as (_ & _ & _ & H).
  exact (H Hwf).
Defined.

(** * Further properties of the operations *)

(** ** Records under the calls on handles *)

Lemma extends_refl i : extends i i.
Proof. by repeat split. Qed.

Lemma extends_trans i1 i2 i3 : extends i1 i2 → extends i2 i3 → extends i1 i3.
Proof.
  intros (? & ? & ? & ? & ? & Hd1) (? & ? & ? & ? & ? & Hd2).
  repeat split; try congruence. auto.
Qed.

Lemma grows_refl m : grows m m.
Proof. intros b. destruct (m !! b); [apply extends_refl|done]. Qed.

Lemma grows_trans m1 m2 m3 : grows m1 m2 → grows m2 m3 → grows m1 m3.
Proof.
  intros H1 H2 b. specialize (H1 b). specialize (H2 b).
  destruct (m1 !! b), (m2 !! b), (m3 !! b); try done. by eapply extends_trans.
Qed.

Lemma grows_insert m a i i' :
  m !! a = Some i → extends i i' → grows m (<[a := i']> m).
Proof.
  intros Hi He b. destruct (decide (a = b)) as [<-|Hne].
  - by rewrite lookup_insert_eq, Hi.
  - rewrite lookup_insert_ne by done. destruct (m !! b); [apply extends_refl|done].
Qed.

Lemma grows_lookup m m' a i :
  grows m m' → m !! a = Some i → ∃ i', m' !! a = Some i' ∧ extends i i'.
Proof.
  intros H Hi. specialize (H a). rewrite Hi in H.
  destruct (m' !! a) as [i'|]; [eauto|done].
Qed.

Lemma grows_lookup_inv m m' a i' :
  grows m m' → m' !! a = Some i' → ∃ i, m !! a = Some i ∧ extends i i'.
Proof.
  intros H Hi'. specialize (H a). rewrite Hi' in H.
  destruct (m !! a) as [i|]; [eauto|done].
Qed.

Lemma extends_set_pointers l i : extends i (ObjectInfo.set_pointers l i).
Proof. by repeat split. Qed.

Lemma extends_attach T this i : extends i (bind_destroy T (attach this i)).
Proof.
  unfold bind_destroy, attach. destruct i as [? ? ? ? ? ? [T0|]]; simpl;
    repeat split; simpl; try done.
Qed.

Lemma detach_grows this s s1 :
  detach this s = Done s1 →
  grows (objects s) (objects s1) ∧ allocatedBytes s1 = allocatedBytes s ∧
  currentMark s1 = currentMark s ∧ trace s1 = trace s.
Proof.
  unfold detach. destruct (handles s !! this) as [p|]; [|done].
  destruct (IPtr.info p) as [a|]; [|intros [= <-]; split; [apply grows_refl|done]].
  destruct (objects s !! a) as [i|] eqn:Hi; [|done]. intros [= <-]. simpl.
  split; [|done]. eapply grows_insert; [done|apply extends_set_pointers].
Qed.

(** A call on a handle changes no record but in its vector and, once, in
    its finalizer; it leaves the byte counter, the mark and the trace. *)
Lemma handle_call_grows c s s' :
  handle_call c = true → run c s = Done s' →
  grows (objects s) (objects s') ∧ allocatedBytes s' = allocatedBytes s ∧
  currentMark s' = currentMark s ∧ trace s' = trace s.
Proof.
  destruct c; simpl; try done; intros _ Hrun.
  - injection Hrun as <-. split; [apply grows_refl|done].
  - injection Hrun as <-. unfold Ptr_raw.
    destruct (objects s !! object) as [i|] eqn:Hi; simpl;
      (split; [|done]); [|apply grows_refl].
    eapply grows_insert; [done|eapply extends_attach].
  - unfold Ptr_copy in Hrun. destruct (handles s !! other) as [o|]; [|done].
    destruct (IPtr.info o) as [a|].
    + destruct (objects s !! a) as [i|] eqn:Hi; [|done]. injection Hrun as <-.
      simpl. split; [|done]. eapply grows_insert; [done|].
      exact (extends_set_pointers _ i).
    + injection Hrun as <-. split; [apply grows_refl|done].
  - unfold Ptr_destroy in Hrun. apply bind_Done in Hrun as (s1 & Hdet & Hrun).
    injection Hrun as <-. simpl. by apply (detach_grows this).
  - unfold Ptr_assign in Hrun. apply bind_Done in Hrun as (s1 & Hdet & Hrun).
    apply (detach_grows this) in Hdet as (Hg & Ha & Hc & Ht).
    destruct (handles s1 !! this) as [p|]; [|done].
    destruct (handles s1 !! other) as [o|]; [|done].
    destruct (IPtr.info o) as [a|].
    + simpl in Hrun. destruct (objects s1 !! a) as [i|] eqn:Hi; [|done].
      injection Hrun as <-. simpl. split; [|done].
      eapply grows_trans; [exact Hg|].
      eapply grows_insert; [done|exact (extends_set_pointers _ i)].
    + by injection Hrun as <-.
  - unfold Ptr_assign_raw in Hrun. apply bind_Done in Hrun as (s1 & Hdet & Hrun).
    apply (detach_grows this) in Hdet as (Hg & Ha & Hc & Ht).
    destruct (handles s1 !! this) as [p|]; [|done].
    destruct (objects s1 !! other) as [i|] eqn:Hi; injection Hrun as <-; simpl;
      (split; [|done]); [|done].
    eapply grows_trans; [exact Hg|].
    eapply grows_insert; [done|eapply extends_attach].
Qed.

(** ** Handles under deallocation and collection *)

Lemma fades_refl hs : fades hs hs.
Proof. intros h p' Hp'. eauto. Qed.

Lemma fades_trans hs1 hs2 hs3 : fades hs1 hs2 → fades hs2 hs3 → fades hs1 hs3.
Proof.
  intros H12 H23 h p3 Hp3. destruct (H23 h p3 Hp3) as (p2 & Hp2 & Hc2).
  destruct (H12 h p2 Hp2) as (p1 & Hp1 & Hc1). exists p1. split; [done|].
  destruct Hc2 as [->| ->], Hc1 as [->| ->]; auto.
Qed.

Lemma invalidate_fades ptr s s' :
  invalidate ptr s = Done s' →
  fades (handles s) (handles s') ∧ objects s' = objects s ∧
  pointers s' = pointers s ∧ same_records s s'.
Proof.
  unfold invalidate. destruct (handles s !! ptr) as [p|] eqn:Hp; [|done].
  intros [= <-]. split; [|done]. intros h p'. simpl.
  destruct (decide (ptr = h)) as [<-|Hne].
  - rewrite lookup_insert_eq. intros [= <-]. eauto.
  - rewrite lookup_insert_ne by done. eauto.
Qed.

Lemma invalidate_all_fades l s s' :
  for_each invalidate l s = Done s' →
  fades (handles s) (handles s') ∧ objects s' = objects s ∧
  pointers s' = pointers s ∧ same_records s s'.
Proof.
  apply (for_each_ind
           (λ _ t, fades (handles s) (handles t) ∧ objects t = objects s ∧
                   pointers t = pointers s ∧ same_records s t)).
  - split; [apply fades_refl|done].
  - intros pre x t t' (Hf & Ho & Hp & Ha & Hc & Ht) _ Hx.
    apply invalidate_fades in Hx as (Hf' & Ho' & Hp' & Ha' & Hc' & Ht').
    split; [by eapply fades_trans|]. unfold same_records.
    repeat split; congruence.
Qed.

Lemma Ptr_destroy_fades this s s' :
  Ptr_destroy this s = Done s' →
  fades (handles s) (handles s') ∧ grows (objects s) (objects s') ∧
  same_records s s'.
Proof.
  intros Hrun.
  destruct (handle_call_grows (Call_Ptr_destroy this) s s' eq_refl Hrun)
    as (Hg & Ha & Hc & Ht).
  apply Ptr_destroy_frame in Hrun as (_ & Hh & _).
  split; [|done]. intros h p'. rewrite Hh. intros Hp'.
  apply lookup_delete_Some in Hp' as [_ Hp']. eauto.
Qed.

Lemma Destroy_fades T obj extent s s' :
  Destroy T obj extent s = Done s' →
  fades (handles s) (handles s') ∧ grows (objects s) (objects s') ∧
  allocatedBytes s' = allocatedBytes s ∧ currentMark s' = currentMark s.
Proof.
  unfold Destroy.
  apply (for_each_ind
           (λ _ t, fades (handles s) (handles t) ∧ grows (objects s) (objects t) ∧
                   allocatedBytes t = allocatedBytes s ∧
                   currentMark t = currentMark s)).
  - split; [apply fades_refl|]. split; [apply grows_refl|done].
  - intros pre x t t' (Hf & Hg & Ha & Hc) _ Hx.
    apply Ptr_destroy_fades in Hx as (Hf' & Hg' & Ha' & Hc' & _).
    split; [by eapply fades_trans|]. split; [by eapply grows_trans|].
    split; congruence.
Qed.

Lemma sweep_one_fades obj s s' :
  sweep_one obj s = Done s' →
  fades (handles s) (handles s') ∧ currentMark s' = currentMark s.
Proof.
  unfold sweep_one. destruct (objects s !! obj) as [i|]; [|done].
  destruct (ObjectInfo.destroy i) as [T|]; [|done]. intros Hrun.
  apply bind_Done in Hrun as (s2 & Hd & Hrun). simpl in Hrun.
  destruct (objects s2 !! obj) as [i'|]; [|done].
  apply bind_Done in Hrun as (s4 & Hinv & Hrun). injection Hrun as <-.
  apply Destroy_fades in Hd as (Hf & _ & _ & Hc).
  apply invalidate_all_fades in Hinv as (Hf' & _ & _ & _ & Hc' & _).
  simpl in *. split; [by eapply fades_trans|congruence].
Qed.

Lemma CollectGarbage_fades s s' :
  CollectGarbage s = Done s' → fades (handles s) (handles s').
Proof.
  rewrite CollectGarbage_unfold. intros Hrun.
  apply bind_Done in Hrun as (sm & Hmark & Hsweep).
  apply mark_roots_remark in Hmark as (_ & _ & _ & Hh & _). simpl in Hh.
  rewrite <- Hh. revert Hsweep. unfold sweep.
  apply (for_each_ind (λ _ t, fades (handles sm) (handles t)));
    [apply fades_refl|].
  intros pre x t t' Hf _ Hx. apply sweep_one_fades in Hx as [Hf' _].
  by eapply fades_trans.
Qed.

Lemma operator_delete_fades data s s' :
  operator_delete data s = Done s' → fades (handles s) (handles s').
Proof.
  unfold operator_delete. destruct (objects s !! data) as [i|].
  - intros Hrun. apply bind_Done in Hrun as (s2 & Hinv & Hrun).
    injection Hrun as <-. by apply invalidate_all_fades in Hinv as [? _].
  - intros [= <-]. apply fades_refl.
Qed.

(** An invariant of the calls is an invariant of programs. *)
Lemma exec_invariant (P : Heap → Prop) :
  (∀ c s s', wf s → possible c s → initialised c s → run c s = Done s' →
             P s → P s') →
  ∀ cs s s', wf s → P s → exec cs s = Done s' → P s'.
Proof.
  intros Hstep. induction cs as [|c cs IH]; intros s s' Hwf HP; simpl.
  - by intros [= <-].
  - case_decide as Hc; [|done]. destruct Hc as [Hpos Hinit].
    intros Hrun. apply bind_Done in Hrun as (s1 & Hc & Hrest).
    apply (IH s1); [by eapply wf_run|by eapply Hstep|done].
Qed.

(** ** The target of a bound handle *)

Lemma targets_agree_fades s s' :
  fades (handles s) (handles s') → targets_agree s → targets_agree s'.
Proof.
  intros Hf Hs h p' a Hp' Ha. destruct (Hf h p' Hp') as (p & Hp & [->| ->]).
  - by eapply Hs.
  - done.
Qed.

Lemma targets_agree_insert s s' this p :
  handles s' = <[this := p]> (handles s) →
  (∀ a, IPtr.info p = Some a → IPtr.object p = a) →
  targets_agree s → targets_agree s'.
Proof.
  intros Hh Hp Hs h q a. rewrite Hh. destruct (decide (this = h)) as [<-|Hne].
  - rewrite lookup_insert_eq. intros [= <-]. apply Hp.
  - rewrite lookup_insert_ne by done. apply Hs.
Qed.

Lemma targets_agree_run c s s' :
  initialised c s → run c s = Done s' → targets_agree s → targets_agree s'.
Proof.
  intros Hinit Hrun Hs. destruct c; simpl in *.
  - by injection Hrun as <-.
  - eapply targets_agree_fades; [by eapply operator_delete_fades|done].
  - injection Hrun as <-. by eapply targets_agree_insert.
  - injection Hrun as <-. unfold Ptr_raw.
    destruct (objects s !! object) as [i|] eqn:Hi.
    + eapply targets_agree_insert; [done| |done]. simpl. congruence.
    + rewrite Hinit by done. by eapply targets_agree_insert.
  - unfold Ptr_copy in Hrun. destruct (handles s !! other) as [o|] eqn:Ho; [|done].
    destruct (IPtr.info o) as [a|] eqn:Ha.
    + destruct (objects s !! a); [|done]. injection Hrun as <-.
      eapply targets_agree_insert; [done| |done]. simpl. intros b [= <-].
      by eapply Hs.
    + injection Hrun as <-. by eapply targets_agree_insert.
  - eapply targets_agree_fades; [|done]. by apply Ptr_destroy_fades in Hrun as [? _].
  - unfold Ptr_assign in Hrun. apply bind_Done in Hrun as (s1 & Hdet & Hrun).
    apply detach_frame in Hdet as (_ & Hh1 & _).
    destruct (handles s1 !! this) as [p|]; [|done].
    destruct (handles s1 !! other) as [o|] eqn:Ho; [|done]. rewrite Hh1 in Ho.
    destruct (IPtr.info o) as [a|] eqn:Ha.
    + simpl in Hrun. destruct (objects s1 !! a); [|done]. injection Hrun as <-.
      eapply targets_agree_insert; [simpl; by rewrite Hh1| |done].
      simpl. intros b [= <-]. by eapply Hs.
    + injection Hrun as <-.
      eapply targets_agree_insert; [simpl; by rewrite Hh1| |done]. done.
  - unfold Ptr_assign_raw in Hrun. apply bind_Done in Hrun as (s1 & Hdet & Hrun).
    apply detach_frame in Hdet as (_ & Hh1 & _).
    destruct (handles s1 !! this) as [p|]; [|done].
    destruct (objects s1 !! other); injection Hrun as <-;
      (eapply targets_agree_insert; [simpl; by rewrite Hh1| |done]);
      simpl; congruence.
  - eapply targets_agree_fades; [by eapply CollectGarbage_fades|done].
Qed.

(** X1.  In every state reached by a program that keeps to the guards of
    the interface ([respects]) - a handle is constructed in storage that
    holds no registered handle; [Ptr(T* object)] on an address that is
    not in the table finds a null record pointer in its storage, which
    keeps the program clear of the unwritten member of C8; the handles a
    call reads or writes through are registered; [operator delete] gets
    the address of a record whose block stores no registered handle -
    [Get()] of a handle whose record pointer is set is the address of
    that record: the record is in the table under that address, its
    [object] member is that address, and the handle is valid unless the
    address is null.  Outside the guards the property fails, the record
    pointer being whatever the storage of a [Ptr(T* object)] held. *)
Theorem bound_handle_targets_its_record cs s :
  respects cs initial = true → exec cs initial = Done s →
  ∀ h p a, handles s !! h = Some p → IPtr.info p = Some a →
           IPtr.Get p = a ∧
           (∃ i, objects s !! a = Some i ∧ ObjectInfo.object i = IPtr.Get p) ∧
           (a ≠ 0 → IPtr.IsValid p = true).
Proof.
  intros _ Hexec h p a Hp Ha.
  assert (targets_agree s) as Hagree.
  { apply (exec_invariant targets_agree) with cs initial;
      [|apply wf_initial| |done].
    - intros c t t' _ _ Hinit Hrun. by apply (targets_agree_run c).
    - intros h0 p0 a0. simpl. by rewrite lookup_empty. }
  pose proof (wf_reachable cs s Hexec) as [Hs _].
  assert (IPtr.Get p = a) as Hget by (by eapply Hagree).
  split; [done|]. split.
  - destruct (c_bound _ Hs _ _ _ Hp Ha) as (i & Hi & _). exists i.
    split; [done|]. rewrite Hget. by eapply c_key.
  - intros Hne. unfold IPtr.IsValid. unfold IPtr.Get in Hget. rewrite Hget.
    apply negb_true_iff, Z.eqb_neq. done.
Qed.

Lemma bound_handle_targets_its_record_witness :
  respects main_calls initial = true ∧
  exec main_calls initial = Done main_heap ∧
  handles main_heap !! pa = Some (IPtr.mk objA (Some objA) true tA) ∧
  IPtr.Get (IPtr.mk objA (Some objA) true tA) = objA ∧
  (∃ i, objects main_heap !! objA = Some i ∧
        ObjectInfo.object i = IPtr.Get (IPtr.mk objA (Some objA) true tA)) ∧
  (objA ≠ 0 → IPtr.IsValid (IPtr.mk objA (Some objA) true tA) = true).
Proof.
  assert (handles main_heap !! pa = Some (IPtr.mk objA (Some objA) true tA))
    as Hp by (vm_compute; reflexivity).
  assert (respects main_calls initial = true) as Hresp
    by (vm_compute; reflexivity).
  split; [exact Hresp|]. split; [exact main_heap_reached|]. split; [exact Hp|].
  exact (bound_handle_targets_its_record main_calls main_heap Hresp
           main_heap_reached pa _ objA Hp eq_refl).
Defined.

(** ** Records across the calls *)

Lemma run_keeps_records c s s' a i i' :
  wf s → possible c s → run c s = Done s' →
  objects s !! a = Some i → objects s' !! a = Some i' →
  ObjectInfo.object i' = ObjectInfo.object i ∧
  ObjectInfo.size i' = ObjectInfo.size i ∧
  ∀ T, ObjectInfo.destroy i = Some T → ObjectInfo.destroy i' = Some T.
Proof.
  intros Hwf Hpos Hrun Hi Hi'.
  destruct (handle_call c) eqn:Hc.
  { destruct (handle_call_grows c s s' Hc Hrun) as (Hg & _).
    destruct (grows_lookup _ _ _ _ Hg Hi) as (j & Hj & He).
    assert (j = i') as -> by congruence.
    destruct He as (? & ? & _ & _ & _ & ?). done. }
  destruct c; simpl in *; try done.
  - injection Hrun as <-. destruct Hpos as [Hres _]. simpl in Hi'.
    rewrite lookup_insert_ne in Hi' by congruence.
    assert (i' = i) as -> by congruence. done.
  - unfold operator_delete in Hrun. destruct (objects s !! data) as [j|].
    + apply bind_Done in Hrun as (s2 & Hinv & Hrun). injection Hrun as <-.
      apply invalidate_all_fades in Hinv as (_ & Ho & _). simpl in Hi', Ho.
      apply lookup_delete_Some in Hi' as [_ Hi']. rewrite Ho in Hi'.
      assert (i' = i) as -> by congruence. done.
    + injection Hrun as <-. simpl in Hi'.
      assert (i' = i) as -> by congruence. done.
  - destruct (CollectGarbage_Done s s' Hwf Hrun) as (sm & Hrem & _ & _ & _ & Hsw).
    assert (a ∉ freeObjects sm) as Ha.
    { intros Ha. by rewrite (sw_gone _ _ _ Hsw a Ha) in Hi'. }
    destruct (shape_lookup _ _ _ _ (sw_kept _ _ _ Hsw a Ha) Hi')
      as (im & Him & Hsh).
    apply shape_fields in Hsh as (-> & -> & _ & ->).
    destruct (remark_shape _ _ _ _ Hrem Him) as (i0 & Hi0 & -> & -> & _ & ->).
    simpl in Hi0. assert (i0 = i) as -> by congruence. done.
Qed.

(** X2.  Across any call from a well-formed state, every record that
    stays in the table keeps its address and its size, whether it has a
    finalizer or not, and a finalizer once bound stays the same: the
    first typed handle decides it, a later handle of another type does
    not rebind it. *)
Theorem finalizer_is_bound_once c s s' a i i' :
  wf s → possible c s → run c s = Done s' →
  objects s !! a = Some i → objects s' !! a = Some i' →
  ObjectInfo.object i' = ObjectInfo.object i ∧
  ObjectInfo.size i' = ObjectInfo.size i ∧
  ∀ T, ObjectInfo.destroy i = Some T → ObjectInfo.destroy i' = Some T.
Proof.
  intros Hwf Hpos Hrun Hi Hi'.
  destruct (run_keeps_records c s s' a i i' Hwf Hpos Hrun Hi Hi') as (Ho & Hsz & Hk).
  split; [exact Ho|]. split; [exact Hsz|]. intros T HT. by apply Hk.
Qed.

Lemma finalizer_is_bound_once_witness :
  wf main_heap ∧ possible (Call_Ptr_raw false tD 16 objA None) main_heap ∧
  run (Call_Ptr_raw false tD 16 objA None) main_heap = Done main_heap_second_type ∧
  ∃ i i', objects main_heap !! objA = Some i ∧
          objects main_heap_second_type !! objA = Some i' ∧
          ObjectInfo.destroy i = Some tA ∧
          ObjectInfo.object i' = ObjectInfo.object i ∧
          ObjectInfo.size i' = ObjectInfo.size i ∧
          ∀ T, ObjectInfo.destroy i = Some T → ObjectInfo.destroy i' = Some T.
Proof.
  assert (possible (Call_Ptr_raw false tD 16 objA None) main_heap) as Hpos
    by (vm_compute; reflexivity).
  assert (run (Call_Ptr_raw false tD 16 objA None) main_heap
          = Done main_heap_second_type) as Hrun by (vm_compute; reflexivity).
  split; [exact wf_main_heap|]. split; [exact Hpos|]. split; [exact Hrun|].
  eexists _, _. split; [vm_compute; reflexivity|].
  split; [vm_compute; reflexivity|]. split; [reflexivity|].
  refine (finalizer_is_bound_once _ main_heap main_heap_second_type objA _ _
            wf_main_heap Hpos Hrun _ _); vm_compute; reflexivity.
Defined.

(** ** The byte counter *)

Lemma total_size_insert m a i :
  m !! a = None → total_size (<[a := i]> m) = ObjectInfo.size i + total_size m.
Proof.
  intros Ha. unfold total_size.
  rewrite map_fold_insert_L; [done| |done]. intros. lia.
Qed.

Lemma total_size_delete m a i :
  m !! a = Some i → total_size m = ObjectInfo.size i + total_size (delete a m).
Proof.
  intros Ha. rewrite <- (insert_delete_id m a i) at 1 by done.
  apply total_size_insert, lookup_delete_eq.
Qed.

Lemma total_size_ext m : ∀ m',
  (∀ a, ObjectInfo.size <$> m !! a = ObjectInfo.size <$> m' !! a) →
  total_size m = total_size m'.
Proof.
  induction m as [|a i m Ha IH] using map_ind; intros m' Heq.
  - assert (m' = ∅) as ->; [|done]. apply map_empty. intros a.
    specialize (Heq a). rewrite lookup_empty in Heq.
    by destruct (m' !! a).
  - pose proof (Heq a) as Hq. rewrite lookup_insert_eq in Hq.
    destruct (m' !! a) as [i'|] eqn:Hi'; [|done]. simpl in Hq.
    injection Hq as Hq.
    rewrite (total_size_insert _ _ _ Ha), (total_size_delete m' a i' Hi'), Hq.
    f_equal. apply IH. intros b. destruct (decide (a = b)) as [<-|Hne].
    + by rewrite Ha, lookup_delete_eq.
    + rewrite lookup_delete_ne by done. specialize (Heq b).
      by rewrite lookup_insert_ne in Heq.
Qed.

Lemma total_size_grows m m' : grows m m' → total_size m = total_size m'.
Proof.
  intros Hg. apply total_size_ext. intros a. specialize (Hg a).
  destruct (m !! a) as [i|], (m' !! a) as [i'|]; try done.
  destruct Hg as (_ & Hsz & _). simpl. by rewrite Hsz.
Qed.

Lemma total_size_remark s s' :
  remark s s' → total_size (objects s') = total_size (objects s).
Proof.
  intros (_ & _ & _ & _ & _ & Hr). apply total_size_ext. intros a.
  destruct (Hr a) as [->|(i & -> & ->)]; [done|]. by destruct i.
Qed.

Lemma size_t_wrap_add x y : size_t_wrap (size_t_wrap x + y) = size_t_wrap (x + y).
Proof. unfold size_t_wrap. apply Zplus_mod_idemp_l. Qed.

Lemma size_t_wrap_sub x y : size_t_wrap (size_t_wrap x - y) = size_t_wrap (x - y).
Proof. unfold size_t_wrap. apply Zminus_mod_idemp_l. Qed.

Lemma sweep_one_accounted a u u' :
  consistent u → sweep_one a u = Done u' →
  consistent u' ∧ (accounted u → accounted u').
Proof.
  intros Hu Hrun.
  assert (∃ i T, objects u !! a = Some i ∧ ObjectInfo.destroy i = Some T)
    as (i & T & Hi & Hd).
  { unfold sweep_one in Hrun. destruct (objects u !! a) as [i|]; [|done].
    destruct (ObjectInfo.destroy i) as [T|] eqn:Hd; [|done]. eauto. }
  destruct (sweep_one_spec u a i T Hu Hi Hd)
    as (u'' & Hrun' & Hc & _ & Hal & _ & Hgone & Hkept & _).
  rewrite Hrun in Hrun'. injection Hrun' as <-. split; [done|].
  unfold accounted. intros Hacc. rewrite Hal, Hacc, size_t_wrap_sub. f_equal.
  rewrite (total_size_delete _ _ _ Hi).
  assert (total_size (objects u') = total_size (delete a (objects u))) as ->; [|lia].
  apply total_size_ext. intros b. destruct (decide (b = a)) as [->|Hne].
  - by rewrite Hgone, lookup_delete_eq.
  - rewrite lookup_delete_ne by done. specialize (Hkept b Hne).
    destruct (objects u' !! b) as [j'|], (objects u !! b) as [j|]; try done.
    simpl in *. apply (inj Some) in Hkept.
    apply shape_fields in Hkept as (_ & -> & _). done.
Qed.

Lemma accounted_run c s s' :
  wf s → possible c s → run c s = Done s' → accounted s → accounted s'.
Proof.
  intros Hwf Hpos Hrun Hacc. unfold accounted in *.
  destruct (handle_call c) eqn:Hc.
  { destruct (handle_call_grows c s s' Hc Hrun) as (Hg & -> & _).
    by rewrite <- (total_size_grows _ _ Hg). }
  destruct c; simpl in *; try done.
  - injection Hrun as <-. destruct Hpos as [Hres _]. simpl.
    rewrite (total_size_insert _ _ _ Hres), Hacc, size_t_wrap_add. simpl.
    f_equal. lia.
  - unfold operator_delete in Hrun. destruct (objects s !! data) as [j|] eqn:Hj.
    + apply bind_Done in Hrun as (s2 & Hinv & Hrun). injection Hrun as <-.
      apply invalidate_all_fades in Hinv as (_ & Ho & _ & Hal & _). simpl in *.
      rewrite Hal, Ho, Hacc, size_t_wrap_sub, (total_size_delete _ _ _ Hj).
      f_equal. lia.
    + by injection Hrun as <-.
  - rewrite CollectGarbage_unfold in Hrun.
    apply bind_Done in Hrun as (sm & Hmark & Hsweep).
    apply mark_roots_remark in Hmark.
    assert (consistent sm ∧ accounted sm) as Hsm.
    { split.
      - apply (consistent_remark (flipped s)); [done|].
        by apply (consistent_ext s), Hwf.
      - unfold accounted. rewrite (total_size_remark _ _ Hmark).
        by destruct Hmark as (_ & -> & _). }
    revert Hsweep. unfold sweep.
    intros Hsweep. eapply (for_each_ind (λ _ u, consistent u ∧ accounted u))
      in Hsweep as [_ ?]; [done|done|].
    intros pre x t t' [Ht Hat] _ Hx.
    destruct (sweep_one_accounted x t t' Ht Hx). auto.
Qed.

(** X3.  In every state a program reaches, [allocatedBytes] is the sum
    of the sizes of the records in the table, in [size_t] arithmetic:
    [operator new] adds the size it registers and [operator delete] and
    the sweep subtract the size of the record they remove, and nothing
    else touches the counter. *)
Theorem allocatedBytes_is_table_total cs s :
  exec cs initial = Done s →
  allocatedBytes s = size_t_wrap (total_size (objects s)) ∧
  0 ≤ allocatedBytes s < 2 ^ 64.
Proof.
  intros Hexec.
  assert (accounted s) as Hacc.
  { apply (exec_invariant accounted) with cs initial;
      [|apply wf_initial|done|done].
    intros c t t' Hwf Hpos _ Hrun. by apply (accounted_run c). }
  split; [done|]. rewrite Hacc. unfold size_t_wrap. apply Z.mod_pos_bound. lia.
Qed.

Lemma allocatedBytes_is_table_total_witness :
  exec main_calls initial = Done main_heap ∧
  allocatedBytes main_heap = size_t_wrap (total_size (objects main_heap)) ∧
  0 ≤ allocatedBytes main_heap < 2 ^ 64.
Proof.
  split; [exact main_heap_reached|].
  exact (allocatedBytes_is_table_total main_calls main_heap main_heap_reached).
Defined.

(** ** Calls on live handles *)

Lemma detach_live s this p :
  consistent s → handles s !! this = Some p →
  ∃ s1, detach this s = Done s1 ∧ handles s1 = handles s ∧
        ∀ a, is_Some (objects s !! a) → is_Some (objects s1 !! a).
Proof.
  intros Hs Hp. unfold detach. rewrite Hp.
  destruct (IPtr.info p) as [a|] eqn:Ha; [|eauto].
  destruct (c_bound _ Hs _ _ _ Hp Ha) as (i & -> & _).
  eexists. split; [done|]. split; [done|]. simpl. intros b Hb.
  destruct (decide (a = b)) as [<-|Hne].
  - rewrite lookup_insert_eq. eauto.
  - by rewrite lookup_insert_ne.
Qed.

Lemma run_live c s :
  wf s → possible c s → live_args c s →
  (∃ s', run c s = Done s') ∨ (c = Call_collect ∧ run c s = Fatal).
Proof.
  intros [Hs Hm] Hpos Hlive. destruct c; simpl in *; eauto.
  - left. unfold operator_delete. destruct (objects s !! data) as [i|] eqn:Hi; [|eauto].
    set (s1 := set_allocatedBytes _ s).
    destruct (drop_record_spec s1 data i) as (s2 & -> & _); [|done|simpl; eauto].
    by apply (consistent_ext s).
  - left. destruct Hlive as [o Ho]. unfold Ptr_copy. rewrite Ho.
    destruct (IPtr.info o) as [a|] eqn:Ha; [|eauto].
    destruct (c_bound _ Hs _ _ _ Ho Ha) as (i & -> & _). eauto.
  - left. destruct Hlive as [p Hp].
    destruct (Ptr_destroy_spec s this p Hs Hp) as (s' & -> & _). eauto.
  - left. destruct Hlive as [[p Hp] [o Ho]].
    destruct (detach_live s this p Hs Hp) as (s1 & Hdet & Hh & Hobj).
    unfold Ptr_assign. rewrite Hdet. simpl. rewrite Hh, Hp, Ho.
    destruct (IPtr.info o) as [a|] eqn:Ha; [|eauto]. simpl.
    destruct (c_bound _ Hs _ _ _ Ho Ha) as (i & Hi & _).
    destruct (Hobj a) as [i1 ->]; eauto.
  - left. destruct Hlive as [p Hp].
    destruct (detach_live s this p Hs Hp) as (s1 & Hdet & Hh & Hobj).
    unfold Ptr_assign_raw. rewrite Hdet. simpl. rewrite Hh, Hp.
    destruct (objects s1 !! other); eauto.
  - destruct (CollectGarbage_outcome s (conj Hs Hm)) as [?|?]; eauto.
Qed.

Lemma respects_exec cs : ∀ s,
  wf s → respects cs s = true →
  (∃ s', exec cs s = Done s' ∧ wf s') ∨ (exec cs s = Fatal ∧ Call_collect ∈ cs).
Proof.
  induction cs as [|c cs IH]; intros s Hwf Hresp; simpl in *.
  { left. eauto. }
  apply andb_true_iff in Hresp as [Hguard Hrest].
  apply bool_decide_eq_true in Hguard as (Hpos & Hinit & Hlive).
  rewrite decide_True by done.
  destruct (run_live c s Hwf Hpos Hlive) as [[s1 Hrun]|[-> Hrun]].
  - rewrite Hrun in Hrest |- *. simpl.
    destruct (IH s1) as [?|[Hfatal Hin]]; [by eapply wf_run|done|by left|].
    right. split; [done|]. apply elem_of_cons. by right.
  - simpl in Hrun. simpl. rewrite Hrun. right. split; [done|].
    apply elem_of_cons. by left.
Qed.

(** X4.  A program that keeps to the guards of the interface runs every
    call to its end.  The guards: a handle is constructed in storage
    that holds no registered handle; [Ptr(T* object)] on an address that
    is not in the table finds a null record pointer; the handles a call
    reads or writes through are registered; and [operator delete] gets
    the address of a record whose block stores no registered handle.
    Then no call follows a record pointer to a record that has left the
    table, or a registry or vector entry to a handle that was destroyed,
    the marking budget is never exhausted, and the program ends in a
    well-formed state unless one of its collections stops at the null
    finalizer. *)
Theorem programs_within_the_guards_complete cs :
  respects cs initial = true →
  (∃ s, exec cs initial = Done s ∧ wf s) ∨
  (exec cs initial = Fatal ∧ Call_collect ∈ cs).
Proof. intros Hresp. apply respects_exec; [apply wf_initial|done]. Qed.

Lemma programs_within_the_guards_complete_witness :
  respects (main_calls ++ [Call_collect]) initial = true ∧
  exec (main_calls ++ [Call_collect]) initial
    = Done (result (CollectGarbage main_heap)) ∧
  ((∃ s, exec (main_calls ++ [Call_collect]) initial = Done s ∧ wf s) ∨
   (exec (main_calls ++ [Call_collect]) initial = Fatal ∧
    Call_collect ∈ main_calls ++ [Call_collect])).
Proof.
  assert (respects (main_calls ++ [Call_collect]) initial = true) as Hresp
    by (vm_compute; reflexivity).
  split; [exact Hresp|]. split; [vm_compute; reflexivity|].
  exact (programs_within_the_guards_complete _ Hresp).
Defined.

(** ** The back-reference vectors *)

(** X5.  In every state reached by a program that keeps to the guards of
    the interface ([respects]) - a handle is constructed in storage that
    holds no registered handle; [Ptr(T* object)] on an address that is
    not in the table finds a null record pointer in its storage, which
    keeps the program clear of the unwritten member of C8; the handles a
    call reads or writes through are registered; [operator delete] gets
    the address of a record whose block stores no registered handle -
    the vector of a record lists exactly the registered handles whose
    record pointer is this record, each once; the record sits in the
    table under its own address and carries the current mark; and the
    blocks of two records share no byte.  Outside the guards the
    property fails: a record pointer left over in the storage of a
    [Ptr(T* object)] is on no vector. *)
Theorem back_references_match_bound_handles cs s :
  respects cs initial = true → exec cs initial = Done s →
  (∀ a i, objects s !! a = Some i →
     ObjectInfo.object i = a ∧ ObjectInfo.mark i = currentMark s ∧
     NoDup (ObjectInfo.pointers i) ∧
     ∀ h, h ∈ ObjectInfo.pointers i ↔
          ∃ p, handles s !! h = Some p ∧ IPtr.info p = Some a) ∧
  (∀ a b i j h, objects s !! a = Some i → objects s !! b = Some j →
     a ≤ h < a + ObjectInfo.size i → b ≤ h < b + ObjectInfo.size j → a = b).
Proof.
  intros _ Hexec. destruct (wf_reachable cs s Hexec) as [Hs Hm]. split.
  - intros a i Hi. split; [by eapply c_key|]. split; [by eapply Hm|].
    split; [by eapply c_back_nodup|]. intros h. split.
    + intros Hh. by eapply c_back.
    + intros (p & Hp & Ha). destruct (c_bound _ Hs _ _ _ Hp Ha) as (j & Hj & Hin).
      by assert (j = i) as -> by congruence.
  - apply (c_disjoint _ Hs).
Qed.

Lemma back_references_match_bound_handles_witness :
  respects main_calls initial = true ∧
  exec main_calls initial = Done main_heap ∧
  (∀ a i, objects main_heap !! a = Some i →
     ObjectInfo.object i = a ∧ ObjectInfo.mark i = currentMark main_heap ∧
     NoDup (ObjectInfo.pointers i) ∧
     ∀ h, h ∈ ObjectInfo.pointers i ↔
          ∃ p, handles main_heap !! h = Some p ∧ IPtr.info p = Some a) ∧
  (∀ a b i j h, objects main_heap !! a = Some i → objects main_heap !! b = Some j →
     a ≤ h < a + ObjectInfo.size i → b ≤ h < b + ObjectInfo.size j → a = b).
Proof.
  assert (respects main_calls initial = true) as Hresp
    by (vm_compute; reflexivity).
  split; [exact Hresp|]. split; [exact main_heap_reached|].
  exact (back_references_match_bound_handles main_calls main_heap Hresp
           main_heap_reached).
Defined.

(** ** Finalizers of bound records *)

Lemma bind_destroy_Some T i : is_Some (ObjectInfo.destroy (bind_destroy T i)).
Proof.
  unfold bind_destroy. destruct (ObjectInfo.destroy i) eqn:Hd.
  - rewrite Hd. eauto.
  - simpl. eauto.
Qed.

Lemma handles_finalized_run c s s' :
  wf s → possible c s → initialised c s → run c s = Done s' →
  handles_finalized s → handles_finalized s'.
Proof.
  intros Hwf Hpos Hinit Hrun HQ h p' a i' Hp' Ha Hi'.
  assert (∀ h0 p, handles s !! h0 = Some p → IPtr.info p = Some a →
                  is_Some (ObjectInfo.destroy i')) as Hold.
  { intros h0 p Hp Hpa.
    destruct (c_bound _ (proj1 Hwf) _ _ _ Hp Hpa) as (i & Hi & _).
    destruct (HQ h0 p a i Hp Hpa Hi) as [T HT].
    destruct (run_keeps_records c s s' a i i' Hwf Hpos Hrun Hi Hi') as (_ & _ & Hk).
    eauto. }
  assert (fades (handles s) (handles s') → is_Some (ObjectInfo.destroy i'))
    as Hfades.
  { intros Hf. destruct (Hf h p' Hp') as (p & Hp & [->| ->]); [eauto|done]. }
  clear HQ. destruct c; simpl in *.
  - injection Hrun as <-. eauto.
  - apply Hfades. by eapply operator_delete_fades.
  - injection Hrun as <-. simpl in Hp'. destruct (decide (this = h)) as [<-|Hne].
    + rewrite lookup_insert_eq in Hp'. by injection Hp' as <-.
    + rewrite lookup_insert_ne in Hp' by done. eauto.
  - injection Hrun as <-. unfold Ptr_raw in Hp', Hi'.
    destruct (objects s !! object) as [i0|] eqn:Hi0; simpl in Hp', Hi'.
    + destruct (decide (this = h)) as [<-|Hne].
      * rewrite lookup_insert_eq in Hp'. injection Hp' as <-. simpl in Ha.
        injection Ha as <-. rewrite lookup_insert_eq in Hi'. injection Hi' as <-.
        apply bind_destroy_Some.
      * rewrite lookup_insert_ne in Hp' by done. eauto.
    + rewrite Hinit in Hp' by done. destruct (decide (this = h)) as [<-|Hne].
      * rewrite lookup_insert_eq in Hp'. by injection Hp' as <-.
      * rewrite lookup_insert_ne in Hp' by done. eauto.
  - unfold Ptr_copy in Hrun. destruct (handles s !! other) as [o|] eqn:Ho; [|done].
    assert (handles s' = <[this := IPtr.mk (IPtr.object o) (IPtr.info o) root
                                      (IPtr.pointee o)]> (handles s)) as Hh.
    { destruct (IPtr.info o) as [b|]; [destruct (objects s !! b); [|done]|];
        by injection Hrun as <-. }
    rewrite Hh in Hp'. destruct (decide (this = h)) as [<-|Hne].
    + rewrite lookup_insert_eq in Hp'. injection Hp' as <-. simpl in Ha. eauto.
    + rewrite lookup_insert_ne in Hp' by done. eauto.
  - apply Ptr_destroy_frame in Hrun as (_ & Hh & _). rewrite Hh in Hp'.
    apply lookup_delete_Some in Hp' as [_ Hp']. eauto.
  - unfold Ptr_assign in Hrun. apply bind_Done in Hrun as (s1 & Hdet & Hrun).
    apply detach_frame in Hdet as (_ & Hh1 & _).
    destruct (handles s1 !! this) as [p|]; [|done].
    destruct (handles s1 !! other) as [o|] eqn:Ho; [|done]. rewrite Hh1 in Ho.
    assert (handles s' = <[this := IPtr.mk (IPtr.object o) (IPtr.info o)
                                      (IPtr.IsRoot p) (IPtr.pointee p)]> (handles s))
      as Hh.
    { destruct (IPtr.info o) as [b|]; simpl in Hrun;
        [destruct (objects s1 !! b); [|done]|]; injection Hrun as <-; simpl;
        by rewrite Hh1. }
    rewrite Hh in Hp'. destruct (decide (this = h)) as [<-|Hne].
    + rewrite lookup_insert_eq in Hp'. injection Hp' as <-. simpl in Ha. eauto.
    + rewrite lookup_insert_ne in Hp' by done. eauto.
  - unfold Ptr_assign_raw in Hrun. apply bind_Done in Hrun as (s1 & Hdet & Hrun).
    apply detach_frame in Hdet as (_ & Hh1 & _).
    destruct (handles s1 !! this) as [p|]; [|done].
    destruct (objects s1 !! other) as [i0|]; injection Hrun as <-;
      simpl in Hp', Hi'; rewrite Hh1 in Hp';
      (destruct (decide (this = h)) as [<-|Hne];
       [rewrite lookup_insert_eq in Hp'; injection Hp' as <-; simpl in Ha
       |rewrite lookup_insert_ne in Hp' by done; by eauto]).
    + injection Ha as <-. rewrite lookup_insert_eq in Hi'. injection Hi' as <-.
      apply bind_destroy_Some.
    + done.
  - apply Hfades. by eapply CollectGarbage_fades.
Qed.

(** X6.  In every state reached by a program that keeps to the guards of
    the interface ([respects]) - a handle is constructed in storage that
    holds no registered handle; [Ptr(T* object)] on an address that is
    not in the table finds a null record pointer in its storage, which
    keeps the program clear of the unwritten member of C8; the handles a
    call reads or writes through are registered; [operator delete] gets
    the address of a record whose block stores no registered handle -
    a record with a handle on its vector has a finalizer, so the fatal
    exit of a collection is only taken at an unreachable record that no
    registered handle is bound to: the result of [mnew] that was never
    given to a typed handle.  Outside the guards the property fails: a
    copy of a handle whose record pointer was left over in its storage
    gets onto the vector of a record without binding a finalizer. *)
Theorem fatal_exit_only_at_handleless_record cs s :
  respects cs initial = true → exec cs initial = Done s →
  (∀ a i, objects s !! a = Some i → ObjectInfo.pointers i ≠ [] →
          is_Some (ObjectInfo.destroy i)) ∧
  (CollectGarbage s = Fatal →
   ∃ a i, objects s !! a = Some i ∧ ObjectInfo.destroy i = None ∧
          ObjectInfo.pointers i = [] ∧ ¬ reachable s a).
Proof.
  intros _ Hexec. pose proof (wf_reachable cs s Hexec) as Hwf.
  assert (handles_finalized s) as HQ.
  { apply (exec_invariant handles_finalized) with cs initial;
      [|apply wf_initial| |done].
    - intros c t t' ? ? ? ?. by apply (handles_finalized_run c).
    - intros h p a i. simpl. by rewrite lookup_empty. }
  assert (∀ a i, objects s !! a = Some i → ObjectInfo.pointers i ≠ [] →
                 is_Some (ObjectInfo.destroy i)) as Hfin.
  { intros a i Hi Hne. destruct (ObjectInfo.pointers i) as [|h l] eqn:Hl; [done|].
    destruct (c_back _ (proj1 Hwf) a i h Hi) as (p & Hp & Ha).
    - rewrite Hl. apply elem_of_cons. by left.
    - by eapply HQ. }
  split; [done|]. intros Hfatal.
  destruct (CollectGarbage_spec s Hwf) as (sm & _ & _ & _ & Hfree & Hdone & _).
  destruct (decide (Exists (λ a, objects s !! a ≫= ObjectInfo.destroy = None)
                      (freeObjects sm))) as [Hex|Hno].
  - apply Exists_exists in Hex as (a & Ha & Hd).
    apply Hfree in Ha as [[i Hi] Hun]. rewrite Hi in Hd. simpl in Hd.
    exists a, i. split; [done|]. split; [done|]. split; [|done].
    destruct (ObjectInfo.pointers i) as [|h l] eqn:Hl; [done|].
    destruct (Hfin a i Hi) as [T HT]; [by rewrite Hl|congruence].
  - destruct Hdone as (s' & Hs' & _); [|congruence].
    intros a i Hi Hun. destruct (ObjectInfo.destroy i) eqn:Hd; [eauto|].
    exfalso. apply Hno, Exists_exists. exists a. split; [apply Hfree; eauto|].
    by rewrite Hi.
Qed.

Lemma fatal_exit_only_at_handleless_record_witness :
  respects [Call_new 1000 16 "main.cpp" 1] initial = true ∧
  exec [Call_new 1000 16 "main.cpp" 1] initial = Done orphan_heap ∧
  CollectGarbage orphan_heap = Fatal ∧
  (∀ a i, objects orphan_heap !! a = Some i → ObjectInfo.pointers i ≠ [] →
          is_Some (ObjectInfo.destroy i)) ∧
  (CollectGarbage orphan_heap = Fatal →
   ∃ a i, objects orphan_heap !! a = Some i ∧ ObjectInfo.destroy i = None ∧
          ObjectInfo.pointers i = [] ∧ ¬ reachable orphan_heap a).
Proof.
  assert (exec [Call_new 1000 16 "main.cpp" 1] initial = Done orphan_heap)
    as Hexec by (vm_compute; reflexivity).
  assert (respects [Call_new 1000 16 "main.cpp" 1] initial = true) as Hresp
    by (vm_compute; reflexivity).
  split; [exact Hresp|]. split; [exact Hexec|]. split; [vm_compute; reflexivity|].
  exact (fatal_exit_only_at_handleless_record _ orphan_heap Hresp Hexec).
Defined.

(** ** Round trips *)

Lemma erase_first_app_fresh x l : x ∉ l → erase_first x (l ++ [x]) = l.
Proof.
  induction l as [|y l IH]; simpl; intros Hx.
  - by rewrite decide_True.
  - rewrite decide_False.
    + f_equal. apply IH. intros ?. apply Hx, elem_of_cons. by right.
    + intros ->. apply Hx, elem_of_cons. by left.
Qed.

Lemma erase_first_perm x l : x ∈ l → erase_first x l ++ [x] ≡ₚ l.
Proof.
  induction l as [|y l IH]; simpl; intros Hx.
  - by apply elem_of_nil in Hx.
  - destruct (decide (y = x)) as [->|Hne].
    + by rewrite Permutation_app_comm.
    + simpl. apply Permutation_skip, IH.
      apply elem_of_cons in Hx as [?|?]; [congruence|done].
Qed.

Lemma unregistered s this : consistent s → handles s !! this = None → this ∉ pointers s.
Proof.
  intros Hs Hthis Hin. apply (c_registry _ Hs) in Hin as [p Hp]. congruence.
Qed.

Lemma off_every_vector s this a i :
  consistent s → handles s !! this = None → objects s !! a = Some i →
  this ∉ ObjectInfo.pointers i.
Proof.
  intros Hs Hthis Hi Hin. destruct (c_back _ Hs a i this Hi Hin) as (p & Hp & _).
  congruence.
Qed.

(** X7.  Constructing a handle with [Ptr()] or as a copy of a live
    handle and destroying it again gives back the state before the
    construction, field by field: the destructor undoes the registration
    and the back-reference that the constructor added. *)
Theorem construct_destroy_round_trip s this :
  consistent s → handles s !! this = None →
  (∀ root T, Ptr_destroy this (Ptr_default root T this s) = Done s) ∧
  (∀ root other s', Ptr_copy root this other s = Done s' →
                    Ptr_destroy this s' = Done s).
Proof.
  intros Hs Hthis. pose proof (unregistered s this Hs Hthis) as Hreg. split.
  - intros root T. unfold Ptr_destroy, detach, Ptr_default. simpl.
    rewrite lookup_insert_eq. simpl.
    rewrite delete_insert_id, erase_first_app_fresh by done. by destruct s.
  - intros root other s'. unfold Ptr_copy.
    destruct (handles s !! other) as [o|] eqn:Ho; [|done].
    destruct (IPtr.info o) as [a|] eqn:Ha.
    + destruct (objects s !! a) as [i|] eqn:Hi; [|done]. intros [= <-].
      unfold Ptr_destroy, detach. simpl. rewrite lookup_insert_eq. simpl.
      rewrite lookup_insert_eq. simpl.
      rewrite delete_insert_id, erase_first_app_fresh by done.
      rewrite erase_first_app_fresh by by eapply off_every_vector.
      rewrite insert_insert_eq.
      assert (ObjectInfo.set_pointers (ObjectInfo.pointers i) (attach this i) = i)
        as -> by by destruct i.
      rewrite insert_id by done. by destruct s.
    + intros [= <-]. unfold Ptr_destroy, detach. simpl.
      rewrite lookup_insert_eq. simpl.
      rewrite delete_insert_id, erase_first_app_fresh by done. by destruct s.
Qed.

Lemma construct_destroy_round_trip_witness :
  consistent main_heap ∧ handles main_heap !! 16 = None ∧
  (∀ root T, Ptr_destroy 16 (Ptr_default root T 16 main_heap) = Done main_heap) ∧
  (∀ root other s', Ptr_copy root 16 other main_heap = Done s' →
                    Ptr_destroy 16 s' = Done main_heap).
Proof.
  assert (handles main_heap !! 16 = None) as Hthis by (vm_compute; reflexivity).
  split; [exact (proj1 wf_main_heap)|]. split; [exact Hthis|].
  exact (construct_destroy_round_trip main_heap 16 (proj1 wf_main_heap) Hthis).
Defined.

(** X8.  A handle constructed from a raw address and destroyed again
    leaves one thing behind: on a registered address the record keeps the
    finalizer that the constructor bound, with its vector as before; all
    other fields of the state are as before the construction.  On an
    address that is not registered, with the record pointer null, nothing
    is left. *)
Theorem raw_construct_destroy_leaves_finalizer s root T this object :
  consistent s → handles s !! this = None →
  (∀ i stale, objects s !! object = Some i →
     Ptr_destroy this (Ptr_raw root T this object stale s) =
       Done (set_objects (<[object := bind_destroy T i]> (objects s)) s)) ∧
  (objects s !! object = None →
     Ptr_destroy this (Ptr_raw root T this object None s) = Done s).
Proof.
  intros Hs Hthis. pose proof (unregistered s this Hs Hthis) as Hreg. split.
  - intros i stale Hi. unfold Ptr_destroy, detach, Ptr_raw. rewrite Hi. simpl.
    rewrite lookup_insert_eq. simpl. rewrite lookup_insert_eq. simpl.
    rewrite delete_insert_id, erase_first_app_fresh by done.
    rewrite insert_insert_eq. do 3 f_equal.
    pose proof (off_every_vector s this object i Hs Hthis Hi) as Hoff.
    unfold bind_destroy, attach. simpl. destruct i as [o z m sr ln l d]. simpl in *.
    destruct d; simpl; by rewrite erase_first_app_fresh.
  - intros Hi. unfold Ptr_destroy, detach, Ptr_raw. rewrite Hi. simpl.
    rewrite lookup_insert_eq. simpl.
    rewrite delete_insert_id, erase_first_app_fresh by done. by destruct s.
Qed.

Lemma raw_construct_destroy_leaves_finalizer_witness :
  consistent orphan_heap ∧ handles orphan_heap !! 8 = None ∧
  (∀ i stale, objects orphan_heap !! 1000 = Some i →
     Ptr_destroy 8 (Ptr_raw false tA 8 1000 stale orphan_heap) =
       Done (set_objects (<[1000 := bind_destroy tA i]> (objects orphan_heap))
               orphan_heap)) ∧
  (objects orphan_heap !! 1000 = None →
     Ptr_destroy 8 (Ptr_raw false tA 8 1000 None orphan_heap) = Done orphan_heap).
Proof.
  split; [exact (proj1 wf_orphan_heap)|]. split; [reflexivity|].
  exact (raw_construct_destroy_leaves_finalizer orphan_heap false tA 8 1000
           (proj1 wf_orphan_heap) eq_refl).
Defined.

(** X9.  Assigning a live handle to itself completes and is harmless:
    [operator=] has no self-check, it erases the handle from the vector
    of its record and pushes it again, so the handle, the registry, the
    counter and the trace are unchanged and every record keeps its fields
    and the handles on its vector, the handle moving to the end. *)
Theorem self_assignment_is_harmless s this p :
  consistent s → handles s !! this = Some p →
  ∃ s', Ptr_assign this this s = Done s' ∧
        handles s' = handles s ∧ pointers s' = pointers s ∧ same_records s s' ∧
        (IPtr.info p = None → objects s' = objects s) ∧
        (∀ a i, IPtr.info p = Some a → objects s !! a = Some i →
           objects s' =
             <[a := ObjectInfo.set_pointers
                      (erase_first this (ObjectInfo.pointers i) ++ [this]) i]>
               (objects s) ∧
           erase_first this (ObjectInfo.pointers i) ++ [this]
             ≡ₚ ObjectInfo.pointers i).
Proof.
  intros Hs Hp. unfold Ptr_assign, detach. rewrite Hp.
  assert (IPtr.mk (IPtr.object p) (IPtr.info p) (IPtr.IsRoot p) (IPtr.pointee p) = p)
    as Heta by by destruct p.
  destruct (IPtr.info p) as [a|] eqn:Ha.
  - destruct (c_bound _ Hs _ _ _ Hp Ha) as (i & Hi & Hin). rewrite Hi. simpl.
    rewrite Hp, Ha. simpl. rewrite lookup_insert_eq.
    eexists. split; [done|]. simpl. rewrite Heta, insert_id by done.
    split; [done|]. split; [done|]. split; [done|]. split; [done|].
    intros a' i' [= <-] Hi'.
    assert (i' = i) as -> by congruence. rewrite insert_insert_eq.
    split; [done|]. by apply erase_first_perm.
  - simpl. rewrite Hp, Ha. eexists. split; [done|]. simpl.
    rewrite Heta, insert_id by done. by repeat split.
Qed.

Lemma self_assignment_is_harmless_witness :
  consistent main_heap ∧
  handles main_heap !! pa = Some (IPtr.mk objA (Some objA) true tA) ∧
  ∃ s', Ptr_assign pa pa main_heap = Done s' ∧
        handles s' = handles main_heap ∧ pointers s' = pointers main_heap ∧
        same_records main_heap s' ∧
        (IPtr.info (IPtr.mk objA (Some objA) true tA) = None →
         objects s' = objects main_heap) ∧
        (∀ a i, IPtr.info (IPtr.mk objA (Some objA) true tA) = Some a →
           objects main_heap !! a = Some i →
           objects s' =
             <[a := ObjectInfo.set_pointers
                      (erase_first pa (ObjectInfo.pointers i) ++ [pa]) i]>
               (objects main_heap) ∧
           erase_first pa (ObjectInfo.pointers i) ++ [pa]
             ≡ₚ ObjectInfo.pointers i).
Proof.
  assert (handles main_heap !! pa = Some (IPtr.mk objA (Some objA) true tA))
    as Hp by (vm_compute; reflexivity).
  split; [exact (proj1 wf_main_heap)|]. split; [exact Hp|].
  exact (self_assignment_is_harmless main_heap pa _ (proj1 wf_main_heap) Hp).
Defined.

(** X10.  Allocating a block and deallocating it again completes and
    gives back the table, the handles, the registry and the epoch; the
    counter returns to its value, which it equals whenever it was within
    [size_t], whatever the size; the trace gains the release. *)
Theorem new_delete_round_trip s res size source line :
  objects s !! res = None →
  ∃ s', operator_delete res (operator_new res size source line s) = Done s' ∧
        objects s' = objects s ∧ handles s' = handles s ∧
        pointers s' = pointers s ∧ currentMark s' = currentMark s ∧
        allocatedBytes s' = size_t_wrap (allocatedBytes s) ∧
        (0 ≤ allocatedBytes s < 2 ^ 64 → allocatedBytes s' = allocatedBytes s) ∧
        trace s' = trace s ++ [Release res].
Proof.
  intros Hres. unfold operator_delete, operator_new. simpl.
  rewrite lookup_insert_eq. simpl. eexists. split; [done|]. simpl.
  rewrite delete_insert_id by done. repeat split; try done.
  - rewrite size_t_wrap_sub. f_equal. lia.
  - intros Hr. rewrite size_t_wrap_sub. unfold size_t_wrap.
    rewrite <- (Z.mod_small (allocatedBytes s) (2 ^ 64)) at 2 by done.
    f_equal. lia.
Qed.

Lemma new_delete_round_trip_witness :
  objects main_heap !! 5000 = None ∧
  ∃ s', operator_delete 5000 (operator_new 5000 32 "main.cpp" 1 main_heap) = Done s' ∧
        objects s' = objects main_heap ∧ handles s' = handles main_heap ∧
        pointers s' = pointers main_heap ∧ currentMark s' = currentMark main_heap ∧
        allocatedBytes s' = size_t_wrap (allocatedBytes main_heap) ∧
        (0 ≤ allocatedBytes main_heap < 2 ^ 64 →
         allocatedBytes s' = allocatedBytes main_heap) ∧
        trace s' = trace main_heap ++ [Release 5000].
Proof.
  split; [reflexivity|].
  exact (new_delete_round_trip main_heap 5000 32 "main.cpp" 1 eq_refl).
Defined.

(** ** The state after a collection *)

(** X12.  A handle that is still registered after a completed
    collection is what the sweep made of it: unchanged when it was
    unbound or bound to a reachable record, and that record is still in
    the table; invalid when it was bound to an unreachable record, and
    that record is out of the table.  A root handle is unchanged.  The
    statement is about the handles that are left and says nothing of
    which handles the finalizers destroyed. *)
Theorem surviving_handles_follow_their_targets s s' h p p' :
  wf s → CollectGarbage s = Done s' →
  handles s !! h = Some p → handles s' !! h = Some p' →
  (IPtr.info p = None → p' = p) ∧
  (∀ a, IPtr.info p = Some a → reachable s a →
        p' = p ∧ is_Some (objects s' !! a)) ∧
  (∀ a, IPtr.info p = Some a → ¬ reachable s a →
        p' = IPtr.MarkInvalid p ∧ objects s' !! a = None) ∧
  (IPtr.IsRoot p = true → p' = p).
Proof.
  intros Hwf Hrun Hp Hp'.
  destruct (CollectGarbage_Done s s' Hwf Hrun) as (sm & Hrem & _ & Hfree & _ & Hsw).
  pose proof Hrem as (_ & _ & _ & Hh & _). simpl in Hh.
  destruct (sw_handle _ _ _ Hsw h p' Hp') as (p0 & Hp0 & Hcase).
  rewrite Hh in Hp0. assert (p0 = p) as -> by congruence.
  assert (∀ a, IPtr.info p = Some a → reachable s a →
               p' = p ∧ is_Some (objects s' !! a)) as Hreach.
  { intros a Ha Hr. split.
    - destruct Hcase as [[(b & Hb & Hpb) _]|[_ ->]]; [|done].
      assert (b = a) as -> by congruence. apply Hfree in Hb as [_ Hun]. done.
    - destruct (c_bound _ (proj1 Hwf) _ _ _ Hp Ha) as (i & Hi & _).
      destruct (remark_lookup_fwd (flipped s) sm a i Hrem Hi) as (im & Him & _).
      assert (a ∉ freeObjects sm) as Hna by (intros Hin; by apply Hfree in Hin as [_ ?]).
      pose proof (sw_kept _ _ _ Hsw a Hna) as Hk. rewrite Him in Hk.
      by destruct (objects s' !! a). }
  split; [|split; [done|split]].
  - intros Hnone. destruct Hcase as [[(b & _ & Hpb) _]|[_ ->]]; [congruence|done].
  - intros a Ha Hun.
    assert (a ∈ freeObjects sm) as Hin.
    { apply Hfree. split; [|done].
      destruct (c_bound _ (proj1 Hwf) _ _ _ Hp Ha) as (i & Hi & _). eauto. }
    split; [|by apply (sw_gone _ _ _ Hsw)].
    destruct Hcase as [[_ ->]|[Hnot _]]; [done|]. by destruct (Hnot a Hin).
  - intros Hroot. destruct (IPtr.info p) as [a|] eqn:Ha.
    + apply (Hreach a eq_refl). exists a. split; [|done]. by exists h, p.
    + destruct Hcase as [[(b & _ & Hpb) _]|[_ ->]]; [congruence|done].
Qed.

Lemma surviving_handles_follow_their_targets_witness :
  wf main_heap ∧ CollectGarbage main_heap = Done (result (CollectGarbage main_heap)) ∧
  handles main_heap !! pa = Some (IPtr.mk objA (Some objA) true tA) ∧
  handles (result (CollectGarbage main_heap)) !! pa
    = Some (IPtr.mk objA (Some objA) true tA) ∧
  (∀ a, Some objA = Some a → reachable main_heap a →
        IPtr.mk objA (Some objA) true tA = IPtr.mk objA (Some objA) true tA ∧
        is_Some (objects (result (CollectGarbage main_heap)) !! a)).
Proof.
  assert (CollectGarbage main_heap = Done (result (CollectGarbage main_heap)))
    as Hrun by (vm_compute; reflexivity).
  assert (handles main_heap !! pa = Some (IPtr.mk objA (Some objA) true tA))
    as Hp by (vm_compute; reflexivity).
  assert (handles (result (CollectGarbage main_heap)) !! pa
          = Some (IPtr.mk objA (Some objA) true tA)) as Hp'
    by (vm_compute; reflexivity).
  split; [exact wf_main_heap|]. split; [exact Hrun|]. split; [exact Hp|].
  split; [exact Hp'|].
  exact (proj1 (proj2 (surviving_handles_follow_their_targets main_heap _ pa _ _
                         wf_main_heap Hrun Hp Hp'))).
Defined.

Lemma StronglySorted_filter {A} (R : relation A) (P : A → Prop)
    `{!∀ x, Decision (P x)} (l : list A) :
  StronglySorted R l → StronglySorted R (filter P l).
Proof.
  induction 1 as [|x l Hl IH Hx]; [constructor|].
  rewrite filter_cons. case_decide; [|done]. constructor; [done|].
  apply Forall_forall. intros y Hy. apply list_elem_of_filter in Hy as [_ Hy].
  by eapply Forall_forall in Hx.
Qed.

Lemma finalizer_remark s sm a :
  remark (flipped s) sm → finalizer sm a = finalizer s a.
Proof.
  intros (_ & _ & _ & _ & _ & Ho). unfold finalizer.
  destruct (Ho a) as [->|(i & Hi & ->)]; [done|].
  simpl in Hi. rewrite Hi. by destruct i.
Qed.

(** X13.  A completed collection sweeps in the order of the table: the
    events it adds to the trace are, for the unreachable records in
    ascending address order, each once, the call of the record's
    finalizer directly followed by the release of its storage. *)
Theorem sweep_in_table_order s s' :
  wf s → CollectGarbage s = Done s' →
  ∃ l, StronglySorted Z.le l ∧ NoDup l ∧
       (∀ a, a ∈ l ↔ is_Some (objects s !! a) ∧ ¬ reachable s a) ∧
       trace s' = trace s ++ (l ≫= λ a, [Finalize (finalizer s a) a; Release a]).
Proof.
  intros Hwf Hrun.
  destruct (CollectGarbage_Done s s' Hwf Hrun) as (sm & Hrem & _ & Hfree & _ & Hsw).
  exists (freeObjects sm). split.
  { apply StronglySorted_filter, Sorted_StronglySorted; [apply _|apply keys_sorted]. }
  split; [apply freeObjects_NoDup|]. split; [done|].
  rewrite (sw_trace _ _ _ Hsw). pose proof Hrem as (_ & _ & _ & _ & -> & _).
  simpl. f_equal. unfold sweep_events. apply list_bind_ext; [|done].
  intros a. by rewrite (finalizer_remark s sm a Hrem).
Qed.

Lemma sweep_in_table_order_witness :
  wf main_heap ∧ CollectGarbage main_heap = Done (result (CollectGarbage main_heap)) ∧
  ∃ l, StronglySorted Z.le l ∧ NoDup l ∧
       (∀ a, a ∈ l ↔ is_Some (objects main_heap !! a) ∧ ¬ reachable main_heap a) ∧
       trace (result (CollectGarbage main_heap)) =
         trace main_heap ++
         (l ≫= λ a, [Finalize (finalizer main_heap a) a; Release a]).
Proof.
  assert (CollectGarbage main_heap = Done (result (CollectGarbage main_heap)))
    as Hrun by (vm_compute; reflexivity).
  split; [exact wf_main_heap|]. split; [exact Hrun|].
  exact (sweep_in_table_order main_heap _ wf_main_heap Hrun).
Defined.

(** X14.  A completed collection flips the epoch and leaves the table
    in it: the records still in the table are the reachable ones, each
    with the mark, which was the old epoch's, flipped to the new one and
    with its address, size, source, line and finalizer unchanged. *)
Theorem collection_flips_marks s s' :
  wf s → CollectGarbage s = Done s' →
  currentMark s' = negb (currentMark s) ∧
  ∀ a i', objects s' !! a = Some i' →
    ∃ i, objects s !! a = Some i ∧ reachable s a ∧
         ObjectInfo.mark i = currentMark s ∧
         ObjectInfo.mark i' = negb (ObjectInfo.mark i) ∧
         ObjectInfo.object i' = ObjectInfo.object i ∧
         ObjectInfo.size i' = ObjectInfo.size i ∧
         ObjectInfo.source i' = ObjectInfo.source i ∧
         ObjectInfo.line i' = ObjectInfo.line i ∧
         ObjectInfo.destroy i' = ObjectInfo.destroy i.
Proof.
  intros Hwf Hrun.
  destruct (CollectGarbage_Done s s' Hwf Hrun) as (sm & Hrem & Hmk & Hfree & _ & Hsw).
  pose proof (wf_CollectGarbage s s' Hwf Hrun) as [_ Hm'].
  assert (currentMark s' = negb (currentMark s)) as Hcur.
  { rewrite (sw_mark _ _ _ Hsw). by destruct Hrem as (_ & _ & -> & _). }
  split; [done|]. intros a i' Hi'.
  assert (a ∉ freeObjects sm) as Hna.
  { intros Hin. by rewrite (sw_gone _ _ _ Hsw a Hin) in Hi'. }
  destruct (shape_lookup _ _ _ _ (sw_kept _ _ _ Hsw a Hna) Hi') as (im & Him & Hsh).
  destruct (remark_lookup _ _ _ _ Hrem Him) as (i & Hi & Him').
  simpl in Hi. exists i. split; [done|].
  pose proof (proj2 Hwf a i Hi) as Hmi.
  assert (ObjectInfo.mark i' = currentMark s') as Hmi' by by eapply Hm'.
  split.
  { apply Hmk. exists im. split; [done|].
    apply shape_fields in Hsh as (_ & _ & <- & _).
    rewrite Hmi', (sw_mark _ _ _ Hsw). done. }
  split; [done|]. split; [by rewrite Hmi', Hcur, Hmi|].
  assert (shape i' = shape (ObjectInfo.set_mark (ObjectInfo.mark i') i)) as Hsh'.
  { rewrite Hsh. destruct Him' as [->| ->]; destruct i; unfold shape; simpl;
      f_equal; apply shape_fields in Hsh as (_ & _ & -> & _); done. }
  destruct i', i. unfold shape in Hsh'. simpl in *.
  injection Hsh' as -> -> -> -> ->. done.
Qed.

Lemma collection_flips_marks_witness :
  wf main_heap ∧ CollectGarbage main_heap = Done (result (CollectGarbage main_heap)) ∧
  currentMark (result (CollectGarbage main_heap)) = negb (currentMark main_heap) ∧
  ∀ a i', objects (result (CollectGarbage main_heap)) !! a = Some i' →
    ∃ i, objects main_heap !! a = Some i ∧ reachable main_heap a ∧
         ObjectInfo.mark i = currentMark main_heap ∧
         ObjectInfo.mark i' = negb (ObjectInfo.mark i) ∧
         ObjectInfo.object i' = ObjectInfo.object i ∧
         ObjectInfo.size i' = ObjectInfo.size i ∧
         ObjectInfo.source i' = ObjectInfo.source i ∧
         ObjectInfo.line i' = ObjectInfo.line i ∧
         ObjectInfo.destroy i' = ObjectInfo.destroy i.
Proof.
  assert (CollectGarbage main_heap = Done (result (CollectGarbage main_heap)))
    as Hrun by (vm_compute; reflexivity).
  split; [exact wf_main_heap|]. split; [exact Hrun|].
  exact (collection_flips_marks main_heap _ wf_main_heap Hrun).
Defined.

(** ** Explicit deallocation *)

Lemma operator_delete_trace data s s' :
  operator_delete data s = Done s' →
  trace s' = trace s ++ [Release data] ∧ objects s' !! data = None.
Proof.
  unfold operator_delete. destruct (objects s !! data) as [i|] eqn:Hi.
  - intros Hrun. apply bind_Done in Hrun as (s2 & Hinv & Hrun).
    injection Hrun as <-.
    apply invalidate_all_fades in Hinv as (_ & _ & _ & _ & _ & Ht). simpl in *.
    rewrite Ht. split; [done|]. apply lookup_delete_eq.
  - by intros [= <-].
Qed.

(** X15.  An object deallocated by hand is not released or finalized a
    second time by a later collection: [operator delete] takes the record
    out of the table, so the sweep never visits it. *)
Theorem explicit_delete_then_collect s s1 s2 data :
  wf s → operator_delete data s = Done s1 → CollectGarbage s1 = Done s2 →
  objects s2 !! data = None ∧
  ∃ new, trace s2 = trace s ++ Release data :: new ∧
         tally (releases data) new = 0%nat ∧ tally (finalizes data) new = 0%nat.
Proof.
  intros Hwf Hdel Hrun.
  pose proof (wf_operator_delete data s s1 Hwf Hdel) as Hwf1.
  apply operator_delete_trace in Hdel as (Ht1 & Hgone).
  destruct (CollectGarbage_Done s1 s2 Hwf1 Hrun) as (sm & Hrem & _ & Hfree & _ & Hsw).
  assert (data ∉ freeObjects sm) as Hna.
  { intros Hin. apply Hfree in Hin as [[i Hi] _]. congruence. }
  split.
  - pose proof (sw_kept _ _ _ Hsw data Hna) as Hk.
    destruct Hrem as (_ & _ & _ & _ & _ & Ho).
    destruct (Ho data) as [E|(i & Hi & _)]; [|simpl in Hi; congruence].
    simpl in E. rewrite E, Hgone in Hk. by destruct (objects s2 !! data).
  - exists (sweep_events sm (freeObjects sm)).
    rewrite (sw_trace _ _ _ Hsw). destruct Hrem as (_ & _ & _ & _ & -> & _).
    simpl. rewrite Ht1, <- app_assoc. split; [done|].
    destruct (tally_sweep_events sm data (freeObjects sm) (freeObjects_NoDup sm))
      as [-> ->]. by rewrite decide_False.
Qed.

Lemma explicit_delete_then_collect_witness :
  wf main_heap ∧
  operator_delete objC main_heap = Done (result (operator_delete objC main_heap)) ∧
  CollectGarbage (result (operator_delete objC main_heap)) =
    Done (result (CollectGarbage (result (operator_delete objC main_heap)))) ∧
  objects (result (CollectGarbage (result (operator_delete objC main_heap))))
    !! objC = None ∧
  ∃ new, trace (result (CollectGarbage (result (operator_delete objC main_heap)))) =
           trace main_heap ++ Release objC :: new ∧
         tally (releases objC) new = 0%nat ∧ tally (finalizes objC) new = 0%nat.
Proof.
  assert (operator_delete objC main_heap
          = Done (result (operator_delete objC main_heap))) as Hdel
    by (vm_compute; reflexivity).
  assert (CollectGarbage (result (operator_delete objC main_heap)) =
          Done (result (CollectGarbage (result (operator_delete objC main_heap)))))
    as Hrun by (vm_compute; reflexivity).
  split; [exact wf_main_heap|]. split; [exact Hdel|]. split; [exact Hrun|].
  exact (explicit_delete_then_collect main_heap _ _ objC wf_main_heap Hdel Hrun).
Defined.

(** X16.  [operator delete] on the address of a record whose block
    stores no registered handle - the handle members of the object were
    destroyed before, as by the destructor that a delete expression runs
    first - completes and changes only what belongs to that record: the
    record leaves the table, the counter drops by its size, the handles
    bound to it become invalid and every other handle is as before, one
    release is traced and no finalizer is called, the registry is not
    touched, and the state stays consistent.  With registered handles
    still stored in the block the call would leave them in the registry,
    pointing into released storage. *)
Theorem operator_delete_registered s data i :
  consistent s → objects s !! data = Some i →
  handle_free data (data + ObjectInfo.size i) s →
  ∃ s', operator_delete data s = Done s' ∧ consistent s' ∧
        objects s' = delete data (objects s) ∧ pointers s' = pointers s ∧
        currentMark s' = currentMark s ∧
        allocatedBytes s' = size_t_wrap (allocatedBytes s - ObjectInfo.size i) ∧
        trace s' = trace s ++ [Release data] ∧
        handle_free data (data + ObjectInfo.size i) s' ∧
        ∀ h, handles s' !! h =
             (λ p, if decide (IPtr.info p = Some data)
                   then IPtr.MarkInvalid p else p) <$> handles s !! h.
Proof.
  intros Hs Hi Hfree. unfold operator_delete. rewrite Hi.
  set (s1 := set_allocatedBytes _ s).
  destruct (drop_record_spec s1 data i)
    as (s2 & -> & Ho & Hp & Hc & Ha & Ht & Hh & Hs2);
    [by apply (consistent_ext s)|done|]. simpl.
  eexists. split; [done|]. split; [by apply consistent_emit|]. simpl.
  rewrite Ho, Hp, Hc, Ha, Ht. repeat (split; [done|]). split; [|done].
  intros h p' Hp'. simpl in Hp'. rewrite Hh in Hp'. simpl in Hp'.
  destruct (handles s !! h) as [p|] eqn:Hph; [|done]. by apply (Hfree h p).
Qed.

Lemma operator_delete_registered_witness :
  consistent lone_handle_heap ∧
  objects lone_handle_heap !! 1000 =
    Some (ObjectInfo.mk 1000 16 true "main.cpp" 1 [8] (Some tA)) ∧
  handle_free 1000 (1000 + 16) lone_handle_heap ∧
  ∃ s', operator_delete 1000 lone_handle_heap = Done s' ∧ consistent s' ∧
        objects s' = delete 1000 (objects lone_handle_heap) ∧
        pointers s' = pointers lone_handle_heap ∧
        currentMark s' = currentMark lone_handle_heap ∧
        allocatedBytes s' = size_t_wrap (allocatedBytes lone_handle_heap - 16) ∧
        trace s' = trace lone_handle_heap ++ [Release 1000] ∧
        handle_free 1000 (1000 + 16) s' ∧
        ∀ h, handles s' !! h =
             (λ p, if decide (IPtr.info p = Some 1000)
                   then IPtr.MarkInvalid p else p) <$> handles lone_handle_heap !! h.
Proof.
  assert (exec [Call_new 1000 16 "main.cpp" 1; Call_Ptr_raw false tA 8 1000 None]
            initial = Done lone_handle_heap) as Hexec by (vm_compute; reflexivity).
  pose proof (wf_reachable _ _ Hexec) as [Hs _].
  assert (objects lone_handle_heap !! 1000 =
            Some (ObjectInfo.mk 1000 16 true "main.cpp" 1 [8] (Some tA)))
    as Hi by (vm_compute; reflexivity).
  assert (handle_free 1000 (1000 + 16) lone_handle_heap) as Hfree
    by (apply (bool_decide_unpack _); vm_compute; exact I).
  split; [exact Hs|]. split; [exact Hi|]. split; [exact Hfree|].
  exact (operator_delete_registered lone_handle_heap 1000 _ Hs Hi Hfree).
Defined.

(** ** The mark phase *)

(** X17.  From a well-formed state the mark phase completes and writes
    nothing but mark bits: handles, registry, counter and trace are those
    of the state before, the table has the same addresses, and a record
    differs from its old self at most in the mark.  The records that
    carry the new epoch's mark at its end are exactly the reachable
    ones. *)
Theorem mark_phase_marks_the_reachable s :
  wf s →
  ∃ sm, mark_roots (mark_fuel (flipped s)) (flipped s) = Done sm ∧
        handles sm = handles s ∧ pointers sm = pointers s ∧
        allocatedBytes sm = allocatedBytes s ∧ trace sm = trace s ∧
        currentMark sm = negb (currentMark s) ∧
        (∀ a, objects s !! a = None → objects sm !! a = None) ∧
        (∀ a i, objects s !! a = Some i →
           ∃ im, objects sm !! a = Some im ∧
                 im = ObjectInfo.set_mark (ObjectInfo.mark im) i ∧
                 (ObjectInfo.mark im = currentMark sm ↔ reachable s a)).
Proof.
  intros Hwf.
  destruct (CollectGarbage_spec s Hwf) as (sm & Hrun & Hrem & Hmk & _).
  exists sm. split; [done|].
  pose proof Hrem as (Hp & Ha & Hc & Hh & Ht & Ho). simpl in *.
  repeat (split; [done|]). split.
  - intros a Hnone. destruct (Ho a) as [->|(i & Hi & _)]; [done|congruence].
  - intros a i Hi.
    destruct (remark_lookup_fwd (flipped s) sm a i Hrem Hi) as (im & Him & Hcase).
    exists im. split; [done|]. split.
    + destruct Hcase as [->| ->]; by destruct i.
    + rewrite <- Hmk. unfold marked. split.
      * intros Hm. eauto.
      * intros (j & Hj & Hm). by assert (j = im) as -> by congruence.
Qed.

Lemma mark_phase_marks_the_reachable_witness :
  wf main_heap ∧
  ∃ sm, mark_roots (mark_fuel (flipped main_heap)) (flipped main_heap) = Done sm ∧
        handles sm = handles main_heap ∧ pointers sm = pointers main_heap ∧
        allocatedBytes sm = allocatedBytes main_heap ∧ trace sm = trace main_heap ∧
        currentMark sm = negb (currentMark main_heap) ∧
        (∀ a, objects main_heap !! a = None → objects sm !! a = None) ∧
        (∀ a i, objects main_heap !! a = Some i →
           ∃ im, objects sm !! a = Some im ∧
                 im = ObjectInfo.set_mark (ObjectInfo.mark im) i ∧
                 (ObjectInfo.mark im = currentMark sm ↔ reachable main_heap a)).
Proof.
  split; [exact wf_main_heap|].
  exact (mark_phase_marks_the_reachable main_heap wf_main_heap).
Defined.

(** ** The trace of a program *)

Lemma finalize_then_release_app l l' :
  finalize_then_release l → finalize_then_release l' →
  finalize_then_release (l ++ l').
Proof. induction 1; simpl; intros; [done|constructor; auto..]. Qed.

Lemma finalize_then_release_sweep sm l : finalize_then_release (sweep_events sm l).
Proof.
  unfold sweep_events. induction l as [|a l IH]; simpl; [constructor|].
  by constructor.
Qed.

Lemma finalize_then_release_run c s s' :
  wf s → run c s = Done s' →
  finalize_then_release (trace s) → finalize_then_release (trace s').
Proof.
  intros Hwf Hrun Ht. destruct (handle_call c) eqn:Hc.
  { destruct (handle_call_grows c s s' Hc Hrun) as (_ & _ & _ & ->). done. }
  destruct c; simpl in *; try done.
  - by injection Hrun as <-.
  - apply operator_delete_trace in Hrun as [-> _].
    apply finalize_then_release_app; [done|]. repeat constructor.
  - destruct (CollectGarbage_Done s s' Hwf Hrun) as (sm & Hrem & _ & _ & _ & Hsw).
    rewrite (sw_trace _ _ _ Hsw). destruct Hrem as (_ & _ & _ & _ & -> & _).
    apply finalize_then_release_app; [done|apply finalize_then_release_sweep].
Qed.

(** X18.  In the trace of every program each call of a finalizer is
    directly followed by the release of the same address: no object is
    finalized and then kept, and no other finalizer or release comes
    between the finalizer of an object and its [free]. *)
Theorem finalizer_is_followed_by_release cs s :
  exec cs initial = Done s → finalize_then_release (trace s).
Proof.
  intros Hexec.
  apply (exec_invariant (λ t, finalize_then_release (trace t))) with cs initial;
    [|apply wf_initial|constructor|done].
  intros c t t' Hwf _ _ Hrun. by apply (finalize_then_release_run c).
Qed.

Lemma finalizer_is_followed_by_release_witness :
  exec (main_calls ++ [Call_collect]) initial
    = Done (result (CollectGarbage main_heap)) ∧
  finalize_then_release (trace (result (CollectGarbage main_heap))).
Proof.
  assert (exec (main_calls ++ [Call_collect]) initial
          = Done (result (CollectGarbage main_heap))) as Hexec
    by (vm_compute; reflexivity).
  split; [exact Hexec|].
  exact (finalizer_is_followed_by_release _ _ Hexec).
Defined.

(** ** Assignment between handles *)

Lemma Ptr_assign_frame this other s s' :
  Ptr_assign this other s = Done s' →
  ∃ p o, handles s !! this = Some p ∧ handles s !! other = Some o ∧
         handles s' = <[this := IPtr.mk (IPtr.object o) (IPtr.info o)
                                   (IPtr.IsRoot p) (IPtr.pointee p)]> (handles s) ∧
         pointers s' = pointers s.
Proof.
  unfold Ptr_assign. intros Hrun. apply bind_Done in Hrun as (s1 & Hdet & Hrun).
  apply detach_frame in Hdet as (Hp1 & Hh1 & _).
  destruct (handles s1 !! this) as [p|] eqn:Hp; [|done].
  destruct (handles s1 !! other) as [o|] eqn:Ho; [|done].
  rewrite Hh1 in Hp, Ho. exists p, o. split; [done|]. split; [done|].
  destruct (IPtr.info o) as [b|]; simpl in Hrun;
    [destruct (objects s1 !! b); [|done]|]; injection Hrun as <-; simpl;
    by rewrite Hh1, Hp1.
Qed.

(** X19.  [p = q] between live handles completes and moves the
    back-reference: afterwards [p] has the target and the record of [q]
    and its own root flag, it is on the vector of that record and of no
    other, in particular no longer on the vector of the record it was
    bound to before; the registry, the counter and the trace are
    unchanged and no record enters or leaves the table. *)
Theorem assignment_moves_back_reference s this other p o :
  wf s → handles s !! this = Some p → handles s !! other = Some o →
  ∃ s', Ptr_assign this other s = Done s' ∧ wf s' ∧
        handles s' = <[this := IPtr.mk (IPtr.object o) (IPtr.info o)
                                  (IPtr.IsRoot p) (IPtr.pointee p)]> (handles s) ∧
        pointers s' = pointers s ∧ same_records s s' ∧
        (∀ a, is_Some (objects s' !! a) ↔ is_Some (objects s !! a)) ∧
        (∀ a i', objects s' !! a = Some i' →
                 (this ∈ ObjectInfo.pointers i' ↔ IPtr.info o = Some a)).
Proof.
  intros Hwf Hp Ho.
  destruct (run_live (Call_assign this other) s Hwf I) as [[s' Hrun]|[? _]];
    [simpl; eauto| |done]. simpl in Hrun.
  exists s'. split; [done|].
  pose proof (wf_Ptr_assign this other s s' Hwf Hrun) as Hwf'.
  destruct (Ptr_assign_frame this other s s' Hrun) as (p0 & o0 & Hp0 & Ho0 & Hh & Hreg).
  assert (p0 = p) as -> by congruence. assert (o0 = o) as -> by congruence.
  destruct (handle_call_grows (Call_assign this other) s s' eq_refl Hrun)
    as (Hg & Hab & Hcm & Htr).
  split; [done|]. split; [done|]. split; [done|]. split; [done|]. split.
  - intros a. specialize (Hg a).
    destruct (objects s !! a), (objects s' !! a); try done; split; eauto.
  - intros a i' Hi'. split.
    + intros Hin. destruct (c_back _ (proj1 Hwf') a i' this Hi' Hin) as (q & Hq & Hqa).
      rewrite Hh, lookup_insert_eq in Hq. by injection Hq as <-.
    + intros Ha.
      destruct (c_bound _ (proj1 Hwf') this
                  (IPtr.mk (IPtr.object o) (IPtr.info o) (IPtr.IsRoot p) (IPtr.pointee p))
                  a) as (j & Hj & Hin); [by rewrite Hh, lookup_insert_eq|done|].
      by assert (j = i') as -> by congruence.
Qed.

Lemma assignment_moves_back_reference_witness :
  wf main_heap ∧
  handles main_heap !! objD = Some (IPtr.mk objC (Some objC) false tC) ∧
  handles main_heap !! pa = Some (IPtr.mk objA (Some objA) true tA) ∧
  ∃ s', Ptr_assign objD pa main_heap = Done s' ∧ wf s' ∧
        handles s' = <[objD := IPtr.mk objA (Some objA) false tC]> (handles main_heap) ∧
        pointers s' = pointers main_heap ∧ same_records main_heap s' ∧
        (∀ a, is_Some (objects s' !! a) ↔ is_Some (objects main_heap !! a)) ∧
        (∀ a i', objects s' !! a = Some i' →
                 (objD ∈ ObjectInfo.pointers i' ↔ Some objA = Some a)).
Proof.
  assert (handles main_heap !! objD = Some (IPtr.mk objC (Some objC) false tC))
    as Hp by (vm_compute; reflexivity).
  assert (handles main_heap !! pa = Some (IPtr.mk objA (Some objA) true tA))
    as Ho by (vm_compute; reflexivity).
  split; [exact wf_main_heap|]. split; [exact Hp|]. split; [exact Ho|].
  exact (assignment_moves_back_reference main_heap objD pa _ _ wf_main_heap Hp Ho).
Defined.

(** ** The vectors of the survivors *)

(** X20.  After a completed collection the vector of a surviving
    record holds, each once, exactly the handles it held before that are
    still registered: a handle destroyed by a finalizer has taken its
    back-reference with it and no other entry was added or removed.  The
    statement says nothing of which handles the finalizers destroyed. *)
Theorem survivor_vectors_keep_live_handles s s' a i i' :
  wf s → CollectGarbage s = Done s' →
  objects s !! a = Some i → objects s' !! a = Some i' →
  NoDup (ObjectInfo.pointers i') ∧
  ∀ h, h ∈ ObjectInfo.pointers i' ↔
       h ∈ ObjectInfo.pointers i ∧ is_Some (handles s' !! h).
Proof.
  intros Hwf Hrun Hi Hi'.
  destruct (CollectGarbage_Done s s' Hwf Hrun) as (sm & Hrem & _ & Hfree & _ & Hsw).
  pose proof Hrem as (_ & _ & _ & Hh & _). simpl in Hh.
  pose proof (sw_consistent _ _ _ Hsw) as Hs'.
  assert (a ∉ freeObjects sm) as Hna.
  { intros Hin. by rewrite (sw_gone _ _ _ Hsw a Hin) in Hi'. }
  split; [by eapply c_back_nodup|]. intros h. split.
  - intros Hin. destruct (c_back _ Hs' a i' h Hi' Hin) as (p' & Hp' & Ha').
    destruct (sw_handle _ _ _ Hsw h p' Hp') as (p & Hp & Hcase).
    rewrite Hh in Hp.
    assert (p' = p) as -> by (destruct Hcase as [[_ ->]|[_ ->]]; done).
    split; [|eauto].
    destruct (c_bound _ (proj1 Hwf) _ _ _ Hp Ha') as (j & Hj & Hjn).
    by assert (j = i) as -> by congruence.
  - intros [Hin [p' Hp']].
    destruct (c_back _ (proj1 Hwf) a i h Hi Hin) as (p & Hp & Ha).
    destruct (sw_handle _ _ _ Hsw h p' Hp') as (p0 & Hp0 & Hcase).
    rewrite Hh in Hp0. assert (p0 = p) as -> by congruence.
    assert (p' = p) as ->.
    { destruct Hcase as [[(b & Hb & Hpb) _]|[_ ->]]; [|done].
      assert (b = a) as -> by congruence. done. }
    destruct (c_bound _ Hs' _ _ _ Hp' Ha) as (j & Hj & Hjn).
    by assert (j = i') as -> by congruence.
Qed.

Lemma survivor_vectors_keep_live_handles_witness :
  wf main_heap ∧ CollectGarbage main_heap = Done (result (CollectGarbage main_heap)) ∧
  objects main_heap !! objA =
    Some (ObjectInfo.mk objA 48 true "main.cpp" 400 [pa] (Some tA)) ∧
  objects (result (CollectGarbage main_heap)) !! objA =
    Some (ObjectInfo.mk objA 48 false "main.cpp" 400 [pa] (Some tA)) ∧
  NoDup [pa] ∧
  ∀ h, h ∈ [pa] ↔
       h ∈ [pa] ∧ is_Some (handles (result (CollectGarbage main_heap)) !! h).
Proof.
  assert (CollectGarbage main_heap = Done (result (CollectGarbage main_heap)))
    as Hrun by (vm_compute; reflexivity).
  assert (objects main_heap !! objA =
            Some (ObjectInfo.mk objA 48 true "main.cpp" 400 [pa] (Some tA)))
    as Hi by (vm_compute; reflexivity).
  assert (objects (result (CollectGarbage main_heap)) !! objA =
            Some (ObjectInfo.mk objA 48 false "main.cpp" 400 [pa] (Some tA)))
    as Hi' by (vm_compute; reflexivity).
  split; [exact wf_main_heap|]. split; [exact Hrun|]. split; [exact Hi|].
  split; [exact Hi'|].
  exact (survivor_vectors_keep_live_handles main_heap _ objA _ _
           wf_main_heap Hrun Hi Hi').
Defined.
